(** * Fleet simulator: navigation graph, robots, fleet manager, traffic manager

    A shallow embedding of [src/models/nav_graph.py], [src/models/robot.py],
    [src/controllers/fleet_manager.py] and [src/controllers/traffic_manager.py],
    with the properties of the specification stated over it.

    Modelling conventions.
    - Vertex indices are [nat]: every index the fleet manager accepts has
      passed the [vertex_idx < 0] test, so Python's negative indexing is
      never exercised.
    - Python floats ([x], [y], [progress], [battery], [speed]) are exact
      rationals [Q].  Only comparisons and the sums [+ speed], [- 0.1],
      [+ 1] occur; the properties below are order facts.
    - A Python exception is an [outcome] [Raised]; a function that mutates
      [self] returns the mutated object next to its outcome, so that the
      state left behind by a raise is part of the model.
    - References to [Robot] objects held in tables ([occupied_lanes],
      [occupied_vertices], [reservations], queues) are positions in
      [FleetManager.robots] (resp. opaque robot handles in the traffic
      manager); [!=] on robots is Python object identity.
    - Log lines (f-strings) are the constructors of [LogEntry]. *)

From Stdlib Require Import QArith Qminmax Lqa.
From stdpp Require Import gmap list.
Close Scope Q_scope.

(** ** Exceptions *)

Inductive exn := TypeError | IndexError | KeyError.

(** [Diverged] stands for a [while] loop that would not terminate; it is
    shown below never to be produced. *)
Inductive outcome (A : Type) :=
  | Returned (a : A)
  | Raised (e : exn)
  | Diverged.
Arguments Returned {A} a.
Arguments Raised {A} e.
Arguments Diverged {A}.

(** ** nav_graph.py *)

Module NavGraph.

Record Vertex := mkVertex {
  x : Q;
  y : Q;
  is_charger : bool
}.

Record Lane := mkLane {
  start_idx : nat;
  end_idx : nat;
  speed_limit : nat
}.

Record t := mk {
  vertices : list Vertex;
  lanes : list Lane
}.

(** [get_adjacent_vertices]: one entry per lane touching [vertex_idx], in
    lane-declaration order. *)
Fixpoint adjacent_in (ls : list Lane) (vertex_idx : nat) : list nat :=
  match ls with
  | [] => []
  | lane :: rest =>
      if start_idx lane =? vertex_idx
      then end_idx lane :: adjacent_in rest vertex_idx
      else if end_idx lane =? vertex_idx
           then start_idx lane :: adjacent_in rest vertex_idx
           else adjacent_in rest vertex_idx
  end.

Definition get_adjacent_vertices (g : t) (vertex_idx : nat) : list nat :=
  adjacent_in (lanes g) vertex_idx.

(** [distances]: [None] is [float('inf')]. *)
Definition dist_at (distances : list (option nat)) (i : nat) : option nat :=
  default None (distances !! i).

(** [previous]: [None] is the sentinel [-1]. *)
Definition prev_at (previous : list (option nat)) (i : nat) : option nat :=
  default None (previous !! i).

(** [a < b] on distances. *)
Definition dist_lt (a b : option nat) : bool :=
  match a, b with
  | Some m, Some k => m <? k
  | Some _, None => true
  | None, _ => false
  end.

(** [min(unvisited, key=lambda x: distances[x])]: the first element, in
    iteration order, whose key is minimal.  [unvisited] is kept as the
    ascending list of its members, the order in which CPython iterates a
    set of small integers; the proofs below use only that the element
    chosen is a member with a minimal key. *)
Fixpoint min_by (key : nat → option nat) (best : nat) (l : list nat) : nat :=
  match l with
  | [] => best
  | c :: rest =>
      if dist_lt (key c) (key best) then min_by key c rest
      else min_by key best rest
  end.

(** The [for neighbor in ...] loop of one iteration. *)
Fixpoint relax (current : nat) (nbrs unvisited : list nat)
    (distances previous : list (option nat))
    : list (option nat) * list (option nat) :=
  match nbrs with
  | [] => (distances, previous)
  | neighbor :: rest =>
      if bool_decide (neighbor ∈ unvisited) then
        let new_dist := S <$> dist_at distances current in
        if dist_lt new_dist (dist_at distances neighbor) then
          relax current rest unvisited
            (<[neighbor := new_dist]> distances)
            (<[neighbor := Some current]> previous)
        else relax current rest unvisited distances previous
      else relax current rest unvisited distances previous
  end.

(** The [while unvisited] loop.  Every iteration removes one member of
    [unvisited], so [fuel = len(vertices)] iterations are enough. *)
Fixpoint dijkstra_loop (fuel : nat) (g : t) (end_i : nat)
    (unvisited : list nat) (distances previous : list (option nat))
    : list (option nat) * list (option nat) :=
  match fuel with
  | 0 => (distances, previous)
  | S fuel' =>
      match unvisited with
      | [] => (distances, previous)
      | c :: rest =>
          let current := min_by (dist_at distances) c rest in
          let unvisited' := filter (λ v, v ≠ current) unvisited in
          if current =? end_i then (distances, previous)
          else
            let '(distances', previous') :=
              relax current (get_adjacent_vertices g current) unvisited'
                distances previous in
            dijkstra_loop fuel' g end_i unvisited' distances' previous'
      end
  end.

(** The [while previous[current] != -1] loop; [None] when the fuel is
    used up. *)
Fixpoint walk_back (fuel : nat) (previous : list (option nat))
    (current : nat) (path : list nat) : option (list nat) :=
  match fuel with
  | 0 => None
  | S fuel' =>
      match prev_at previous current with
      | None => Some path
      | Some p => walk_back fuel' previous p (path ++ [current])
      end
  end.

Definition find_shortest_path (g : t) (start_i end_i : nat)
    : outcome (list nat) :=
  if start_i =? end_i then Returned [start_i]
  else
    let n := length (vertices g) in
    (* distances[start_idx] = 0 *)
    if negb (start_i <? n) then Raised IndexError
    else
      let distances := <[start_i := Some 0]> (replicate n None) in
      let previous := replicate n None in
      let '(distances, previous) :=
        dijkstra_loop n g end_i (seq 0 n) distances previous in
      (* previous[end_idx] *)
      if negb (end_i <? n) then Raised IndexError
      else
        match walk_back (S n) previous end_i [] with
        | None => Diverged
        | Some path =>
            let path := reverse (path ++ [start_i]) in
            Returned (if dist_at distances end_i is Some _ then path else [])
        end.

(** Whether some lane joins [u] and [v], in either direction. *)
Definition lane_connects (lane : Lane) (u v : nat) : bool :=
  (start_idx lane =? u) && (end_idx lane =? v)
  || (end_idx lane =? u) && (start_idx lane =? v).

Definition connected (g : t) (u v : nat) : bool :=
  existsb (λ lane, lane_connects lane u v) (lanes g).

(** A lane-path: vertices of the graph, consecutive ones joined by a lane. *)
Fixpoint lane_path (g : t) (p : list nat) : Prop :=
  match p with
  | [] => True
  | u :: rest =>
      u < length (vertices g) ∧
      match rest with
      | [] => True
      | v :: _ => connected g u v = true ∧ lane_path g rest
      end
  end.

Definition path_from_to (g : t) (a b : nat) (p : list nat) : Prop :=
  head p = Some a ∧ last p = Some b ∧ lane_path g p.


(** *** Reachability and the invariants of the search *)

(** [a <= b] on distances, [None] being infinite. *)
Definition dist_le (a b : option nat) : Prop :=
  match a, b with
  | Some m, Some k => m ≤ k
  | _, None => True
  | None, Some _ => False
  end.

(** What the neighbour loop does to each vertex [w]. *)
Definition relaxed_here (cur : nat) (nbrs unvisited : list nat)
    (distances : list (option nat)) (w : nat) : bool :=
  bool_decide (w ∈ nbrs) && bool_decide (w ∈ unvisited)
  && dist_lt (S <$> dist_at distances cur) (dist_at distances w).

Section Search.

Variable g : t.
Variable start_i : nat.

Local Abbreviation n := (length (vertices g)).

(** [hops v k]: [v] is reached from [start_i] along [k] lanes. *)
Inductive hops : nat → nat → Prop :=
  | hops_0 : hops start_i 0
  | hops_S u v k :
      hops u k → connected g u v = true → v < n → hops v (S k).

(** The loop invariant of [while unvisited]. *)
Record inv (unvisited : list nat) (distances previous : list (option nat))
    : Prop := {
  inv_len_d : length distances = n;
  inv_len_p : length previous = n;
  inv_unv : ∀ v, v ∈ unvisited → v < n;
  inv_start : dist_at distances start_i = Some 0
              ∧ prev_at previous start_i = None;
  inv_first : start_i ∈ unvisited →
              ∀ v, v ≠ start_i → dist_at distances v = None;
  inv_chain : ∀ v k, dist_at distances v = Some k → v ≠ start_i →
      ∃ u k', prev_at previous v = Some u ∧ u < n ∧ (u ∉ unvisited)
              ∧ dist_at distances u = Some k' ∧ k = S k'
              ∧ connected g u v = true;
  inv_none : ∀ v, dist_at distances v = None → prev_at previous v = None;
  inv_mono : ∀ u v, u < n → u ∉ unvisited → v ∈ unvisited →
      dist_le (dist_at distances u) (dist_at distances v);
  inv_relaxed : ∀ u k w, u < n → u ∉ unvisited →
      dist_at distances u = Some k → connected g u w = true → w < n →
      ∃ j, dist_at distances w = Some j ∧ j ≤ S k;
  inv_opt : ∀ v k, hops v k → v ∉ unvisited →
      ∃ m, dist_at distances v = Some m ∧ m ≤ k;
  inv_bound : ∀ v k, dist_at distances v = Some k →
      k + length unvisited ≤ n
}.

(** What the path reconstruction needs from the finished loop. *)
Record post (end_i : nat) (distances previous : list (option nat))
    : Prop := {
  post_len_d : length distances = n;
  post_start : dist_at distances start_i = Some 0
               ∧ prev_at previous start_i = None;
  post_chain : ∀ v k, dist_at distances v = Some k → v ≠ start_i →
      ∃ u k', prev_at previous v = Some u
              ∧ dist_at distances u = Some k' ∧ k = S k'
              ∧ connected g u v = true;
  post_none : ∀ v, dist_at distances v = None → prev_at previous v = None;
  post_opt : ∀ k, hops end_i k →
      ∃ m, dist_at distances end_i = Some m ∧ m ≤ k;
  post_bound : ∀ v k, dist_at distances v = Some k → k ≤ n
}.

End Search.

End NavGraph.

(** ** robot.py *)

Inductive RobotStatus := IDLE | MOVING | WAITING | CHARGING | TASK_COMPLETE.

Global Instance RobotStatus_eq_dec : EqDecision RobotStatus.
Proof. solve_decision. Defined.

(** The log lines a robot or the fleet manager appends. *)
Inductive LogEntry :=
  | LogAssigned (robot_id destination_idx : nat)
  | LogStartedCharging (robot_id vertex_idx : nat)
  | LogCompleted (robot_id vertex_idx : nat)
  | LogLowBattery (robot_id nearest : nat)
  | LogFinishedCharging (robot_id : nat)
  | LogWaiting (robot_id : nat) (lane_key : nat * nat).

(** Comparisons and [min]/[max] of Python on numbers. *)
Definition Qltb (a b : Q) : bool :=
  match (a ?= b)%Q with Lt => true | _ => false end.

(** [max(a, b)] returns [a] unless [b] is strictly greater. *)
Definition py_max (a b : Q) : Q := if Qltb a b then b else a.

(** [min(a, b)] returns [a] unless [b] is strictly smaller. *)
Definition py_min (a b : Q) : Q := if Qltb b a then b else a.

Module Robot.

Record t := mk {
  id : nat;
  x : Q;
  y : Q;
  status : RobotStatus;
  current_vertex_idx : option nat;
  destination_vertex_idx : option nat;
  path : list nat;
  progress : Q;
  current_lane : option (nat * nat);
  log : list LogEntry;
  battery : Q;
  speed : Q
}.

(** [Robot(robot_id, x, y)]; the cosmetic [color] is left out. *)
Definition init (robot_id : nat) (x0 y0 : Q) : t :=
  mk robot_id x0 y0 IDLE None None [] 0 None [] 100 0.05.

Definition set_xy (x' y' : Q) (r : t) : t :=
  mk (id r) x' y' (status r) (current_vertex_idx r)
     (destination_vertex_idx r) (path r) (progress r) (current_lane r)
     (log r) (battery r) (speed r).

Definition set_status (s : RobotStatus) (r : t) : t :=
  mk (id r) (x r) (y r) s (current_vertex_idx r)
     (destination_vertex_idx r) (path r) (progress r) (current_lane r)
     (log r) (battery r) (speed r).

Definition set_current_vertex_idx (v : option nat) (r : t) : t :=
  mk (id r) (x r) (y r) (status r) v
     (destination_vertex_idx r) (path r) (progress r) (current_lane r)
     (log r) (battery r) (speed r).

Definition set_destination_vertex_idx (v : option nat) (r : t) : t :=
  mk (id r) (x r) (y r) (status r) (current_vertex_idx r)
     v (path r) (progress r) (current_lane r)
     (log r) (battery r) (speed r).

Definition set_path (p : list nat) (r : t) : t :=
  mk (id r) (x r) (y r) (status r) (current_vertex_idx r)
     (destination_vertex_idx r) p (progress r) (current_lane r)
     (log r) (battery r) (speed r).

Definition set_progress (p : Q) (r : t) : t :=
  mk (id r) (x r) (y r) (status r) (current_vertex_idx r)
     (destination_vertex_idx r) (path r) p (current_lane r)
     (log r) (battery r) (speed r).

Definition set_current_lane (l : option (nat * nat)) (r : t) : t :=
  mk (id r) (x r) (y r) (status r) (current_vertex_idx r)
     (destination_vertex_idx r) (path r) (progress r) l
     (log r) (battery r) (speed r).

Definition set_log (l : list LogEntry) (r : t) : t :=
  mk (id r) (x r) (y r) (status r) (current_vertex_idx r)
     (destination_vertex_idx r) (path r) (progress r) (current_lane r)
     l (battery r) (speed r).

Definition set_battery (b : Q) (r : t) : t :=
  mk (id r) (x r) (y r) (status r) (current_vertex_idx r)
     (destination_vertex_idx r) (path r) (progress r) (current_lane r)
     (log r) b (speed r).

(** [self.log.append(entry)] *)
Definition log_append (e : LogEntry) (r : t) : t := set_log (log r ++ [e]) r.

Definition _move_to_next_vertex (g : NavGraph.t) (r : t) : t :=
  match path r with
  | start_idx :: end_idx :: _ =>
      (* the lane search: [current_lane] is assigned only when a lane joins
         the two vertices *)
      let r := if NavGraph.connected g start_idx end_idx
               then set_current_lane (Some (start_idx, end_idx)) r
               else r in
      let r := set_progress 0 r in
      let r := set_current_vertex_idx (Some start_idx) r in
      set_path (tail (path r)) r
  | _ =>
      set_destination_vertex_idx None (set_status TASK_COMPLETE r)
  end.

Definition assign_task (destination_idx : nat) (g : NavGraph.t) (r : t)
    : outcome bool * t :=
  if decide (status r = CHARGING) then (Returned false, r)
  else
    match current_vertex_idx r with
    | None => (Returned false, r)
    | Some cur =>
        let r := set_destination_vertex_idx (Some destination_idx) r in
        match NavGraph.find_shortest_path g cur destination_idx with
        | Raised e => (Raised e, r)
        | Diverged => (Diverged, r)
        | Returned p =>
            let r := set_path p r in
            match p with
            | [] => (Returned false, r)
            | _ :: _ =>
                let r := set_status MOVING r in
                let r := _move_to_next_vertex g r in
                (Returned true,
                 log_append (LogAssigned (id r) destination_idx) r)
            end
        end
    end.

(** The square of [_distance_to_vertex]; the square root is monotone, so
    the nearest charger is the same. *)
Definition distance2_to_vertex (r : t) (v : NavGraph.Vertex) : Q :=
  ((x r - NavGraph.x v) * (x r - NavGraph.x v)
   + (y r - NavGraph.y v) * (y r - NavGraph.y v))%Q.

(** [[i for i, v in enumerate(vertices) if v.is_charger]] *)
Fixpoint chargers_from (i : nat) (vs : list NavGraph.Vertex) : list nat :=
  match vs with
  | [] => []
  | v :: rest =>
      if NavGraph.is_charger v then i :: chargers_from (S i) rest
      else chargers_from (S i) rest
  end.

(** [min(chargers, key=...)]: the first charger at minimal distance. *)
Fixpoint nearest_of (key : nat → Q) (best : nat) (l : list nat) : nat :=
  match l with
  | [] => best
  | c :: rest =>
      if Qltb (key c) (key best) then nearest_of key c rest
      else nearest_of key best rest
  end.

Definition charger_key (g : NavGraph.t) (r : t) (i : nat) : Q :=
  match NavGraph.vertices g !! i with
  | Some v => distance2_to_vertex r v
  | None => 0
  end.

(** The battery part of [update_position], run while still [MOVING]. *)
Definition consume_battery (g : NavGraph.t) (r : t) : outcome unit * t :=
  let r := set_battery (py_max 0 (battery r - 0.1)) r in
  if Qltb (battery r) 20 then
    match chargers_from 0 (NavGraph.vertices g) with
    | [] => (Returned (), r)
    | c :: rest =>
        let nearest := nearest_of (charger_key g r) c rest in
        match assign_task nearest g r with
        | (Returned _, r) =>
            (Returned (), log_append (LogLowBattery (id r) nearest) r)
        | (Raised e, r) => (Raised e, r)
        | (Diverged, r) => (Diverged, r)
        end
    end
  else (Returned (), r).

(** The motion part of [update_position] along the current lane. *)
Definition advance (g : NavGraph.t) (end_idx : nat)
    (start_vertex end_vertex : NavGraph.Vertex) (r : t) : t :=
  let r := set_progress (progress r + speed r)%Q r in
  if Qle_bool 1 (progress r) then
    let r := set_progress 0 r in
    let r := set_current_vertex_idx (Some end_idx) r in
    let r := set_xy (NavGraph.x end_vertex) (NavGraph.y end_vertex) r in
    if NavGraph.is_charger end_vertex && Qltb (battery r) 50 then
      log_append (LogStartedCharging (id r) end_idx) (set_status CHARGING r)
    else if path r is [] then
      log_append (LogCompleted (id r) end_idx) (set_status TASK_COMPLETE r)
    else _move_to_next_vertex g r
  else
    (* interpolate the position *)
    set_xy
      (NavGraph.x start_vertex
       + (NavGraph.x end_vertex - NavGraph.x start_vertex) * progress r)%Q
      (NavGraph.y start_vertex
       + (NavGraph.y end_vertex - NavGraph.y start_vertex) * progress r)%Q
      r.

Definition update_position (g : NavGraph.t) (r : t) : outcome unit * t :=
  if decide (status r ≠ MOVING) then (Returned (), r)
  else
    match current_lane r with
    | None => (Returned (), _move_to_next_vertex g r)
    | Some (start_idx, end_idx) =>
        match NavGraph.vertices g !! start_idx with
        | None => (Raised IndexError, r)
        | Some start_vertex =>
            match NavGraph.vertices g !! end_idx with
            | None => (Raised IndexError, r)
            | Some end_vertex =>
                let r := advance g end_idx start_vertex end_vertex r in
                if decide (status r = MOVING) then consume_battery g r
                else (Returned (), r)
            end
        end
    end.

Definition update_charging (r : t) : t :=
  if decide (status r = CHARGING) then
    let r := set_battery (py_min 100 (battery r + 1)) r in
    if Qle_bool 95 (battery r) then
      log_append (LogFinishedCharging (id r)) (set_status IDLE r)
    else r
  else r.

End Robot.

(** The fields [update_charging] leaves alone. *)
Definition same_task (r r' : Robot.t) : Prop :=
  Robot.id r' = Robot.id r ∧ Robot.x r' = Robot.x r ∧ Robot.y r' = Robot.y r
  ∧ Robot.current_vertex_idx r' = Robot.current_vertex_idx r
  ∧ Robot.destination_vertex_idx r' = Robot.destination_vertex_idx r
  ∧ Robot.path r' = Robot.path r ∧ Robot.progress r' = Robot.progress r
  ∧ Robot.current_lane r' = Robot.current_lane r
  ∧ Robot.speed r' = Robot.speed r.

(** A robot that fits the graph: battery within bounds, standing on a
    vertex of the graph, lane and remaining path inside the graph. *)
Definition robot_ok (g : NavGraph.t) (r : Robot.t) : Prop :=
  (0 <= Robot.battery r <= 100)%Q
  ∧ (∃ c, Robot.current_vertex_idx r = Some c
          ∧ c < length (NavGraph.vertices g))
  ∧ (∀ a b, Robot.current_lane r = Some (a, b) →
       a < length (NavGraph.vertices g) ∧ b < length (NavGraph.vertices g))
  ∧ Forall (λ v, v < length (NavGraph.vertices g)) (Robot.path r).

(** ** fleet_manager.py *)

Module FleetManager.

(** [nav_graph] is a shared reference to the graph object; it is passed to
    every operation.  The logger is write-only and left out. *)
Record t := mk {
  robots : list Robot.t;
  robot_id_counter : nat;
  occupied_vertices : gmap nat (list nat);
  occupied_lanes : gmap (nat * nat) nat
}.

(** [FleetManager(nav_graph)] *)
Definition init : t := mk [] 1 ∅ ∅.

Definition reset_for_new_level (fm : t) : t := mk [] 1 ∅ ∅.

Definition is_vertex_occupied (g : NavGraph.t) (vertex_idx : nat) (fm : t)
    : outcome bool :=
  match occupied_vertices fm !! vertex_idx with
  | None => Returned false
  | Some here =>
      match NavGraph.vertices g !! vertex_idx with
      | None => Raised IndexError
      | Some vertex =>
          if NavGraph.is_charger vertex then Returned false
          else Returned (0 <? length here)
      end
  end.

Definition spawn_robot (g : NavGraph.t) (vertex_idx : nat) (fm : t)
    : outcome bool * t :=
  if negb (vertex_idx <? length (NavGraph.vertices g)) then
    (Returned false, fm)
  else
    match is_vertex_occupied g vertex_idx fm with
    | Raised e => (Raised e, fm)
    | Diverged => (Diverged, fm)
    | Returned true => (Returned false, fm)
    | Returned false =>
        match NavGraph.vertices g !! vertex_idx with
        | None => (Raised IndexError, fm)
        | Some vertex =>
            let robot :=
              Robot.set_current_vertex_idx (Some vertex_idx)
                (Robot.init (robot_id_counter fm)
                   (NavGraph.x vertex) (NavGraph.y vertex)) in
            let ref := length (robots fm) in
            let here := default [] (occupied_vertices fm !! vertex_idx) in
            (Returned true,
             mk (robots fm ++ [robot]) (S (robot_id_counter fm))
                (<[vertex_idx := here ++ [ref]]> (occupied_vertices fm))
                (occupied_lanes fm))
        end
    end.

(** [next((r for r in self.robots if r.id == robot_id), None)], as the
    position of that robot. *)
Fixpoint find_robot (i : nat) (rs : list Robot.t) (robot_id : nat)
    : option (nat * Robot.t) :=
  match rs with
  | [] => None
  | r :: rest =>
      if Robot.id r =? robot_id then Some (i, r)
      else find_robot (S i) rest robot_id
  end.

Definition set_robots (rs : list Robot.t) (fm : t) : t :=
  mk rs (robot_id_counter fm) (occupied_vertices fm) (occupied_lanes fm).

Definition assign_task (g : NavGraph.t) (robot_id destination_idx : nat)
    (fm : t) : outcome bool * t :=
  match find_robot 0 (robots fm) robot_id with
  | None => (Returned false, fm)
  | Some (i, robot) =>
      match Robot.current_vertex_idx robot with
      | None => (Returned false, fm)
      | Some _ =>
          match NavGraph.vertices g !! destination_idx with
          | None => (Returned false, fm)
          | Some dest_vertex =>
              let occupied :=
                if NavGraph.is_charger dest_vertex then Returned false
                else is_vertex_occupied g destination_idx fm in
              match occupied with
              | Raised e => (Raised e, fm)
              | Diverged => (Diverged, fm)
              | Returned true => (Returned false, fm)
              | Returned false =>
                  match Robot.assign_task destination_idx g robot with
                  | (Returned true, robot') =>
                      (Returned true,
                       set_robots
                         (<[i := Robot.set_status MOVING robot']> (robots fm))
                         fm)
                  | (o, robot') =>
                      (o, set_robots (<[i := robot']> (robots fm)) fm)
                  end
              end
          end
      end
  end.

(** [tuple(sorted(lane))] *)
Definition get_lane_key (lane : nat * nat) : nat * nat :=
  (lane.1 `min` lane.2, lane.1 `max` lane.2).

(** The dispatch on the robot's status inside the first loop. *)
Definition dispatch (g : NavGraph.t) (robot : Robot.t)
    : outcome unit * Robot.t :=
  if decide (Robot.status robot = CHARGING) then
    (Returned (), Robot.update_charging robot)
  else if decide (Robot.status robot = MOVING
                  ∨ Robot.status robot = WAITING) then
    Robot.update_position g robot
  else (Returned (), robot).

(** [self.occupied_vertices[robot.current_vertex_idx].append(robot)] for
    the robot at position [i], when it has a vertex. *)
Definition register (i : nat) (robot : Robot.t) (occ : gmap nat (list nat))
    : outcome unit * Robot.t * gmap nat (list nat) :=
  match Robot.current_vertex_idx robot with
  | None => (Returned (), robot, occ)
  | Some v =>
      match occ !! v with
      | None => (Raised KeyError, robot, occ)
      | Some here => (Returned (), robot, <[v := here ++ [i]]> occ)
      end
  end.

(** The body of the first loop of [update] for the robot at position [i]. *)
Definition update_robot (g : NavGraph.t) (i : nat) (robot : Robot.t)
    (occ : gmap nat (list nat))
    : outcome unit * Robot.t * gmap nat (list nat) :=
  match Robot.current_vertex_idx robot with
  | None => (Raised TypeError, robot, occ)   (* None >= int *)
  | Some cur =>
      if length (NavGraph.vertices g) <=? cur then
        (Returned (),
         Robot.set_status IDLE (Robot.set_current_vertex_idx None robot),
         occ)
      else
        match dispatch g robot with
        | (Returned _, robot) => register i robot occ
        | (o, robot) => (o, robot, occ)
        end
  end.

(** The first loop; a raise leaves the remaining robots untouched. *)
Fixpoint update_positions (g : NavGraph.t) (i : nat) (todo : list Robot.t)
    (occ : gmap nat (list nat))
    : outcome unit * list Robot.t * gmap nat (list nat) :=
  match todo with
  | [] => (Returned (), [], occ)
  | robot :: rest =>
      match update_robot g i robot occ with
      | (Returned _, robot', occ') =>
          let '(o, rest', occ'') := update_positions g (S i) rest occ' in
          (o, robot' :: rest', occ'')
      | (o, robot', occ') => (o, robot' :: rest, occ')
      end
  end.

(** The lane key a robot contends for in the second loop. *)
Definition claimed_lane (robot : Robot.t) : option (nat * nat) :=
  if decide (Robot.status robot = MOVING) then
    get_lane_key <$> Robot.current_lane robot
  else None.

(** The body of the second loop for the robot at position [i]. *)
Definition reserve_lane (i : nat) (robot : Robot.t)
    (lanes : gmap (nat * nat) nat) : Robot.t * gmap (nat * nat) nat :=
  match claimed_lane robot with
  | None => (robot, lanes)
  | Some lane_key =>
      match lanes !! lane_key with
      | Some holder =>
          if decide (holder ≠ i) then
            (Robot.log_append (LogWaiting (Robot.id robot) lane_key)
               (Robot.set_status WAITING robot), lanes)
          else (robot, <[lane_key := i]> lanes)
      | None => (robot, <[lane_key := i]> lanes)
      end
  end.

Fixpoint reserve_lanes (i : nat) (todo : list Robot.t)
    (lanes : gmap (nat * nat) nat)
    : list Robot.t * gmap (nat * nat) nat :=
  match todo with
  | [] => ([], lanes)
  | robot :: rest =>
      let '(robot', lanes') := reserve_lane i robot lanes in
      let '(rest', lanes'') := reserve_lanes (S i) rest lanes' in
      (robot' :: rest', lanes'')
  end.

(** [{idx: [] for idx in range(len(vertices))}] *)
Definition empty_occupancy (n : nat) : gmap nat (list nat) :=
  list_to_map ((λ idx, (idx, [])) <$> seq 0 n).

(** [update]: the tick. *)
Definition update (g : NavGraph.t) (fm : t) : outcome unit * t :=
  let occ := empty_occupancy (length (NavGraph.vertices g)) in
  match update_positions g 0 (robots fm) occ with
  | (Returned _, rs, occ) =>
      let '(rs, lanes) := reserve_lanes 0 rs ∅ in
      (* the log lines go to the logger, then [robot.log.clear()] *)
      (Returned (),
       mk (Robot.set_log [] <$> rs) (robot_id_counter fm) occ lanes)
  | (o, rs, occ) => (o, mk rs (robot_id_counter fm) occ ∅)
  end.

(** [get_robot_info]: the dictionary as a record, [None] for the empty
    dictionary; the colour, which [Robot.t] leaves out, is not listed. *)
Record RobotInfo := mkRobotInfo {
  info_id : nat;
  info_x : Q;
  info_y : Q;
  info_status : RobotStatus;
  info_battery : Q;
  info_destination : option nat;
  info_current_vertex : option nat
}.

Definition get_robot_info (fm : t) (robot_id : nat)
    : option RobotInfo :=
  match find_robot 0 (robots fm) robot_id with
  | None => None
  | Some (_, robot) =>
      Some (mkRobotInfo (Robot.id robot) (Robot.x robot) (Robot.y robot)
              (Robot.status robot) (Robot.battery robot)
              (Robot.destination_vertex_idx robot)
              (Robot.current_vertex_idx robot))
  end.

Definition get_all_robots_info (fm : t)
    : list (option RobotInfo) :=
  (λ robot, get_robot_info fm (Robot.id robot)) <$> robots fm.

End FleetManager.

(** Occupancy tables: every vertex of the graph has an entry; a vertex
    is occupied when its entry lists a robot; a robot is recorded when its
    vertex is occupied. *)
Definition covers (g : NavGraph.t) (occ : gmap nat (list nat)) : Prop :=
  ∀ c, c < length (NavGraph.vertices g) → is_Some (occ !! c).

Definition occupied (occ : gmap nat (list nat)) (c : nat) : Prop :=
  ∃ here, occ !! c = Some here ∧ here ≠ [].

Definition recorded (occ : gmap nat (list nat)) (r : Robot.t) : Prop :=
  ∀ c, Robot.current_vertex_idx r = Some c → occupied occ c.

(** What the second loop makes of a robot that loses lane [k]. *)
Definition waiting (r : Robot.t) (k : nat * nat) : Robot.t :=
  Robot.log_append (LogWaiting (Robot.id r) k) (Robot.set_status WAITING r).

(** Ids grow along [robots]: every fleet is built by [spawn_robot], which
    appends the robot carrying the next id. *)
Definition ids_increasing (rs : list Robot.t) : Prop :=
  ∀ i j ri rj, rs !! i = Some ri → rs !! j = Some rj → i < j →
    Robot.id ri < Robot.id rj.

(** The robots whose [current_vertex_idx] is [v]. *)
Definition occupants (fm : FleetManager.t) (v : nat) : list Robot.t :=
  filter (λ r, Robot.current_vertex_idx r = Some v) (FleetManager.robots fm).

(** The positions, counted from [i], of the robots of [rs] whose
    [current_vertex_idx] is [v]. *)
Fixpoint standing (v : nat) (i : nat) (rs : list Robot.t) : list nat :=
  match rs with
  | [] => []
  | r :: rest =>
      if decide (Robot.current_vertex_idx r = Some v)
      then i :: standing v (S i) rest
      else standing v (S i) rest
  end.

(** What holds of every robot of a reachable fleet, beside [robot_ok]. *)

(** The lane a robot is on is a lane of the graph. *)
Definition lane_real (g : NavGraph.t) (r : Robot.t) : Prop :=
  ∀ a b, Robot.current_lane r = Some (a, b) → NavGraph.connected g a b = true.

(** Progress stays in [0, 1) and the speed is the one set at creation. *)
Definition progress_ok (r : Robot.t) : Prop :=
  (0 <= Robot.progress r)%Q ∧ (Robot.progress r < 1)%Q
  ∧ Robot.speed r = 0.05%Q.

(** A robot charges on a charger vertex only, its battery below 95. *)
Definition charging_ok (g : NavGraph.t) (r : Robot.t) : Prop :=
  Robot.status r = CHARGING →
  (Robot.battery r < 95)%Q
  ∧ ∃ c v, Robot.current_vertex_idx r = Some c
           ∧ NavGraph.vertices g !! c = Some v
           ∧ NavGraph.is_charger v = true.

Definition steady (g : NavGraph.t) (r : Robot.t) : Prop :=
  lane_real g r ∧ progress_ok r ∧ charging_ok g r.

(** ** traffic_manager.py *)

Module TrafficManager.

(** Robots are opaque handles compared by identity. *)
Record t := mk {
  reservations : gmap (nat * nat) nat;
  intersection_queues : gmap nat (list nat)
}.

Definition lane_key (current next_vertex : nat) : nat * nat :=
  if current <? next_vertex then (current, next_vertex)
  else (next_vertex, current).

(** One step of the checking loop: [false] is the early [return False]. *)
Definition step_free (robot : nat) (tm : t) (current next_vertex : nat)
    (last_step : bool) : bool :=
  match reservations tm !! lane_key current next_vertex with
  | Some holder => bool_decide (holder = robot)
  | None => true
  end
  && (last_step
      || match intersection_queues tm !! next_vertex with
         | Some (_ :: _) => false
         | _ => true
         end).

(** The first loop over [range(len(path) - 1)]; the step at index [i] is
    the last one exactly when [i < len(path) - 2] fails. *)
Fixpoint path_free (robot : nat) (tm : t) (path : list nat) : bool :=
  match path with
  | current :: ((next_vertex :: more) as rest) =>
      step_free robot tm current next_vertex (bool_decide (more = []))
      && path_free robot tm rest
  | _ => true
  end.

Definition reserve_step (robot : nat) (tm : t) (current next_vertex : nat)
    (last_step : bool) : t :=
  let res := <[lane_key current next_vertex := robot]> (reservations tm) in
  if last_step then mk res (intersection_queues tm)
  else
    let queue := default [] (intersection_queues tm !! next_vertex) in
    mk res (<[next_vertex := queue ++ [robot]]> (intersection_queues tm)).

Fixpoint reserve_path (robot : nat) (tm : t) (path : list nat) : t :=
  match path with
  | current :: ((next_vertex :: more) as rest) =>
      reserve_path robot
        (reserve_step robot tm current next_vertex (bool_decide (more = [])))
        rest
  | _ => tm
  end.

Definition request_path (robot : nat) (path : list nat) (tm : t)
    : bool * t :=
  match path with
  | [] => (false, tm)
  | _ :: _ =>
      if path_free robot tm path then (true, reserve_path robot tm path)
      else (false, tm)
  end.

(** [queue.remove(robot)]: the first occurrence is dropped. *)
Fixpoint remove_first (robot : nat) (queue : list nat) : list nat :=
  match queue with
  | [] => []
  | r :: rest =>
      if decide (r = robot) then rest else r :: remove_first robot rest
  end.

(** One step of the loop of [release_path]. *)
Definition release_step (robot : nat) (tm : t) (current next_vertex : nat)
    (last_step : bool) : t :=
  let key := lane_key current next_vertex in
  let res :=
    match reservations tm !! key with
    | Some holder =>
        if decide (holder = robot) then delete key (reservations tm)
        else reservations tm
    | None => reservations tm
    end in
  if last_step then mk res (intersection_queues tm)
  else
    match intersection_queues tm !! next_vertex with
    | Some queue =>
        if decide (robot ∈ queue) then
          mk res (<[next_vertex := remove_first robot queue]>
                    (intersection_queues tm))
        else mk res (intersection_queues tm)
    | None => mk res (intersection_queues tm)
    end.

Fixpoint release_path (robot : nat) (path : list nat) (tm : t) : t :=
  match path with
  | current :: ((next_vertex :: more) as rest) =>
      release_path robot rest
        (release_step robot tm current next_vertex (bool_decide (more = [])))
  | _ => tm
  end.

(** The lane keys along a path, and its vertices other than the two ends. *)
Definition lane_keys (path : list nat) : list (nat * nat) :=
  zip_with lane_key path (tail path).

Definition intermediate_vertices (path : list nat) : list nat :=
  removelast (tail path).

(** How often [v] lies strictly inside the path. *)
Definition inner_count (v : nat) (path : list nat) : nat :=
  length (filter (λ u, u = v) (intermediate_vertices path)).

(** [robot] owns lane [k] / has a slot in the queue of vertex [v]. *)
Definition reserved (robot : nat) (tm : t) (k : nat * nat) : Prop :=
  reservations tm !! k = Some robot.

Definition queued (robot : nat) (tm : t) (v : nat) : Prop :=
  ∃ q, intersection_queues tm !! v = Some q ∧ robot ∈ q.

End TrafficManager.

(** ** The coordinator driven by its host

    The host owns one graph object and one fleet manager, and drives them
    with spawn, task assignment, ticks and level changes; a level change
    loads the new level and calls [reset_for_new_level].  An operation
    that raises leaves the fleet in the state it had reached, and the host
    goes on from there. *)

Record World := mkWorld {
  graph : NavGraph.t;
  fleet : FleetManager.t
}.

Inductive Op :=
  | OpSpawn (vertex_idx : nat)
  | OpAssign (robot_id destination_idx : nat)
  | OpTick
  | OpLoadLevel (level : NavGraph.t).

Definition exec (w : World) (op : Op) : World :=
  match op with
  | OpSpawn v =>
      mkWorld (graph w) (FleetManager.spawn_robot (graph w) v (fleet w)).2
  | OpAssign robot_id d =>
      mkWorld (graph w)
        (FleetManager.assign_task (graph w) robot_id d (fleet w)).2
  | OpTick => mkWorld (graph w) (FleetManager.update (graph w) (fleet w)).2
  | OpLoadLevel level =>
      mkWorld level (FleetManager.reset_for_new_level (fleet w))
  end.

Definition run (w : World) (ops : list Op) : World := foldl exec w ops.

Definition init_world (g : NavGraph.t) : World :=
  mkWorld g FleetManager.init.

(** The ids handed out by the successful spawns of a run, oldest first. *)
Fixpoint spawned_ids (w : World) (ops : list Op) : list nat :=
  match ops with
  | [] => []
  | op :: rest =>
      match op with
      | OpSpawn v =>
          match FleetManager.spawn_robot (graph w) v (fleet w) with
          | (Returned true, _) =>
              [FleetManager.robot_id_counter (fleet w)]
          | _ => []
          end
      | _ => []
      end ++ spawned_ids (exec w op) rest
  end.

(** Level changes among the operations. *)
Definition is_load (op : Op) : bool :=
  match op with OpLoadLevel _ => true | _ => false end.

(** The invariant of the fleets the host can reach. *)
Definition world_ok (w : World) : Prop :=
  Forall (robot_ok (graph w)) (FleetManager.robots (fleet w))
  ∧ Robot.id <$> FleetManager.robots (fleet w)
    = seq 1 (length (FleetManager.robots (fleet w)))
  ∧ FleetManager.robot_id_counter (fleet w)
    = S (length (FleetManager.robots (fleet w)))
  ∧ Forall (recorded (FleetManager.occupied_vertices (fleet w)))
      (FleetManager.robots (fleet w)).

(** ** Example levels and robots *)

(** The line 0 - 1 - 2. *)
Definition line3 : NavGraph.t :=
  NavGraph.mk
    [NavGraph.mkVertex 0 0 false; NavGraph.mkVertex 1 0 false;
     NavGraph.mkVertex 2 0 false]
    [NavGraph.mkLane 0 1 0; NavGraph.mkLane 1 2 0].

(** A smaller level: the line 0 - 1. *)
Definition line2 : NavGraph.t :=
  NavGraph.mk
    [NavGraph.mkVertex 0 0 false; NavGraph.mkVertex 1 0 false]
    [NavGraph.mkLane 0 1 0].

(** The line 2 - 0 - 1 - 3. *)
Definition line4 : NavGraph.t :=
  NavGraph.mk
    [NavGraph.mkVertex 1 0 false; NavGraph.mkVertex 2 0 false;
     NavGraph.mkVertex 0 0 false; NavGraph.mkVertex 3 0 false]
    [NavGraph.mkLane 2 0 0; NavGraph.mkLane 0 1 0; NavGraph.mkLane 1 3 0].

(** The line 0 - 1 - 3 and a charger 2 that no lane reaches. *)
Definition island : NavGraph.t :=
  NavGraph.mk
    [NavGraph.mkVertex 0 0 false; NavGraph.mkVertex 1 0 false;
     NavGraph.mkVertex 5 5 true; NavGraph.mkVertex 2 0 false]
    [NavGraph.mkLane 0 1 0; NavGraph.mkLane 1 3 0].

(** A line 0 - 1 whose two ends are both chargers. *)
Definition chargers2 : NavGraph.t :=
  NavGraph.mk
    [NavGraph.mkVertex 0 0 true; NavGraph.mkVertex 1 0 true]
    [NavGraph.mkLane 0 1 0].

(** A robot freshly spawned at vertex 0. *)
Definition parked : Robot.t :=
  Robot.set_current_vertex_idx (Some 0) (Robot.init 1 0 0).

(** A robot on its way from 0 to 3 over 1, its battery at 20. *)
Definition en_route : Robot.t :=
  Robot.mk 1 0 0 MOVING (Some 0) (Some 3) [1; 3] 0 (Some (0, 1)) [] 20 0.05.

(** A robot charging at vertex 0 in the middle of a task. *)
Definition charging : Robot.t :=
  Robot.mk 1 0 0 CHARGING (Some 0) (Some 1) [1] 0 (Some (1, 0)) [] 94 0.05.

Definition ticks (k : nat) : list Op := replicate k OpTick.

(** On [line4], robot 1 is sent from 0 to 3 and robot 2 from 1 to 2: both
    start on lane (0, 1), from its two ends; the fleet after [k] ticks. *)
Definition head_on_after (k : nat) : FleetManager.t :=
  fleet (run (init_world line4)
           ([OpSpawn 0; OpSpawn 1; OpAssign 1 3; OpAssign 2 2] ++ ticks k)).

(** On [line3], robots at 0 and 2 are both sent to 1; the fleet after [k]
    ticks. *)
Definition meet_after (k : nat) : FleetManager.t :=
  fleet (run (init_world line3)
           ([OpSpawn 0; OpSpawn 2; OpAssign 1 1; OpAssign 2 1] ++ ticks k)).



(** One robot on [chargers2] shuttling between the two ends: [n] round
    trips of 20 ticks each way. *)
Definition shuttle (n : nat) : list Op :=
  concat (replicate n ([OpAssign 1 1] ++ ticks 20 ++ [OpAssign 1 0]
                       ++ ticks 20)).

(** After 13 round trips and one more trip the robot arrives at charger 1
    with less than half of its battery. *)
Definition worn_out_ops : list Op :=
  [OpSpawn 0] ++ shuttle 13 ++ [OpAssign 1 1] ++ ticks 20.

(** * Properties of the navigation graph *)

Module NavGraphFacts.
Import NavGraph.

Lemma dist_lt_false a b : dist_lt a b = false ↔ dist_le b a.
Proof.
  destruct a as [m|], b as [k|]; simpl; try tauto.
  - rewrite Nat.ltb_ge. tauto.
  - split; [discriminate | tauto].
Qed.

Lemma dist_lt_true a b : dist_lt a b = true → dist_le a b.
Proof.
  destruct a as [m|], b as [k|]; simpl; try done.
  rewrite Nat.ltb_lt. lia.
Qed.

Lemma dist_le_refl a : dist_le a a.
Proof. destruct a; simpl; done. Qed.

Lemma dist_le_trans a b c : dist_le a b → dist_le b c → dist_le a c.
Proof. destruct a, b, c; simpl; try done. lia. Qed.

Lemma dist_le_Some a k : dist_le a (Some k) → ∃ m, a = Some m ∧ m ≤ k.
Proof. destruct a as [m|]; simpl; [eauto | done]. Qed.

Lemma dist_at_insert_eq d i x :
  i < length d → dist_at (<[i:=x]> d) i = x.
Proof. intros. unfold dist_at. by rewrite list_lookup_insert_eq. Qed.

Lemma dist_at_insert_ne d i j x :
  i ≠ j → dist_at (<[i:=x]> d) j = dist_at d j.
Proof. intros. unfold dist_at. by rewrite list_lookup_insert_ne. Qed.

Lemma dist_at_Some_lt d i k : dist_at d i = Some k → i < length d.
Proof.
  unfold dist_at. intros H. apply lookup_lt_is_Some.
  destruct (d !! i); [eauto | done].
Qed.

Lemma adjacent_in_connected ls u v :
  v ∈ adjacent_in ls u ↔ existsb (λ lane, lane_connects lane u v) ls = true.
Proof.
  induction ls as [|lane ls IH]; simpl.
  - split; [by intros ?%elem_of_nil | done].
  - unfold lane_connects at 1. rewrite orb_true_iff, <- IH.
    destruct (Nat.eqb_spec (start_idx lane) u) as [Hs|Hs];
      destruct (Nat.eqb_spec (end_idx lane) u) as [He|He];
      destruct (Nat.eqb_spec (end_idx lane) v) as [Hv|Hv];
      destruct (Nat.eqb_spec (start_idx lane) v) as [Hw|Hw];
      simpl; rewrite ?elem_of_cons; split; intros; destruct_or?;
      try (left; congruence); try (right; done); try done; try congruence;
      try (by left); auto.
Qed.

Lemma adjacent_connected g u v :
  v ∈ get_adjacent_vertices g u ↔ connected g u v = true.
Proof. apply adjacent_in_connected. Qed.

Lemma min_by_spec key best l :
  min_by key best l ∈ best :: l ∧
  ∀ v, v ∈ best :: l → dist_le (key (min_by key best l)) (key v).
Proof.
  revert best. induction l as [|c l IH]; intros best; simpl.
  - split; [by left|]. intros v ->%list_elem_of_singleton. apply dist_le_refl.
  - destruct (dist_lt (key c) (key best)) eqn:Hlt.
    + destruct (IH c) as [Hin Hmin]. split.
      * rewrite !elem_of_cons in *. tauto.
      * intros v Hv. rewrite elem_of_cons in Hv. destruct Hv as [->|Hv].
        -- eapply dist_le_trans; [apply Hmin; by left|by apply dist_lt_true].
        -- by apply Hmin.
    + destruct (IH best) as [Hin Hmin]. split.
      * rewrite !elem_of_cons in *. tauto.
      * intros v Hv. rewrite !elem_of_cons in Hv.
        destruct Hv as [->|[->|Hv]].
        -- apply Hmin. by left.
        -- eapply dist_le_trans; [apply Hmin; by left|by apply dist_lt_false].
        -- apply Hmin. by right.
Qed.


Lemma relax_spec cur nbrs unvisited :
  cur ∉ unvisited →
  ∀ distances previous distances' previous',
  (∀ w, w ∈ unvisited → w < length distances ∧ w < length previous) →
  relax cur nbrs unvisited distances previous = (distances', previous') →
  length distances' = length distances ∧
  length previous' = length previous ∧
  ∀ w,
    if relaxed_here cur nbrs unvisited distances w
    then dist_at distances' w = S <$> dist_at distances cur
         ∧ prev_at previous' w = Some cur
    else dist_at distances' w = dist_at distances w
         ∧ prev_at previous' w = prev_at previous w.
Proof.
  intros Hcur. unfold relaxed_here.
  induction nbrs as [|nb nbrs IH]; intros d p d' p' Hlen; simpl.
  - intros [= <- <-]. repeat split; done.
  - destruct (bool_decide_reflect (nb ∈ unvisited)) as [Hnb|Hnb].
    + destruct (dist_lt (S <$> dist_at d cur) (dist_at d nb)) eqn:Hlt.
      * intros Hr. apply IH in Hr as (Hd & Hp & Hw).
        2:{ intros w Hw. rewrite !length_insert. by apply Hlen. }
        rewrite !length_insert in Hd, Hp. split; [done|]. split; [done|].
        assert (cur ≠ nb) as Hne by (intros ->; done).
        intros w. specialize (Hw w).
        rewrite (dist_at_insert_ne _ nb cur) in Hw by done.
        destruct (decide (w = nb)) as [->|Hwn].
        -- rewrite dist_at_insert_eq in Hw by (by apply Hlen).
           assert (dist_lt (S <$> dist_at d cur) (S <$> dist_at d cur) = false)
             as Hirr.
           { destruct (dist_at d cur); simpl; [apply Nat.ltb_irrefl | done]. }
           rewrite Hirr, andb_false_r in Hw.
           rewrite Hlt, bool_decide_true, bool_decide_true by
             (done || by left). simpl.
           destruct Hw as [-> ->]. split; [done|].
           unfold prev_at. rewrite list_lookup_insert_eq; [done|by apply Hlen].
        -- rewrite dist_at_insert_ne in Hw by done.
           assert (bool_decide (w ∈ nb :: nbrs) = bool_decide (w ∈ nbrs)) as ->.
           { apply bool_decide_ext. rewrite elem_of_cons. tauto. }
           destruct (_ && _ && _); destruct Hw as [-> ->]; split; try done.
           unfold prev_at. by rewrite list_lookup_insert_ne.
      * intros Hr. apply IH in Hr as (Hd & Hp & Hw); [|done].
        split; [done|]. split; [done|]. intros w. specialize (Hw w).
        destruct (decide (w = nb)) as [->|Hwn].
        -- rewrite Hlt, !andb_false_r in *. done.
        -- assert (bool_decide (w ∈ nb :: nbrs) = bool_decide (w ∈ nbrs)) as ->.
           { apply bool_decide_ext. rewrite elem_of_cons. tauto. }
           done.
    + intros Hr. apply IH in Hr as (Hd & Hp & Hw); [|done].
      split; [done|]. split; [done|]. intros w. specialize (Hw w).
      destruct (decide (w = nb)) as [->|Hwn].
      * rewrite (bool_decide_false (nb ∈ unvisited)), andb_false_r in * by done.
        done.
      * assert (bool_decide (w ∈ nb :: nbrs) = bool_decide (w ∈ nbrs)) as ->.
        { apply bool_decide_ext. rewrite elem_of_cons. tauto. }
        done.
Qed.


Section Dijkstra.

Variable g : t.
Variable start_i : nat.
Hypothesis start_in_range : start_i < length (vertices g).

Local Abbreviation n := (length (vertices g)).
Local Abbreviation hops := (NavGraph.hops g start_i).
Local Abbreviation inv := (NavGraph.inv g start_i).
Local Abbreviation post := (NavGraph.post g start_i).

Lemma hops_lt v k : hops v k → v < n.
Proof. by destruct 1. Qed.

Lemma inv_init :
  inv (seq 0 n) (<[start_i := Some 0]> (replicate n None)) (replicate n None).
Proof.
  assert (∀ v, v ≠ start_i →
            dist_at (<[start_i := Some 0]> (replicate n None)) v = None) as Hd.
  { intros v Hv. rewrite dist_at_insert_ne by done. unfold dist_at.
    destruct (replicate n None !! v) eqn:E; [|done].
    by apply lookup_replicate in E as [-> _]. }
  assert (∀ v, prev_at (replicate n None) v = None) as Hp.
  { intros v. unfold prev_at.
    destruct (replicate n None !! v) eqn:E; [|done].
    by apply lookup_replicate in E as [-> _]. }
  assert (∀ v, v < n → v ∈ seq 0 n) as Hseq.
  { intros v Hv. apply elem_of_seq. lia. }
  split.
  - by rewrite length_insert, length_replicate.
  - by rewrite length_replicate.
  - intros v Hv%elem_of_seq. lia.
  - split; [|done]. apply dist_at_insert_eq. by rewrite length_replicate.
  - intros _. done.
  - intros v k Hk Hv. by rewrite Hd in Hk.
  - done.
  - intros u v Hu Hnu. by apply Hseq in Hu.
  - intros u k w Hu Hnu. by apply Hseq in Hu.
  - intros v k Hh%hops_lt Hnv. by apply Hseq in Hh.
  - intros v k Hk. destruct (decide (v = start_i)) as [->|Hv].
    + rewrite dist_at_insert_eq in Hk by (by rewrite length_replicate).
      injection Hk as <-. by rewrite length_seq.
    + by rewrite Hd in Hk.
Qed.

(** The vertex taken out of [unvisited] already carries its least hop
    count. *)
Lemma extract_opt c rest distances previous :
  inv (c :: rest) distances previous →
  let u := min_by (dist_at distances) c rest in
  ∀ v k, hops v k → v ∈ c :: rest →
    ∃ m, dist_at distances u = Some m ∧ m ≤ k.
Proof.
  intros Hinv u.
  destruct (min_by_spec (dist_at distances) c rest) as [Hu Hmin].
  fold u in Hu, Hmin.
  induction 1 as [|u' v k Hh IH Hc Hv]; intros Hin.
  - specialize (Hmin _ Hin). destruct (inv_start _ _ _ _ _ Hinv) as [Hs _].
    rewrite Hs in Hmin. apply dist_le_Some in Hmin. done.
  - destruct (decide (u' ∈ c :: rest)) as [Hu'|Hu'].
    + destruct (IH Hu') as (m & Hm & ?). exists m. split; [done|lia].
    + destruct (inv_opt _ _ _ _ _ Hinv _ _ Hh Hu') as (m' & Hm' & ?).
      destruct (inv_relaxed _ _ _ _ _ Hinv u' m' v) as (j & Hj & ?);
        [by eapply hops_lt|done..|].
      specialize (Hmin _ Hin). rewrite Hj in Hmin.
      apply dist_le_Some in Hmin as (m & Hm & ?).
      exists m. split; [done|lia].
Qed.


(** One iteration that does not reach [end_idx] keeps the invariant. *)
Lemma inv_step c rest distances previous distances' previous' :
  let u := min_by (dist_at distances) c rest in
  let unvisited' := filter (λ v, v ≠ u) (c :: rest) in
  inv (c :: rest) distances previous →
  relax u (get_adjacent_vertices g u) unvisited' distances previous
    = (distances', previous') →
  inv unvisited' distances' previous'.
Proof.
  intros u unv' Hinv Hrelax.
  destruct (min_by_spec (dist_at distances) c rest) as [Hu Hmin].
  fold u in Hu, Hmin.
  assert (∀ v, v ∈ unv' ↔ v ≠ u ∧ v ∈ c :: rest) as Hunv'.
  { intros v. unfold unv'. by rewrite list_elem_of_filter. }
  assert (u ∉ unv') as Hnu by (rewrite Hunv'; tauto).
  assert (u < n) as Hun by (by eapply inv_unv).
  apply relax_spec in Hrelax as (Hld & Hlp & Hw); [|done|].
  2:{ intros w [_ Hw']%Hunv'. rewrite (inv_len_d _ _ _ _ _ Hinv).
      rewrite (inv_len_p _ _ _ _ _ Hinv). split; by eapply inv_unv. }
  (* what happened to each vertex *)
  assert (∀ w,
    (∃ k, dist_at distances u = Some k ∧ w ∈ unv' ∧ connected g u w = true
          ∧ dist_lt (Some (S k)) (dist_at distances w) = true
          ∧ dist_at distances' w = Some (S k)
          ∧ prev_at previous' w = Some u)
    ∨ (dist_at distances' w = dist_at distances w
       ∧ prev_at previous' w = prev_at previous w
       ∧ (w ∈ unv' → connected g u w = true →
          dist_le (dist_at distances w) (S <$> dist_at distances u))))
    as Hcases.
  { intros w. specialize (Hw w). unfold relaxed_here in Hw.
    destruct (bool_decide_reflect (w ∈ get_adjacent_vertices g u)) as [Ha|Ha];
      destruct (bool_decide_reflect (w ∈ unv')) as [Hb|Hb]; simpl in Hw;
      try (right; destruct Hw as [-> ->]; repeat split; try done;
           intros; by rewrite <- ?adjacent_connected in * ).
    destruct (dist_lt _ _) eqn:Hlt.
    - left. destruct (dist_at distances u) as [k|] eqn:Hk; [|done].
      exists k. destruct Hw as [-> ->]. apply adjacent_connected in Ha. done.
    - right. destruct Hw as [-> ->]. repeat split; try done.
      intros _ _. by apply dist_lt_false. }
  assert (∀ w, w ∉ unv' → dist_at distances' w = dist_at distances w
                          ∧ prev_at previous' w = prev_at previous w) as Hvis.
  { intros w Hnw. destruct (Hcases w) as [(k & _ & ? & _)|(? & ? & _)]; done. }
  assert (dist_at distances' start_i = Some 0
          ∧ prev_at previous' start_i = None) as Hstart.
  { destruct (inv_start _ _ _ _ _ Hinv) as [Hs Hp].
    destruct (Hcases start_i) as [(k & _ & _ & _ & Hlt & _)|(-> & -> & _)];
      [|done]. by rewrite Hs in Hlt. }
  assert (start_i ∈ c :: rest → u = start_i) as Hfirst.
  { intros Hin. destruct (decide (u = start_i)) as [|Hne]; [done|].
    specialize (Hmin _ Hin). destruct (inv_start _ _ _ _ _ Hinv) as [Hs _].
    rewrite (inv_first _ _ _ _ _ Hinv Hin u Hne), Hs in Hmin. done. }
  split.
  - by rewrite Hld, (inv_len_d _ _ _ _ _ Hinv).
  - by rewrite Hlp, (inv_len_p _ _ _ _ _ Hinv).
  - intros v [_ Hv]%Hunv'. by eapply inv_unv.
  - done.
  - intros [Hne Hin]%Hunv'. by apply Hfirst in Hin.
  - intros v k Hk Hv.
    destruct (Hcases v) as [(ku & Hku & _ & Hc & _ & Hd' & Hp')|(Hd' & Hp' & _)].
    + exists u, ku. rewrite Hd' in Hk. injection Hk as <-.
      destruct (Hvis u Hnu) as [-> _]. done.
    + rewrite Hd' in Hk.
      destruct (inv_chain _ _ _ _ _ Hinv v k Hk Hv)
        as (u0 & k0 & Hp0 & Hu0 & Hnu0 & Hd0 & -> & Hc0).
      exists u0, k0. assert (u0 ∉ unv') as Hnu0' by (rewrite Hunv'; tauto).
      destruct (Hvis u0 Hnu0') as [-> _]. rewrite Hp'. done.
  - intros v Hv.
    destruct (Hcases v) as [(ku & _ & _ & _ & _ & Hd' & _)|(Hd' & -> & _)].
    + by rewrite Hd' in Hv.
    + rewrite Hd' in Hv. by eapply inv_none.
  - intros a b Ha Hna Hb. destruct (Hvis a Hna) as [-> _].
    assert (b ∈ c :: rest) as Hb0 by (apply Hunv' in Hb; tauto).
    assert (dist_le (dist_at distances a) (dist_at distances u)) as Hau.
    { destruct (decide (a = u)) as [->|Hne]; [apply dist_le_refl|].
      eapply inv_mono; [done..| |done]. rewrite Hunv' in Hna. tauto. }
    destruct (Hcases b) as [(ku & Hku & _ & _ & _ & -> & _)|(-> & _)].
    + rewrite Hku in Hau. eapply dist_le_trans; [done|]. simpl. lia.
    + eapply dist_le_trans; [done|]. by apply Hmin.
  - intros a k w Ha Hna Hk Hc Hwn. destruct (Hvis a Hna) as [Ea _].
    rewrite Ea in Hk.
    destruct (decide (a = u)) as [->|Hne].
    + destruct (Hcases w) as [(ku & Hku & _ & _ & _ & -> & _)|(-> & _ & Hle)].
      * rewrite Hku in Hk. injection Hk as ->. eauto.
      * destruct (decide (w ∈ unv')) as [Hwu|Hwu].
        -- specialize (Hle Hwu Hc). rewrite Hk in Hle. simpl in Hle.
           by apply dist_le_Some in Hle.
        -- assert (dist_le (dist_at distances w) (dist_at distances u)) as Hle'.
           { destruct (decide (w = u)) as [->|Hwne]; [apply dist_le_refl|].
             eapply inv_mono; [done..| |done]. rewrite Hunv' in Hwu. tauto. }
           rewrite Hk in Hle'. apply dist_le_Some in Hle' as (j & ? & ?).
           exists j. split; [done|lia].
    + assert (a ∉ c :: rest) as Hna0 by (rewrite Hunv' in Hna; tauto).
      destruct (inv_relaxed _ _ _ _ _ Hinv a k w Ha Hna0 Hk Hc Hwn)
        as (j & Hj & ?).
      destruct (Hcases w) as [(ku & Hku & _ & _ & Hlt & -> & _)|(-> & _)].
      * rewrite Hj in Hlt. simpl in Hlt. apply Nat.ltb_lt in Hlt.
        exists (S ku). split; [done|lia].
      * eauto.
  - intros v k Hh Hnv. destruct (Hvis v Hnv) as [-> _].
    destruct (decide (v = u)) as [->|Hne].
    + exact (extract_opt c rest distances previous Hinv u k Hh Hu).
    + eapply inv_opt; [done..|]. rewrite Hunv' in Hnv. tauto.
  - intros v k Hk.
    assert (length unv' < length (c :: rest)) as Hlen.
    { unfold unv'. apply (length_filter_lt _ _ u); [done|tauto]. }
    destruct (Hcases v) as [(ku & Hku & _ & _ & _ & Hd' & _)|(Hd' & _)];
      rewrite Hd' in Hk.
    + injection Hk as <-. pose proof (inv_bound _ _ _ _ _ Hinv _ _ Hku). lia.
    + pose proof (inv_bound _ _ _ _ _ Hinv _ _ Hk). lia.
Qed.


Lemma inv_post end_i unvisited distances previous :
  inv unvisited distances previous →
  (∀ k, hops end_i k → ∃ m, dist_at distances end_i = Some m ∧ m ≤ k) →
  post end_i distances previous.
Proof.
  intros Hinv Hopt. split; try done.
  - by eapply inv_len_d.
  - by eapply inv_start.
  - intros v k Hk Hv.
    destruct (inv_chain _ _ _ _ _ Hinv v k Hk Hv)
      as (u & k' & ? & _ & _ & ? & ? & ?). eauto 10.
  - by eapply inv_none.
  - intros v k Hk. pose proof (inv_bound _ _ _ _ _ Hinv _ _ Hk). lia.
Qed.

Lemma dijkstra_loop_post end_i fuel :
  ∀ unvisited distances previous,
  inv unvisited distances previous →
  length unvisited ≤ fuel →
  post end_i
    (dijkstra_loop fuel g end_i unvisited distances previous).1
    (dijkstra_loop fuel g end_i unvisited distances previous).2.
Proof.
  induction fuel as [|fuel IH]; intros unv d p Hinv Hfuel.
  - destruct unv; [|simpl in Hfuel; lia]. simpl.
    eapply inv_post; [done|]. intros k Hk.
    eapply inv_opt; [done..|apply not_elem_of_nil].
  - destruct unv as [|c rest]; simpl.
    + eapply inv_post; [done|]. intros k Hk.
      eapply inv_opt; [done..|apply not_elem_of_nil].
    + destruct (min_by_spec (dist_at d) c rest) as [Hu _].
      destruct (Nat.eqb_spec (min_by (dist_at d) c rest) end_i) as [He|He].
      * simpl. eapply inv_post; [done|]. intros k Hk. rewrite <- He.
        eapply extract_opt; [done..|]. by rewrite <- He.
      * destruct (relax _ _ _ d p) as [d' p'] eqn:Hr.
        apply IH.
        -- by eapply inv_step.
        -- simpl in Hfuel.
           pose proof (length_filter_lt
                         (λ v, v ≠ min_by (dist_at d) c rest) (c :: rest)
                         _ Hu) as Hlt.
           simpl in Hlt. apply PeanoNat.lt_n_Sm_le.
           eapply Nat.lt_le_trans; [apply Hlt; tauto|lia].
Qed.

Lemma lane_path_cons_cons a b p :
  lane_path g (a :: b :: p)
  ↔ a < n ∧ connected g a b = true ∧ lane_path g (b :: p).
Proof. done. Qed.

Lemma lane_path_snoc p v :
  lane_path g (p ++ [v]) ↔
  v < n ∧ match last p with
          | None => True
          | Some u => connected g u v = true ∧ lane_path g p
          end.
Proof.
  induction p as [|a p IH]; [simpl; tauto|].
  destruct p as [|b p]; [simpl; tauto|].
  rewrite last_cons_cons, <- !app_comm_cons, lane_path_cons_cons.
  rewrite !app_comm_cons, IH.
  destruct (last (b :: p)) eqn:E; [|by apply last_None in E].
  rewrite lane_path_cons_cons. tauto.
Qed.

Lemma path_from_to_snoc a u v p :
  path_from_to g a u p → connected g u v = true → v < n →
  path_from_to g a v (p ++ [v]).
Proof.
  intros (Hh & Hl & Hp) Hc Hv. split; [|split].
  - destruct p; [done|]. done.
  - apply last_snoc.
  - apply lane_path_snoc. rewrite Hl. done.
Qed.

(** A lane-path from [start_i] is a chain of hops. *)
Lemma path_hops p : ∀ v,
  path_from_to g start_i v p → hops v (length p - 1).
Proof.
  induction p as [|w p IH] using rev_ind; intros v (Hh & Hl & Hp).
  - done.
  - rewrite last_snoc in Hl. injection Hl as ->.
    apply lane_path_snoc in Hp as [Hv Hp].
    rewrite length_app. simpl.
    destruct (last p) as [u|] eqn:Hlast.
    + destruct Hp as [Hc Hp].
      assert (path_from_to g start_i u p) as Hpu.
      { split; [|done]. destruct p; [done|]. done. }
      apply IH in Hpu.
      destruct p as [|? p']; [done|]. simpl in *.
      replace (length p' + 1 - 0) with (S (length p' - 0)) by lia.
      by eapply hops_S.
    + apply last_None in Hlast as ->. simpl in *. injection Hh as ->.
      constructor.
Qed.

(** Following [previous] from a vertex of finite distance stops at
    [start_i] and has collected a lane-path. *)
Lemma walk_back_spec end_i distances previous :
  post end_i distances previous →
  ∀ k v fuel acc, dist_at distances v = Some k → k < fuel →
    ∃ q, walk_back fuel previous v acc = Some (acc ++ q)
         ∧ length q = k
         ∧ path_from_to g start_i v (reverse (q ++ [start_i])).
Proof.
  intros Hpost. destruct (post_start _ _ _ _ _ Hpost) as [Hs Hps].
  induction k as [|k IH]; intros v fuel acc Hk Hfuel;
    (destruct fuel as [|fuel]; [lia|]); simpl.
  - destruct (decide (v = start_i)) as [->|Hv].
    + rewrite Hps. exists []. rewrite app_nil_r. repeat split; done.
    + destruct (post_chain _ _ _ _ _ Hpost v 0 Hk Hv) as (? & ? & ? & ? & ? & ?).
      done.
  - assert (v ≠ start_i) as Hv by (intros ->; congruence).
    destruct (post_chain _ _ _ _ _ Hpost v (S k) Hk Hv)
      as (u & k' & Hpu & Hdu & [= <-] & Hc).
    rewrite Hpu.
    destruct (IH u fuel (acc ++ [v]) Hdu) as (q & Hw & Hlen & Hpath); [lia|].
    exists (v :: q). rewrite Hw, <- app_assoc. split; [done|].
    split; [simpl; lia|].
    change ((v :: q) ++ [start_i]) with (v :: (q ++ [start_i])).
    rewrite reverse_cons. eapply path_from_to_snoc; [done..|].
    apply dist_at_Some_lt in Hk. by rewrite (post_len_d _ _ _ _ _ Hpost) in Hk.
Qed.

End Dijkstra.

(** [find_shortest_path] on in-range vertices: either there is no
    lane-path and the result is empty, or the result is a lane-path of
    least length. *)
Lemma find_shortest_path_result (g : t) (start_i end_i : nat) :
  start_i < length (vertices g) → end_i < length (vertices g) →
  (find_shortest_path g start_i end_i = Returned []
   ∧ ∀ p, ¬ path_from_to g start_i end_i p)
  ∨ (∃ p, find_shortest_path g start_i end_i = Returned p
          ∧ path_from_to g start_i end_i p
          ∧ ∀ q, path_from_to g start_i end_i q → length p ≤ length q).
Proof.
  intros Hs He. unfold find_shortest_path.
  destruct (Nat.eqb_spec start_i end_i) as [<-|Hne].
  { right. exists [start_i]. split; [done|]. split; [by repeat split|].
    intros [|? q] (Hh & _); [done|simpl; lia]. }
  apply Nat.ltb_lt in Hs as Hs'. apply Nat.ltb_lt in He as He'.
  rewrite Hs', He'. cbn [negb].
  pose proof (dijkstra_loop_post g start_i Hs end_i (length (vertices g))
                _ _ _ (inv_init g start_i Hs)) as Hpost.
  rewrite length_seq in Hpost. specialize (Hpost (le_n _)).
  destruct (dijkstra_loop _ _ _ _ _ _) as [d p]. simpl in Hpost.
  destruct (dist_at d end_i) as [k|] eqn:Hk.
  - right.
    destruct (walk_back_spec g start_i Hs end_i d p Hpost k end_i
                (S (length (vertices g))) [] Hk) as (q & -> & Hlen & Hpath).
    { pose proof (post_bound _ _ _ _ _ Hpost _ _ Hk). lia. }
    simpl. eexists. split; [done|]. split; [done|].
    intros q' Hq'. rewrite length_reverse, length_app, Hlen. simpl.
    apply path_hops in Hq' as Hh; [|done].
    destruct (post_opt _ _ _ _ _ Hpost _ Hh) as (m & Hm & ?).
    rewrite Hk in Hm. injection Hm as <-.
    destruct q' as [|? q']; [by destruct Hq'|]. simpl in *. lia.
  - left. cbn [walk_back]. rewrite (post_none _ _ _ _ _ Hpost _ Hk).
    simpl. split; [done|].
    intros q' Hh. apply path_hops in Hh; [|done].
    destruct (post_opt _ _ _ _ _ Hpost _ Hh) as (m & Hm & ?). congruence.
Qed.

(** The path reconstruction always terminates. *)
Lemma find_shortest_path_terminates (g : t) (start_i end_i : nat) :
  find_shortest_path g start_i end_i ≠ Diverged.
Proof.
  destruct (Nat.lt_ge_cases start_i (length (vertices g))) as [Hs|Hs];
    destruct (Nat.lt_ge_cases end_i (length (vertices g))) as [He|He].
  - destruct (find_shortest_path_result g start_i end_i Hs He)
      as [[-> _]|(p & -> & _)]; done.
  - unfold find_shortest_path. destruct (start_i =? end_i); [done|].
    destruct (negb (start_i <? _)); [done|].
    destruct (dijkstra_loop _ _ _ _ _ _) as [d p].
    apply Nat.ltb_ge in He. by rewrite He.
  - unfold find_shortest_path. destruct (start_i =? end_i); [done|].
    apply Nat.ltb_ge in Hs. by rewrite Hs.
  - unfold find_shortest_path. destruct (start_i =? end_i); [done|].
    apply Nat.ltb_ge in Hs. by rewrite Hs.
Qed.

(** C4: on every graph and every in-range pair, [find_shortest_path]
    returns [[start]] when both ends coincide, the empty list when no
    lane-path joins them, and otherwise a lane-path from [start] to [end]
    that no other such lane-path beats in length. *)
Theorem find_shortest_path_correct (g : t) (start_i end_i : nat) :
  start_i < length (vertices g) → end_i < length (vertices g) →
  (start_i = end_i →
   find_shortest_path g start_i end_i = Returned [start_i])
  ∧ ((∀ p, ¬ path_from_to g start_i end_i p) →
     find_shortest_path g start_i end_i = Returned [])
  ∧ ((∃ q, path_from_to g start_i end_i q) →
     ∃ p, find_shortest_path g start_i end_i = Returned p
          ∧ path_from_to g start_i end_i p
          ∧ ∀ q, path_from_to g start_i end_i q → length p ≤ length q).
Proof.
  intros Hs He. split; [|split].
  - intros <-. unfold find_shortest_path. by rewrite Nat.eqb_refl.
  - intros Hnone.
    destruct (find_shortest_path_result g start_i end_i Hs He)
      as [[? _]|(p & _ & Hp & _)]; [done|]. by apply Hnone in Hp.
  - intros [q Hq].
    destruct (find_shortest_path_result g start_i end_i Hs He)
      as [[_ Hnone]|?]; [|done]. by apply Hnone in Hq.
Qed.


(** C4 at the line 0 - 1 - 2. *)
Lemma find_shortest_path_correct_witness :
  ∃ p, find_shortest_path line3 0 2 = Returned p
       ∧ path_from_to line3 0 2 p
       ∧ ∀ q, path_from_to line3 0 2 q → length p ≤ length q.
Proof.
  refine (proj2 (proj2 (find_shortest_path_correct line3 0 2 _ _)) _).
  - simpl. lia.
  - simpl. lia.
  - exists [0; 1; 2]. repeat split; simpl; lia.
Defined.

End NavGraphFacts.

(** * Properties of the traffic manager *)

Module TrafficManagerFacts.
Import TrafficManager.

Lemma intermediate_cons a b c more :
  intermediate_vertices (a :: b :: c :: more)
  = b :: intermediate_vertices (b :: c :: more).
Proof. done. Qed.

Lemma path_free_spec robot tm path :
  path_free robot tm path = true ↔
  (∀ k holder, k ∈ lane_keys path →
     reservations tm !! k = Some holder → holder = robot)
  ∧ (∀ v q, v ∈ intermediate_vertices path →
       intersection_queues tm !! v = Some q → q = []).
Proof.
  induction path as [|a path IH].
  { simpl. split; [|done]. intros _. split; intros ? ? []%elem_of_nil. }
  destruct path as [|b more].
  { simpl. split; [|done]. intros _. split; intros ? ? []%elem_of_nil. }
  change (path_free robot tm (a :: b :: more))
    with (step_free robot tm a b (bool_decide (more = []))
          && path_free robot tm (b :: more)).
  rewrite andb_true_iff, IH. clear IH.
  change (lane_keys (a :: b :: more))
    with (lane_key a b :: lane_keys (b :: more)).
  unfold step_free. rewrite andb_true_iff, orb_true_iff.
  split.
  - intros ((Hres & Hq) & Hks & Hvs). split.
    + intros k holder [->|Hk]%elem_of_cons Hh; [|by eapply Hks].
      rewrite Hh in Hres. by apply bool_decide_eq_true in Hres.
    + intros v q Hv Hvq. destruct more as [|c more]; [by apply elem_of_nil in Hv|].
      rewrite intermediate_cons in Hv.
      apply elem_of_cons in Hv as [->|Hv]; [|by eapply Hvs].
      destruct Hq as [Hq|Hq]; [done|]. rewrite Hvq in Hq. by destruct q.
  - intros [Hks Hvs]. split; [split|split].
    + destruct (reservations tm !! lane_key a b) as [holder|] eqn:E; [|done].
      apply bool_decide_eq_true. eapply Hks; [by left|done].
    + destruct more as [|c more]; [by left|]. right.
      destruct (intersection_queues tm !! b) as [[|? q]|] eqn:E; try done.
      specialize (Hvs b _ ltac:(rewrite intermediate_cons; by left) E). done.
    + intros k holder Hk. apply Hks. by right.
    + intros v q Hv. apply Hvs. destruct more as [|c more]; [done|].
      rewrite intermediate_cons. by right.
Qed.

Lemma reserve_step_keeps robot tm a b last_step :
  let tm' := reserve_step robot tm a b last_step in
  reserved robot tm' (lane_key a b)
  ∧ (last_step = false → queued robot tm' b)
  ∧ (∀ k, reserved robot tm k → reserved robot tm' k)
  ∧ (∀ v, queued robot tm v → queued robot tm' v).
Proof.
  unfold reserve_step, reserved, queued.
  destruct last_step; simpl.
  - split; [apply lookup_insert_eq|]. split; [done|]. split; [|done].
    intros k Hk. rewrite lookup_insert. by case_decide; simplify_eq.
  - split; [apply lookup_insert_eq|]. split; [|split].
    + intros _. rewrite lookup_insert_eq. eexists. split; [done|].
      apply elem_of_app. right. by left.
    + intros k Hk. rewrite lookup_insert. by case_decide; simplify_eq.
    + intros v (q & Hq & Hin). rewrite lookup_insert. case_decide; [|eauto].
      subst. rewrite Hq. simpl. eexists. split; [done|].
      apply elem_of_app. by left.
Qed.

Lemma reserve_path_spec robot path : ∀ tm,
  let tm' := reserve_path robot tm path in
  (∀ k, k ∈ lane_keys path → reserved robot tm' k)
  ∧ (∀ v, v ∈ intermediate_vertices path → queued robot tm' v)
  ∧ (∀ k, reserved robot tm k → reserved robot tm' k)
  ∧ (∀ v, queued robot tm v → queued robot tm' v).
Proof.
  induction path as [|a path IH]; intros tm.
  { simpl. repeat split; try done; intros ? []%elem_of_nil. }
  destruct path as [|b more].
  { simpl. repeat split; try done; intros ? []%elem_of_nil. }
  change (reserve_path robot tm (a :: b :: more))
    with (reserve_path robot
            (reserve_step robot tm a b (bool_decide (more = [])))
            (b :: more)).
  change (lane_keys (a :: b :: more))
    with (lane_key a b :: lane_keys (b :: more)).
  destruct (reserve_step_keeps robot tm a b (bool_decide (more = [])))
    as (Hk & Hq & Hks & Hqs).
  destruct (IH (reserve_step robot tm a b (bool_decide (more = []))))
    as (IHk & IHv & IHks & IHqs).
  cbv zeta. split; [|split; [|split]].
  - intros k [->|Hin]%elem_of_cons; [by apply IHks|by apply IHk].
  - intros v Hv. destruct more as [|c more]; [by apply elem_of_nil in Hv|].
    rewrite intermediate_cons in Hv.
    apply elem_of_cons in Hv as [->|Hv]; [|by apply IHv].
    apply IHqs, Hq. done.
  - intros k Hr. by apply IHks, Hks.
  - intros v Hr. by apply IHqs, Hqs.
Qed.

(** C9: [request_path] is all-or-nothing.  A lane key of the path held by
    another robot, or a waiting queue at a vertex strictly inside the
    path, makes it return [False] with both tables untouched; whenever it
    returns [False] the tables are untouched; and when it returns [True]
    every lane key of the path is reserved for the robot and the robot is
    queued at every vertex strictly inside the path. *)
Theorem request_path_atomic (robot : nat) (path : list nat) (tm : t) :
  ((∃ k holder, k ∈ lane_keys path
       ∧ reservations tm !! k = Some holder ∧ holder ≠ robot)
   ∨ (∃ v q, v ∈ intermediate_vertices path
        ∧ intersection_queues tm !! v = Some q ∧ q ≠ []) →
   request_path robot path tm = (false, tm))
  ∧ ((request_path robot path tm).1 = false →
     (request_path robot path tm).2 = tm)
  ∧ ((request_path robot path tm).1 = true →
     (∀ k, k ∈ lane_keys path →
        reserved robot (request_path robot path tm).2 k)
     ∧ (∀ v, v ∈ intermediate_vertices path →
          queued robot (request_path robot path tm).2 v)).
Proof.
  unfold request_path. destruct path as [|a path]; [by intuition|].
  destruct (path_free robot tm (a :: path)) eqn:Hfree; simpl.
  - apply path_free_spec in Hfree as [Hks Hvs]. split; [|split; [done|]].
    + intros [(k & holder & Hk & Hh & Hne)|(v & q & Hv & Hq & Hne)].
      * by specialize (Hks _ _ Hk Hh).
      * by specialize (Hvs _ _ Hv Hq).
    + intros _.
      destruct (reserve_path_spec robot (a :: path) tm) as (? & ? & _).
      done.
  - done.
Qed.


(** C9 on a path whose first lane another robot holds. *)
Lemma request_path_atomic_witness :
  request_path 3 [0; 1; 2] (mk {[ (0, 1) := 7 ]} ∅)
  = (false, mk {[ (0, 1) := 7 ]} ∅).
Proof.
  apply (request_path_atomic 3 [0; 1; 2] (mk {[ (0, 1) := 7 ]} ∅)).
  left. exists (0, 1), 7. split; [|split].
  - cbv. constructor.
  - reflexivity.
  - lia.
Defined.

End TrafficManagerFacts.

(** * Properties of a single robot *)

Module RobotFacts.
Import Robot.

Lemma Qltb_lt a b : Qltb a b = true ↔ (a < b)%Q.
Proof.
  unfold Qltb. rewrite Qlt_alt. destruct (a ?= b)%Q; split; congruence.
Qed.

Lemma py_max_bounds b :
  (0 <= b <= 100)%Q →
  (0 <= py_max 0 (b - 0.1) <= 100)%Q ∧ (py_max 0 (b - 0.1) <= b)%Q.
Proof.
  intros [H0 H1]. unfold py_max.
  destruct (Qltb 0 (b - 0.1)) eqn:E.
  - apply Qltb_lt in E. lra.
  - lra.
Qed.

Lemma py_min_bounds b :
  (0 <= b <= 100)%Q →
  (0 <= py_min 100 (b + 1) <= 100)%Q ∧ (b <= py_min 100 (b + 1))%Q.
Proof.
  intros [H0 H1]. unfold py_min.
  destruct (Qltb (b + 1) 100) eqn:E.
  - apply Qltb_lt in E. lra.
  - lra.
Qed.

Lemma py_min_le_100 b : (py_min 100 b <= 100)%Q.
Proof.
  unfold py_min. destruct (Qltb b 100) eqn:E; [|lra].
  apply Qltb_lt in E. lra.
Qed.


(** C10: on a charging robot [update_charging] sets the battery to
    [min(100, battery + 1)], moves the status to [IDLE] exactly when the
    new battery is at least 95 and never to [MOVING], appends at most the
    "finished charging" line, and leaves position, vertex, destination,
    path, progress and lane as they were; the first loop of the tick
    leaves an [IDLE] robot's status and task fields as they are, so the
    interrupted task is not taken up again. *)
Theorem update_charging_frame (r : t) :
  status r = CHARGING →
  battery (update_charging r) = py_min 100 (battery r + 1)
  ∧ (battery (update_charging r) <= 100)%Q
  ∧ status (update_charging r)
    = (if Qle_bool 95 (battery (update_charging r)) then IDLE else CHARGING)
  ∧ status (update_charging r) ≠ MOVING
  ∧ same_task r (update_charging r)
  ∧ log (update_charging r)
    = (if Qle_bool 95 (battery (update_charging r))
       then log r ++ [LogFinishedCharging (id r)] else log r)
  ∧ ∀ g i occ,
      status (update_charging r) = IDLE →
      let r' := (FleetManager.update_robot g i (update_charging r) occ).1.2 in
      status r' = IDLE
      ∧ path r' = path r
      ∧ destination_vertex_idx r' = destination_vertex_idx r
      ∧ current_lane r' = current_lane r
      ∧ progress r' = progress r.
Proof.
  intros Hs. unfold update_charging. rewrite decide_True by done. simpl.
  destruct (Qle_bool 95 (py_min 100 (battery r + 1))) eqn:E; simpl;
    rewrite ?E; (split; [done|]); (split; [apply py_min_le_100|]);
    (split; [done|]); (split; [by rewrite ?Hs|]); (split; [done|]);
    (split; [done|]); intros g i occ Hidle; [|congruence].
  unfold FleetManager.update_robot, FleetManager.dispatch,
    FleetManager.register. simpl.
  destruct (current_vertex_idx r) as [cur|]; [|done].
  destruct (length (NavGraph.vertices g) <=? cur); [done|]. simpl.
  destruct (occ !! cur); done.
Qed.


(** The two refusals that come before any assignment leave the robot as
    it was. *)
Lemma assign_task_refused_early destination_idx g r :
  status r = CHARGING ∨ current_vertex_idx r = None →
  assign_task destination_idx g r = (Returned false, r).
Proof.
  unfold assign_task. intros [Hs|Hc].
  - by rewrite decide_True.
  - case_decide; [done|]. by rewrite Hc.
Qed.

(** C3, evaluated: on [island] no lane reaches the charger 2.  The
    refused [assign_task 2] of a parked robot has stored the destination 2,
    and the low-battery reroute of a robot en route to 3 has replaced its
    destination by 2 and emptied its remaining path [[1; 3]]. *)
Theorem assign_task_no_path_overwrites :
  (assign_task 2 island parked).1 = Returned false
  ∧ destination_vertex_idx parked = None
  ∧ destination_vertex_idx (assign_task 2 island parked).2 = Some 2
  ∧ (update_position island en_route).1 = Returned ()
  ∧ destination_vertex_idx en_route = Some 3
  ∧ path en_route = [1; 3]
  ∧ destination_vertex_idx (update_position island en_route).2 = Some 2
  ∧ path (update_position island en_route).2 = [].
Proof. vm_compute. repeat split. Qed.

(** C10 on a robot charging at 94. *)
Lemma update_charging_frame_witness :
  battery (update_charging charging) = py_min 100 (battery charging + 1)
  ∧ status (update_charging charging) = IDLE
  ∧ path (update_charging charging) = [1].
Proof.
  pose proof (update_charging_frame charging eq_refl)
    as (Hb & _ & Hs & _ & (_ & _ & _ & _ & _ & Hp & _) & _).
  split; [exact Hb|]. split; [exact Hs|exact Hp].
Defined.

End RobotFacts.

(** * Properties of the fleet manager *)

Module FleetFacts.
Import FleetManager.

(** The robot at one position before and after the first loop. *)
Lemma update_positions_length g : ∀ todo i occ,
  length (update_positions g i todo occ).1.2 = length todo.
Proof.
  induction todo as [|r todo IH]; intros i occ; [done|]. simpl.
  destruct (update_robot g i r occ) as [[o r'] occ'].
  destruct o; try done.
  specialize (IH (S i) occ').
  destruct (update_positions g (S i) todo occ') as [[o' rest'] occ''].
  simpl in *. by rewrite IH.
Qed.

Lemma update_positions_lookup g : ∀ todo i occ j r,
  todo !! j = Some r →
  ∃ r', (update_positions g i todo occ).1.2 !! j = Some r'
        ∧ (r' = r ∨ ∃ occ_j, r' = (update_robot g (i + j) r occ_j).1.2).
Proof.
  induction todo as [|r0 todo IH]; intros i occ j r Hj; [done|]. simpl.
  destruct (update_robot g i r0 occ) as [[o r0'] occ'] eqn:E.
  assert (r0' = (update_robot g (i + 0) r0 occ).1.2) as Hr0'
    by (by rewrite Nat.add_0_r, E).
  destruct j as [|j].
  - injection Hj as ->.
    destruct o; [|simpl; eauto..].
    destruct (update_positions g (S i) todo occ') as [[o' rest'] occ''].
    simpl. eauto.
  - simpl in Hj. destruct o; [|simpl; eauto..].
    destruct (IH (S i) occ' j r Hj) as (r' & Hl & Hr').
    destruct (update_positions g (S i) todo occ') as [[o' rest'] occ''].
    simpl in *. exists r'. split; [done|].
    by replace (i + S j) with (S i + j) by lia.
Qed.

Lemma update_positions_returned g : ∀ todo i occ rs' occ' j r,
  update_positions g i todo occ = (Returned (), rs', occ') →
  todo !! j = Some r →
  ∃ r' occ_j occ_j',
    rs' !! j = Some r'
    ∧ update_robot g (i + j) r occ_j = (Returned (), r', occ_j').
Proof.
  induction todo as [|r0 todo IH]; intros i occ rs' occ' j r Hu Hj; [done|].
  simpl in Hu.
  destruct (update_robot g i r0 occ) as [[o r0'] occ0] eqn:E.
  destruct o as [[]| |]; [|done..].
  destruct (update_positions g (S i) todo occ0) as [[o' rest'] occ''] eqn:E'.
  injection Hu as -> <- <-.
  destruct j as [|j].
  - injection Hj as ->. exists r0', occ, occ0. by rewrite Nat.add_0_r.
  - simpl in Hj. destruct (IH _ _ _ _ _ _ E' Hj) as (r' & oj & oj' & ? & ?).
    exists r', oj, oj'. by replace (i + S j) with (S i + j) by lia.
Qed.

Lemma reserve_lanes_lookup : ∀ todo i lanes j r,
  todo !! j = Some r →
  ∃ lanes_j,
    (reserve_lanes i todo lanes).1 !! j
    = Some (reserve_lane (i + j) r lanes_j).1.
Proof.
  induction todo as [|r0 todo IH]; intros i lanes j r Hj; [done|]. simpl.
  destruct (reserve_lane i r0 lanes) as [r0' lanes0] eqn:E.
  specialize (IH (S i) lanes0).
  destruct (reserve_lanes (S i) todo lanes0) as [rest' lanes'].
  destruct j as [|j]; simpl in *.
  - injection Hj as ->. exists lanes. by rewrite Nat.add_0_r, E.
  - destruct (IH j r Hj) as [lj Hlj]. exists lj.
    by replace (i + S j) with (S i + j) by lia.
Qed.

(** The robot at one position across a whole tick that returns. *)
Lemma update_returned_lookup g fm fm' j r :
  update g fm = (Returned (), fm') →
  robots fm !! j = Some r →
  ∃ r1 occ_j occ_j' lanes_j,
    update_robot g j r occ_j = (Returned (), r1, occ_j')
    ∧ robots fm' !! j = Some (Robot.set_log [] (reserve_lane j r1 lanes_j).1).
Proof.
  unfold update. intros Hu Hj.
  destruct (update_positions g 0 (robots fm) _) as [[o rs1] occ1] eqn:E1.
  destruct o as [[]| |]; [|done..].
  destruct (update_positions_returned _ _ _ _ _ _ _ _ E1 Hj)
    as (r1 & oj & oj' & Hl1 & Hr1).
  destruct (reserve_lanes_lookup rs1 0 ∅ j r1 Hl1) as [lj Hlj].
  destruct (reserve_lanes 0 rs1 ∅) as [rs2 lanes2].
  injection Hu as <-. simpl in *.
  exists r1, oj, oj', lj. split; [done|].
  by rewrite list_lookup_fmap, Hlj.
Qed.


(** A robot without a vertex makes the first loop raise. *)
Lemma update_unpositioned_raises g fm j r :
  robots fm !! j = Some r →
  Robot.current_vertex_idx r = None →
  (update g fm).1 ≠ Returned ().
Proof.
  intros Hj Hc Hu.
  destruct (update g fm) as [o fm'] eqn:E. simpl in Hu. subst o.
  destruct (update_returned_lookup _ _ _ _ _ E Hj)
    as (r1 & oj & oj' & lj & Hr1 & _).
  unfold update_robot in Hr1. by rewrite Hc in Hr1.
Qed.

(** C5, the defect: a tick that meets a robot whose vertex index is out of
    range resets it to [IDLE] without a vertex and returns, and the very
    next tick on the fleet it leaves does not return. *)
Theorem update_after_reset_raises g fm fm' j r cur :
  robots fm !! j = Some r →
  Robot.current_vertex_idx r = Some cur →
  length (NavGraph.vertices g) ≤ cur →
  update g fm = (Returned (), fm') →
  (∃ r', robots fm' !! j = Some r'
         ∧ Robot.current_vertex_idx r' = None
         ∧ Robot.status r' = IDLE)
  ∧ (update g fm').1 ≠ Returned ().
Proof.
  intros Hj Hc Hcur Hu.
  destruct (update_returned_lookup _ _ _ _ _ Hu Hj)
    as (r1 & oj & oj' & lj & Hr1 & Hj').
  unfold update_robot in Hr1. rewrite Hc in Hr1.
  apply Nat.leb_le in Hcur. rewrite Hcur in Hr1.
  injection Hr1 as <- _.
  assert (∃ r', robots fm' !! j = Some r'
                ∧ Robot.current_vertex_idx r' = None
                ∧ Robot.status r' = IDLE) as Hreset.
  { eexists. split; [exact Hj'|]. done. }
  split; [done|].
  destruct Hreset as (r' & Hr' & Hnone & _).
  by eapply update_unpositioned_raises.
Qed.

(** C5 at a robot spawned at vertex 2 of [line3] after the level shrank
    to [line2]: the first tick returns, the second raises [TypeError]. *)
Lemma update_after_reset_raises_witness :
  (update line2 (spawn_robot line3 2 init).2).1 = Returned ()
  ∧ (update line2 (update line2 (spawn_robot line3 2 init).2).2).1
    = Raised TypeError.
Proof.
  split; [reflexivity|].
  pose proof (update_after_reset_raises line2 (spawn_robot line3 2 init).2
                (update line2 (spawn_robot line3 2 init).2).2 0
                (Robot.set_current_vertex_idx (Some 2) (Robot.init 1 2 0)) 2
                eq_refl eq_refl (le_n 2) eq_refl) as [_ Hraise].
  destruct (update line2 (update line2 (spawn_robot line3 2 init).2).2).1
    as [[]|e|] eqn:E; [done|..]; vm_compute in E; congruence.
Defined.

(** C6, as amended: a [WAITING] robot comes out of a tick with its
    progress, position, lane and path untouched and is never [MOVING]
    again: it is still [WAITING], or was reset to [IDLE] because its vertex
    index is out of range. *)
Theorem update_keeps_waiting g fm fm' j r :
  robots fm !! j = Some r →
  Robot.status r = WAITING →
  update g fm = (Returned (), fm') →
  ∃ r', robots fm' !! j = Some r'
        ∧ Robot.progress r' = Robot.progress r
        ∧ Robot.x r' = Robot.x r ∧ Robot.y r' = Robot.y r
        ∧ Robot.current_lane r' = Robot.current_lane r
        ∧ Robot.path r' = Robot.path r
        ∧ Robot.status r' ≠ MOVING
        ∧ (Robot.status r' = WAITING
           ∨ (Robot.status r' = IDLE
              ∧ ∃ cur, Robot.current_vertex_idx r = Some cur
                       ∧ length (NavGraph.vertices g) ≤ cur)).
Proof.
  intros Hj Hs Hu.
  destruct (update_returned_lookup _ _ _ _ _ Hu Hj)
    as (r1 & oj & oj' & lj & Hr1 & Hj').
  eexists. split; [exact Hj'|]. clear Hj'.
  unfold update_robot in Hr1.
  destruct (Robot.current_vertex_idx r) as [cur|] eqn:Hc; [|done].
  destruct (Nat.leb_spec (length (NavGraph.vertices g)) cur) as [Hle|Hlt].
  - injection Hr1 as <- _. unfold reserve_lane, claimed_lane. simpl.
    repeat split; try done. right. eauto.
  - unfold dispatch, register in Hr1.
    rewrite decide_False in Hr1 by congruence.
    rewrite decide_True in Hr1 by auto.
    unfold Robot.update_position in Hr1.
    rewrite decide_True in Hr1 by congruence. rewrite Hc in Hr1.
    destruct (oj !! cur); [|done]. injection Hr1 as <- _.
    unfold reserve_lane, claimed_lane.
    rewrite decide_False by congruence. simpl.
    repeat split; try done; [congruence|by left].
Qed.

(** C6 on [line4]: robot 2 was made to wait for lane (0, 1) at the first
    tick and is still [WAITING] after the second. *)
Lemma update_keeps_waiting_witness :
  ∃ r', robots (head_on_after 2) !! 1 = Some r'
        ∧ Robot.status r' = WAITING.
Proof.
  destruct (update_keeps_waiting line4 (head_on_after 1) (head_on_after 2) 1
              (Robot.mk 2 1.95 0.00 WAITING (Some 1) (Some 2) [0; 2] 0.05
                 (Some (1, 0)) [] 99.9 0.05))
    as (r' & Hr' & _ & _ & _ & _ & _ & _ & [Hw|[_ (cur & Hc & Hle)]]).
  - vm_compute. reflexivity.
  - reflexivity.
  - vm_compute. reflexivity.
  - eauto.
  - exfalso. injection Hc as <-. simpl in Hle. lia.
Defined.

(** C6, refuted on [line4]: robot 2 is made to wait at the first tick.
    After tick 20 robot 1 has left for lane (1, 3) and nobody holds
    (0, 1); yet after tick 21, the first tick with the lane clear, and
    still after tick 60, robot 2 is [WAITING]. *)
Lemma waiting_never_resumes :
  Robot.status <$> robots (head_on_after 1) = [MOVING; WAITING]
  ∧ claimed_lane <$> robots (head_on_after 1) = [Some (0, 1); None]
  ∧ occupied_lanes (head_on_after 20) !! (0, 1) = None
  ∧ claimed_lane <$> robots (head_on_after 20) = [Some (1, 3); None]
  ∧ Robot.status <$> robots (head_on_after 21) = [MOVING; WAITING]
  ∧ Robot.status <$> robots (head_on_after 60) = [TASK_COMPLETE; WAITING]
  ∧ ¬ (∀ k, 20 ≤ k →
         occupied_lanes (head_on_after k) !! (0, 1) = None →
         ∃ r, robots (head_on_after (S k)) !! 1 = Some r
              ∧ Robot.status r = MOVING).
Proof.
  do 6 (split; [vm_compute; reflexivity|]).
  intros H. destruct (H 20 (le_n _)) as (r & Hr & Hs).
  - vm_compute. reflexivity.
  - vm_compute in Hr. injection Hr as <-. discriminate Hs.
Qed.

End FleetFacts.

(** * Well-formed robots *)

Module RobotInv.
Import Robot.
Import RobotFacts.

Lemma lane_path_in_range g p :
  NavGraph.lane_path g p → Forall (λ v, v < length (NavGraph.vertices g)) p.
Proof.
  induction p as [|a [|b p] IH]; intros Hp; [constructor|..].
  - destruct Hp. by repeat constructor.
  - destruct Hp as (? & ? & ?). constructor; [done|]. by apply IH.
Qed.

(** What a robot gets back from [find_shortest_path]. *)
Lemma find_shortest_path_from g c d :
  c < length (NavGraph.vertices g) → d < length (NavGraph.vertices g) →
  ∃ p, NavGraph.find_shortest_path g c d = Returned p
       ∧ Forall (λ v, v < length (NavGraph.vertices g)) p
       ∧ (p = [] ∨ head p = Some c).
Proof.
  intros Hc Hd.
  destruct (NavGraphFacts.find_shortest_path_result g c d Hc Hd)
    as [[-> _]|(p & -> & (Hh & _ & Hp) & _)].
  - exists []. split; [done|]. split; [constructor|by left].
  - exists p. split; [done|]. split; [by apply lane_path_in_range|by right].
Qed.

Lemma _move_to_next_vertex_ok g r :
  robot_ok g r →
  robot_ok g (_move_to_next_vertex g r)
  ∧ id (_move_to_next_vertex g r) = id r
  ∧ battery (_move_to_next_vertex g r) = battery r
  ∧ (current_vertex_idx (_move_to_next_vertex g r) = current_vertex_idx r
     ∨ current_vertex_idx (_move_to_next_vertex g r) = head (path r)).
Proof.
  intros ([Hb0 Hb1] & Hc & Hl & Hp). unfold _move_to_next_vertex, robot_ok.
  destruct (path r) as [|s [|e rest]] eqn:E.
  - split_and!; simpl; rewrite ?E; try done. by left.
  - split_and!; simpl; rewrite ?E; try done. by left.
  - apply Forall_cons in Hp as [Hs Hp]. apply Forall_cons in Hp as [He Hp'].
    destruct (NavGraph.connected g s e); simpl; rewrite E; simpl.
    + split_and!; try done; eauto;
        try (by intros a b [= <- <-]); by constructor.
    + split_and!; try done; eauto; by constructor.
Qed.

Lemma assign_task_battery d g r :
  battery (assign_task d g r).2 = battery r
  ∧ id (assign_task d g r).2 = id r.
Proof.
  unfold assign_task. case_decide; [done|].
  destruct (current_vertex_idx r); [|done].
  destruct (NavGraph.find_shortest_path g n d) as [[|a p]| |]; try done.
  simpl. unfold _move_to_next_vertex. simpl.
  destruct p as [|b p]; [done|]. simpl.
  by destruct (NavGraph.connected g a b).
Qed.

Lemma assign_task_ok d g r :
  robot_ok g r → d < length (NavGraph.vertices g) →
  ∃ b r', assign_task d g r = (Returned b, r')
          ∧ robot_ok g r'
          ∧ current_vertex_idx r' = current_vertex_idx r.
Proof.
  intros Hok Hd. pose proof Hok as ([Hb0 Hb1] & (c & Hc & Hcn) & Hl & Hp).
  unfold assign_task. case_decide; [by eauto|]. rewrite Hc.
  destruct (find_shortest_path_from g c d Hcn Hd) as (p & -> & Hpn & Hhead).
  destruct p as [|a p].
  - eexists _, _. split; [done|]. split; [|done].
    unfold robot_ok. split_and!; simpl; eauto.
  - destruct Hhead as [|[= ->]]; [done|].
    eexists _, _. split; [done|].
    set (r1 := set_status MOVING
                 (set_path (c :: p) (set_destination_vertex_idx (Some d) r))).
    assert (robot_ok g r1) as Hr1
      by (unfold robot_ok; split_and!; simpl; eauto).
    destruct (_move_to_next_vertex_ok g r1 Hr1) as (Hok' & _ & _ & Hcvi).
    split.
    + destruct Hok' as ([? ?] & ? & ? & ?).
      unfold robot_ok. split_and!; simpl; done.
    + simpl. destruct Hcvi as [->| ->]; [done|]. simpl. done.
Qed.

Lemma chargers_from_lt : ∀ vs i,
  Forall (λ c, c < i + length vs) (chargers_from i vs).
Proof.
  induction vs as [|v vs IH]; intros i; simpl; [constructor|].
  specialize (IH (S i)).
  assert (Forall (λ c, c < i + S (length vs)) (chargers_from (S i) vs)).
  { eapply Forall_impl; [exact IH|]. simpl. intros. lia. }
  destruct (NavGraph.is_charger v); [|done]. constructor; [lia|done].
Qed.

Lemma nearest_of_elem key : ∀ l best, nearest_of key best l ∈ best :: l.
Proof.
  induction l as [|c l IH]; intros best; simpl; [by left|].
  destruct (Qltb (key c) (key best)).
  - right. apply IH.
  - specialize (IH best). rewrite !elem_of_cons in *. tauto.
Qed.

Lemma consume_battery_ok g r :
  robot_ok g r →
  ∃ r', consume_battery g r = (Returned (), r') ∧ robot_ok g r'.
Proof.
  intros (Hb & Hc & Hl & Hp). unfold consume_battery.
  set (r1 := set_battery (py_max 0 (battery r - 0.1)) r).
  assert (robot_ok g r1) as Hr1.
  { unfold robot_ok. split_and!; try done; simpl; by apply py_max_bounds. }
  destruct (Qltb (battery r1) 20); [|by eauto].
  pose proof (chargers_from_lt (NavGraph.vertices g) 0) as Hch.
  destruct (chargers_from 0 (NavGraph.vertices g)) as [|c rest]; [by eauto|].
  set (nearest := nearest_of (charger_key g r1) c rest).
  assert (nearest < length (NavGraph.vertices g)) as Hn.
  { rewrite Forall_forall in Hch. apply (Hch nearest).
    apply nearest_of_elem. }
  destruct (assign_task_ok nearest g r1 Hr1 Hn) as (b & r' & -> & Hok & _).
  eexists. split; [done|].
  destruct Hok as ([? ?] & ? & ? & ?). unfold robot_ok.
  split_and!; simpl; done.
Qed.

Lemma update_position_ok g r :
  robot_ok g r →
  ∃ r', update_position g r = (Returned (), r') ∧ robot_ok g r'.
Proof.
  intros Hok. pose proof Hok as ([Hb0 Hb1] & Hc & Hl & Hp).
  unfold update_position.
  case_decide; [by eauto|].
  destruct (current_lane r) as [[a b]|] eqn:El.
  2:{ eexists. split; [done|]. by apply _move_to_next_vertex_ok. }
  destruct (Hl a b eq_refl) as [Ha Hbn].
  destruct (lookup_lt_is_Some_2 _ _ Ha) as [va ->].
  destruct (lookup_lt_is_Some_2 _ _ Hbn) as [vb ->].
  assert (robot_ok g (advance g b va vb r)) as Hmid.
  { destruct Hok as (_ & _ & Hl' & _).
    unfold advance. simpl. destruct (Qle_bool 1 (progress r + speed r)).
    - destruct (NavGraph.is_charger vb && Qltb (battery r) 50).
      + unfold robot_ok. split_and!; simpl; eauto.
      + destruct (path r) eqn:Ep.
        * unfold robot_ok. split_and!; simpl; eauto. by rewrite Ep.
        * apply _move_to_next_vertex_ok.
          unfold robot_ok. split_and!; simpl; eauto. by rewrite Ep.
    - unfold robot_ok. split_and!; simpl; eauto. }
  cbv zeta. case_decide; [|by eauto].
  by apply consume_battery_ok.
Qed.

Lemma update_charging_ok g r :
  robot_ok g r →
  robot_ok g (update_charging r)
  ∧ current_vertex_idx (update_charging r) = current_vertex_idx r.
Proof.
  intros (Hb & Hc & Hl & Hp). unfold update_charging.
  case_decide; [|done]. simpl.
  pose proof (py_min_bounds _ Hb) as [[? ?] _].
  destruct (Qle_bool 95 _); unfold robot_ok; split_and!; simpl; done.
Qed.


(** Identity and battery across the robot's own methods, whatever their
    outcome. *)
Lemma _move_to_next_vertex_fields g r :
  id (_move_to_next_vertex g r) = id r
  ∧ battery (_move_to_next_vertex g r) = battery r.
Proof.
  unfold _move_to_next_vertex. destruct (path r) as [|s [|e rest]]; try done.
  by destruct (NavGraph.connected g s e).
Qed.

Lemma advance_fields g e va vb r :
  id (advance g e va vb r) = id r
  ∧ battery (advance g e va vb r) = battery r.
Proof.
  unfold advance. simpl. destruct (Qle_bool 1 _); [|done].
  destruct (_ && _); [done|]. destruct (path r) eqn:E; [done|].
  match goal with
  | |- id (_move_to_next_vertex g ?r1) = _ ∧ _ =>
      by destruct (_move_to_next_vertex_fields g r1) as [-> ->]
  end.
Qed.

Lemma consume_battery_fields g r :
  id (consume_battery g r).2 = id r
  ∧ battery (consume_battery g r).2 = py_max 0 (battery r - 0.1).
Proof.
  unfold consume_battery.
  set (r1 := set_battery (py_max 0 (battery r - 0.1)) r).
  destruct (Qltb (battery r1) 20); [|done].
  destruct (chargers_from 0 (NavGraph.vertices g)) as [|c rest]; [done|].
  set (nearest := nearest_of (charger_key g r1) c rest).
  destruct (assign_task_battery nearest g r1) as [Hb Hi].
  destruct (assign_task nearest g r1) as [[b|e|] r']; simpl in *;
    by rewrite Hb, Hi.
Qed.

Lemma update_position_fields g r :
  id (update_position g r).2 = id r
  ∧ (battery (update_position g r).2 = battery r
     ∨ status r = MOVING
       ∧ battery (update_position g r).2 = py_max 0 (battery r - 0.1)).
Proof.
  unfold update_position. case_decide as Hs; [by auto|].
  assert (status r = MOVING) as Hm by (by destruct (status r)).
  destruct (current_lane r) as [[a b]|].
  2:{ simpl. destruct (_move_to_next_vertex_fields g r) as [-> ->]. auto. }
  destruct (NavGraph.vertices g !! a) as [va|]; [|by auto].
  destruct (NavGraph.vertices g !! b) as [vb|]; [|by auto].
  cbv zeta. destruct (advance_fields g b va vb r) as [Hi Hb].
  case_decide.
  - destruct (consume_battery_fields g (advance g b va vb r)) as [-> ->].
    rewrite Hi, Hb. auto.
  - simpl. rewrite Hi, Hb. auto.
Qed.

Lemma update_charging_fields r :
  id (update_charging r) = id r
  ∧ (battery (update_charging r) = battery r
     ∨ status r = CHARGING
       ∧ battery (update_charging r) = py_min 100 (battery r + 1)).
Proof.
  unfold update_charging. case_decide; [|by auto]. simpl.
  destruct (Qle_bool 95 _); simpl; auto.
Qed.

End RobotInv.

(** * Reachable fleets *)

Module WorldInv.
Import FleetManager.
Import RobotInv.
Import FleetFacts.

Lemma dispatch_fields g r :
  Robot.id (dispatch g r).2 = Robot.id r
  ∧ (Robot.battery (dispatch g r).2 = Robot.battery r
     ∨ Robot.status r = MOVING
       ∧ Robot.battery (dispatch g r).2 = py_max 0 (Robot.battery r - 0.1)
     ∨ Robot.status r = CHARGING
       ∧ Robot.battery (dispatch g r).2 = py_min 100 (Robot.battery r + 1)).
Proof.
  unfold dispatch. case_decide.
  - simpl. destruct (update_charging_fields r) as [-> [->|[? ->]]]; auto.
  - case_decide; [|by auto].
    destruct (update_position_fields g r) as [-> [->|[? ->]]]; auto.
Qed.

Lemma register_robot i r occ : (register i r occ).1.2 = r.
Proof.
  unfold register. destruct (Robot.current_vertex_idx r); [|done].
  by destruct (occ !! n).
Qed.

Lemma update_robot_fields g i r occ :
  Robot.id (update_robot g i r occ).1.2 = Robot.id r
  ∧ (Robot.battery (update_robot g i r occ).1.2 = Robot.battery r
     ∨ Robot.status r = MOVING
       ∧ Robot.battery (update_robot g i r occ).1.2
         = py_max 0 (Robot.battery r - 0.1)
     ∨ Robot.status r = CHARGING
       ∧ Robot.battery (update_robot g i r occ).1.2
         = py_min 100 (Robot.battery r + 1)).
Proof.
  unfold update_robot.
  destruct (Robot.current_vertex_idx r) as [cur|]; [|by auto].
  destruct (_ <=? cur); [by auto|].
  pose proof (dispatch_fields g r) as Hd.
  destruct (dispatch g r) as [[[]|e|] r']; simpl in Hd;
    rewrite ?register_robot; simpl; exact Hd.
Qed.

Lemma reserve_lane_fields i r lanes :
  let r' := (reserve_lane i r lanes).1 in
  Robot.id r' = Robot.id r
  ∧ Robot.battery r' = Robot.battery r
  ∧ Robot.current_vertex_idx r' = Robot.current_vertex_idx r
  ∧ Robot.current_lane r' = Robot.current_lane r
  ∧ Robot.path r' = Robot.path r.
Proof.
  unfold reserve_lane. destruct (claimed_lane r) as [k|]; [|done].
  destruct (lanes !! k) as [h|]; [|done]. by case_decide.
Qed.

Lemma reserve_lane_ok g i r lanes :
  robot_ok g r → robot_ok g (Robot.set_log [] (reserve_lane i r lanes).1).
Proof.
  destruct (reserve_lane_fields i r lanes) as (_ & Hb & Hc & Hl & Hp).
  unfold robot_ok. simpl. by rewrite Hb, Hc, Hl, Hp.
Qed.

Lemma reserve_lanes_length : ∀ todo i lanes,
  length (reserve_lanes i todo lanes).1 = length todo.
Proof.
  induction todo as [|r todo IH]; intros i lanes; [done|]. simpl.
  destruct (reserve_lane i r lanes) as [r' lanes0].
  specialize (IH (S i) lanes0).
  destruct (reserve_lanes (S i) todo lanes0). simpl in *. by rewrite IH.
Qed.


Lemma empty_occupancy_covers g :
  covers g (empty_occupancy (length (NavGraph.vertices g))).
Proof.
  intros c Hc. unfold empty_occupancy.
  apply not_eq_None_Some. intros Hnone.
  apply not_elem_of_list_to_map_2 in Hnone. apply Hnone.
  rewrite <- list_fmap_compose. simpl. rewrite list_fmap_id.
  apply elem_of_seq. lia.
Qed.

Lemma register_ok g i r occ :
  robot_ok g r → covers g occ →
  ∃ occ', register i r occ = (Returned (), r, occ')
          ∧ covers g occ' ∧ recorded occ' r
          ∧ ∀ c, occupied occ c → occupied occ' c.
Proof.
  intros (_ & (c & Hc & Hcn) & _) Hcov. unfold register. rewrite Hc.
  destruct (Hcov c Hcn) as [here Hhere]. rewrite Hhere.
  eexists. split; [done|]. split; [|split].
  - intros c' Hc'. rewrite lookup_insert. case_decide; [by eauto|].
    by apply Hcov.
  - intros c' Hc'. rewrite Hc in Hc'. injection Hc' as <-.
    exists (here ++ [i]). rewrite lookup_insert_eq. split; [done|].
    by destruct here.
  - intros c' (h' & Hh' & Hne). unfold occupied. rewrite lookup_insert.
    case_decide; [|by eauto]. subst c'. rewrite Hhere in Hh'.
    injection Hh' as <-. eexists. split; [done|]. by destruct here.
Qed.

Lemma dispatch_ok g r :
  robot_ok g r → ∃ r', dispatch g r = (Returned (), r') ∧ robot_ok g r'.
Proof.
  intros Hok. unfold dispatch. case_decide.
  - eexists. split; [done|]. by apply update_charging_ok.
  - case_decide; [|by eauto]. by apply update_position_ok.
Qed.

Lemma update_robot_ok g i r occ :
  robot_ok g r → covers g occ →
  ∃ r' occ', update_robot g i r occ = (Returned (), r', occ')
             ∧ robot_ok g r' ∧ covers g occ' ∧ recorded occ' r'
             ∧ ∀ c, occupied occ c → occupied occ' c.
Proof.
  intros Hok Hcov. pose proof Hok as (_ & (c & Hc & Hcn) & _).
  unfold update_robot. rewrite Hc.
  destruct (Nat.leb_spec (length (NavGraph.vertices g)) c); [lia|].
  destruct (dispatch_ok g r Hok) as (r' & -> & Hok').
  destruct (register_ok g i r' occ Hok' Hcov) as (occ' & -> & ? & ? & ?).
  eauto 10.
Qed.

Lemma update_positions_ok g : ∀ todo i occ,
  Forall (robot_ok g) todo → covers g occ →
  ∃ rs' occ', update_positions g i todo occ = (Returned (), rs', occ')
              ∧ Forall (robot_ok g) rs' ∧ Forall (recorded occ') rs'
              ∧ covers g occ'
              ∧ ∀ c, occupied occ c → occupied occ' c.
Proof.
  induction todo as [|r todo IH]; intros i occ Hall Hcov.
  { exists [], occ. by repeat split. }
  apply Forall_cons in Hall as [Hr Hall]. simpl.
  destruct (update_robot_ok g i r occ Hr Hcov)
    as (r' & occ0 & -> & Hok' & Hcov0 & Hrec & Hmono0).
  destruct (IH (S i) occ0 Hall Hcov0)
    as (rs' & occ' & -> & Hall' & Hrecs & Hcov' & Hmono).
  exists (r' :: rs'), occ'. split; [done|]. split; [by constructor|].
  split; [|split; [done|by auto]].
  constructor; [|done]. intros c Hc. by apply Hmono, Hrec.
Qed.

Lemma update_positions_ids g todo i occ :
  Robot.id <$> (update_positions g i todo occ).1.2 = Robot.id <$> todo.
Proof.
  apply list_eq. intros j. rewrite !list_lookup_fmap.
  destruct (todo !! j) as [r|] eqn:Hj.
  - destruct (update_positions_lookup g todo i occ j r Hj)
      as (r' & -> & [->|[oj ->]]); [done|]. simpl.
    by destruct (update_robot_fields g (i + j) r oj) as [-> _].
  - apply lookup_ge_None in Hj.
    rewrite (proj2 (lookup_ge_None _ _)); [done|].
    by rewrite update_positions_length.
Qed.

Lemma reserve_lanes_Forall (P : Robot.t → Prop) rs i lanes :
  (∀ j r l, P r → P (Robot.set_log [] (reserve_lane j r l).1)) →
  Forall P rs →
  Forall P (Robot.set_log [] <$> (reserve_lanes i rs lanes).1).
Proof.
  intros HP Hall. apply Forall_lookup. intros j r' Hj.
  rewrite list_lookup_fmap in Hj.
  destruct ((reserve_lanes i rs lanes).1 !! j) as [r1|] eqn:E; [|done].
  injection Hj as <-.
  assert (is_Some (rs !! j)) as [r Hr].
  { apply lookup_lt_is_Some. rewrite <- (reserve_lanes_length rs i lanes).
    apply lookup_lt_is_Some. eauto. }
  destruct (reserve_lanes_lookup rs i lanes j r Hr) as [lj Hlj].
  rewrite E in Hlj. injection Hlj as ->.
  apply HP. by eapply Forall_lookup in Hall.
Qed.

Lemma reserve_lanes_ids rs i lanes :
  Robot.id <$> (Robot.set_log [] <$> (reserve_lanes i rs lanes).1)
  = Robot.id <$> rs.
Proof.
  apply list_eq. intros j. rewrite !list_lookup_fmap.
  destruct (rs !! j) as [r|] eqn:Hr.
  - destruct (reserve_lanes_lookup rs i lanes j r Hr) as [lj ->]. simpl.
    by destruct (reserve_lane_fields (i + j) r lj) as [-> _].
  - apply lookup_ge_None in Hr.
    rewrite (proj2 (lookup_ge_None _ _)); [done|].
    by rewrite reserve_lanes_length.
Qed.

(** On a well-formed fleet the tick returns. *)
Lemma update_ok w :
  world_ok w →
  ∃ fm', update (graph w) (fleet w) = (Returned (), fm')
         ∧ world_ok (mkWorld (graph w) fm').
Proof.
  intros (Hall & Hids & Hcnt & _). unfold update.
  destruct (update_positions_ok (graph w) (robots (fleet w)) 0 _ Hall
              (empty_occupancy_covers (graph w)))
    as (rs1 & occ1 & E & Hall1 & Hrec1 & _ & _).
  pose proof (update_positions_ids (graph w) (robots (fleet w)) 0
                (empty_occupancy (length (NavGraph.vertices (graph w)))))
    as Hids1.
  pose proof (update_positions_length (graph w) (robots (fleet w)) 0
                (empty_occupancy (length (NavGraph.vertices (graph w)))))
    as Hlen1.
  rewrite E in Hids1, Hlen1 |- *. simpl in Hids1, Hlen1.
  pose proof (reserve_lanes_ids rs1 0 ∅) as Hids2.
  pose proof (reserve_lanes_length rs1 0 ∅) as Hlen2.
  pose proof (reserve_lanes_Forall (robot_ok (graph w)) rs1 0 ∅
                (λ j r l, reserve_lane_ok (graph w) j r l) Hall1) as Hall2.
  pose proof (reserve_lanes_Forall (recorded occ1) rs1 0 ∅) as Hrec2.
  destruct (reserve_lanes 0 rs1 ∅) as [rs2 lanes2]. simpl in *.
  eexists. split; [done|]. unfold world_ok. simpl.
  rewrite length_fmap, Hlen2, Hlen1, Hids2, Hids1.
  split_and!; try done.
  apply Hrec2; [|done]. intros j r l Hr c Hc. apply Hr.
  destruct (reserve_lane_fields j r l) as (_ & _ & <- & _). done.
Qed.

Lemma find_robot_lookup : ∀ rs i robot_id j r,
  find_robot i rs robot_id = Some (j, r) →
  ∃ k, j = i + k ∧ rs !! k = Some r.
Proof.
  induction rs as [|r0 rs IH]; intros i robot_id j r; [done|]. simpl.
  destruct (Robot.id r0 =? robot_id).
  - intros [= <- <-]. exists 0. split; [lia|done].
  - intros (k & -> & Hk)%IH. exists (S k). split; [lia|done].
Qed.

Lemma spawn_robot_ok w v :
  world_ok w →
  (spawn_robot (graph w) v (fleet w)).1 ≠ Raised IndexError
  ∧ world_ok (mkWorld (graph w) (spawn_robot (graph w) v (fleet w)).2).
Proof.
  intros Hok. pose proof Hok as (Hall & Hids & Hcnt & Hrec).
  unfold spawn_robot.
  destruct (Nat.ltb_spec v (length (NavGraph.vertices (graph w))))
    as [Hv|Hv]; [|by destruct w].
  destruct (lookup_lt_is_Some_2 _ _ Hv) as [vertex Hvertex].
  unfold is_vertex_occupied. rewrite Hvertex. simpl.
  assert (world_ok
    (mkWorld (graph w)
       (mk (robots (fleet w)
            ++ [Robot.set_current_vertex_idx (Some v)
                  (Robot.init (robot_id_counter (fleet w))
                     (NavGraph.x vertex) (NavGraph.y vertex))])
          (S (robot_id_counter (fleet w)))
          (<[v := default [] (occupied_vertices (fleet w) !! v)
                  ++ [length (robots (fleet w))]]>
             (occupied_vertices (fleet w)))
          (occupied_lanes (fleet w))))) as Hnew.
  { unfold world_ok. simpl. split_and!.
    - apply Forall_app. split; [done|]. constructor; [|constructor].
      unfold robot_ok. simpl. split_and!; eauto; try lra; try done.
    - rewrite fmap_app, length_app, Hids. simpl. rewrite Hcnt.
      by rewrite Nat.add_1_r, seq_S.
    - rewrite length_app, Hcnt. simpl. lia.
    - assert (occupied
                (<[v := default [] (occupied_vertices (fleet w) !! v)
                        ++ [length (robots (fleet w))]]>
                   (occupied_vertices (fleet w))) v) as Hocc.
      { eexists. rewrite lookup_insert_eq. split; [done|].
        by destruct (default [] _). }
      apply Forall_app. split.
      + eapply Forall_impl; [exact Hrec|]. intros r Hr c Hc.
        destruct (decide (c = v)) as [->|Hne]; [done|].
        destruct (Hr c Hc) as (here & ? & ?). exists here.
        by rewrite lookup_insert_ne.
      + constructor; [|constructor]. intros c [= <-]. done. }
  destruct (occupied_vertices (fleet w) !! v) as [here|] eqn:Eocc;
    [destruct (NavGraph.is_charger vertex);
     [|destruct (0 <? length here)]|]; simpl; try (split; [done|]);
    try done; by destruct w.
Qed.

Lemma assign_task_world_ok w robot_id d :
  world_ok w →
  world_ok (mkWorld (graph w)
              (assign_task (graph w) robot_id d (fleet w)).2).
Proof.
  intros Hok. pose proof Hok as (Hall & Hids & Hcnt & Hrec).
  assert (world_ok (mkWorld (graph w) (fleet w))) as Hsame by (by destruct w).
  unfold assign_task.
  destruct (find_robot 0 (robots (fleet w)) robot_id) as [[i r]|] eqn:Ef;
    [|done].
  apply find_robot_lookup in Ef as (k & -> & Hk). simpl.
  destruct (Robot.current_vertex_idx r) eqn:Ec; [|done].
  destruct (NavGraph.vertices (graph w) !! d) as [dv|] eqn:Ed; [|done].
  assert (d < length (NavGraph.vertices (graph w))) as Hd.
  { apply lookup_lt_is_Some. eauto. }
  assert (∃ b, (if NavGraph.is_charger dv then Returned false
                else is_vertex_occupied (graph w) d (fleet w)) = Returned b)
    as [b ->].
  { destruct (NavGraph.is_charger dv) eqn:Ech; [by eauto|].
    unfold is_vertex_occupied. rewrite Ed, Ech.
    destruct (occupied_vertices (fleet w) !! d); eauto. }
  destruct b; [done|].
  assert (robot_ok (graph w) r) as Hr by (by eapply Forall_lookup in Hall).
  destruct (Robot.assign_task d (graph w) r) as [o r'] eqn:Ea.
  destruct (assign_task_ok d (graph w) r Hr Hd) as (b & r0 & Ea' & Hr' & Hc').
  rewrite Ea in Ea'. injection Ea' as -> <-.
  pose proof (assign_task_battery d (graph w) r) as [_ Hid].
  rewrite Ea in Hid. simpl in Hid.
  assert (∀ r'', robot_ok (graph w) r'' → Robot.id r'' = Robot.id r →
                 Robot.current_vertex_idx r'' = Robot.current_vertex_idx r →
                 world_ok (mkWorld (graph w)
                   (set_robots (<[k := r'']> (robots (fleet w))) (fleet w))))
    as Hins.
  { intros r'' Hok'' Hid'' Hc''. unfold world_ok. simpl.
    rewrite length_insert. split_and!; try done.
    - by apply Forall_insert.
    - rewrite list_fmap_insert, Hid'', list_insert_id; [done|].
      by rewrite list_lookup_fmap, Hk.
    - apply Forall_insert; [done|]. intros c Hc. rewrite Hc'' in Hc.
      by eapply (Forall_lookup_1 _ _ _ _ Hrec Hk). }
  destruct b; apply Hins; done.
Qed.

Lemma exec_ok w op : world_ok w → world_ok (exec w op).
Proof.
  intros Hok. destruct op as [v|robot_id d| |level]; simpl.
  - by apply spawn_robot_ok.
  - by apply assign_task_world_ok.
  - destruct (update_ok w Hok) as (fm' & -> & Hok'). done.
  - unfold world_ok. simpl. split_and!; done.
Qed.

Lemma run_ok ops : ∀ w, world_ok w → world_ok (run w ops).
Proof.
  induction ops as [|op ops IH]; intros w Hok; [done|].
  simpl. apply IH. by apply exec_ok.
Qed.

Lemma init_world_ok g : world_ok (init_world g).
Proof. unfold world_ok. simpl. split_and!; done. Qed.

End WorldInv.

(** * Lane arbitration *)

Module Arbitration.
Import FleetManager.
Import FleetFacts.
Import WorldInv.

Lemma reserve_lane_spec i r lanes :
  (∀ k h, lanes !! k = Some h → h < i) →
  match claimed_lane r with
  | None => reserve_lane i r lanes = (r, lanes)
  | Some k =>
      match lanes !! k with
      | None => reserve_lane i r lanes = (r, <[k := i]> lanes)
      | Some _ => reserve_lane i r lanes = (waiting r k, lanes)
      end
  end.
Proof.
  intros Hold. unfold reserve_lane.
  destruct (claimed_lane r) as [k|]; [|done].
  destruct (lanes !! k) as [h|] eqn:E; [|done].
  apply Hold in E. rewrite decide_True by lia. done.
Qed.

(** The second loop, position by position.  The table only grows; a robot
    that still claims a lane afterwards is the one the table names for it;
    the first claimant of a free lane keeps it; every later claimant is
    made to wait. *)
Lemma reserve_lanes_spec : ∀ todo i lanes,
  (∀ k h, lanes !! k = Some h → h < i) →
  (∀ k h, lanes !! k = Some h →
     (reserve_lanes i todo lanes).2 !! k = Some h)
  ∧ (∀ j r' k, (reserve_lanes i todo lanes).1 !! j = Some r' →
       claimed_lane r' = Some k →
       (reserve_lanes i todo lanes).2 !! k = Some (i + j))
  ∧ (∀ j r k, todo !! j = Some r → claimed_lane r = Some k →
       (lanes !! k = None →
        (∀ j' r'', j' < j → todo !! j' = Some r'' →
           claimed_lane r'' ≠ Some k) →
        (reserve_lanes i todo lanes).1 !! j = Some r
        ∧ (reserve_lanes i todo lanes).2 !! k = Some (i + j))
       ∧ (is_Some (lanes !! k)
          ∨ (∃ j' r'', j' < j ∧ todo !! j' = Some r''
                       ∧ claimed_lane r'' = Some k) →
          (reserve_lanes i todo lanes).1 !! j = Some (waiting r k))).
Proof.
  induction todo as [|r0 todo IH]; intros i lanes Hold.
  { simpl. split; [done|]. split; intros; done. }
  simpl. pose proof (reserve_lane_spec i r0 lanes Hold) as H0.
  destruct (reserve_lane i r0 lanes) as [r0' lanes0] eqn:E0.
  assert (∀ k h, lanes !! k = Some h → lanes0 !! k = Some h) as Hmono0.
  { intros k h Hk. destruct (claimed_lane r0) as [k0|]; [|congruence].
    destruct (lanes !! k0) eqn:Ek0; [congruence|].
    injection H0 as _ ->. rewrite lookup_insert_ne; [done|congruence]. }
  assert (∀ k h, lanes0 !! k = Some h → h < S i) as Hold0.
  { intros k h Hk. destruct (claimed_lane r0) as [k0|].
    - destruct (lanes !! k0) eqn:Ek0.
      + injection H0 as _ ->. apply Hold in Hk. lia.
      + injection H0 as _ ->. rewrite lookup_insert in Hk.
        case_decide; [injection Hk as <-; lia|]. apply Hold in Hk. lia.
    - injection H0 as _ ->. apply Hold in Hk. lia. }
  assert (∀ k, claimed_lane r0' = Some k →
               r0' = r0 ∧ lanes0 !! k = Some i) as Hkeep0.
  { intros k Hk. destruct (claimed_lane r0) as [k0|] eqn:Ec.
    - destruct (lanes !! k0) eqn:Ek0.
      + injection H0 as -> _. done.
      + injection H0 as -> ->. rewrite Ec in Hk. injection Hk as <-.
        by rewrite lookup_insert_eq.
    - injection H0 as -> _. congruence. }
  assert (∀ k, claimed_lane r0 = Some k → is_Some (lanes0 !! k)) as Hheld0.
  { intros k Hk. rewrite Hk in H0. destruct (lanes !! k) eqn:Ek.
    - injection H0 as _ ->. eauto.
    - injection H0 as _ ->. rewrite lookup_insert_eq. eauto. }
  assert (∀ k, claimed_lane r0 ≠ Some k → lanes !! k = None →
               lanes0 !! k = None) as Hfree0.
  { intros k Hk Hn. destruct (claimed_lane r0) as [k0|].
    - destruct (lanes !! k0) eqn:Ek0.
      + by injection H0 as _ ->.
      + injection H0 as _ ->. rewrite lookup_insert_ne; [done|congruence].
    - by injection H0 as _ ->. }
  destruct (IH (S i) lanes0 Hold0) as (IHmono & IHkeep & IHfirst).
  destruct (reserve_lanes (S i) todo lanes0) as [rest' lanes'] eqn:E.
  simpl in *. split; [|split].
  - intros k h Hk. by apply IHmono, Hmono0.
  - intros [|j] r' k Hj Hk; simpl in Hj.
    + injection Hj as <-. rewrite Nat.add_0_r. apply IHmono.
      by apply Hkeep0.
    + replace (i + S j) with (S (i + j)) by lia. by eapply IHkeep.
  - intros [|j] r k Hj Hk; simpl in Hj.
    + injection Hj as <-. rewrite Hk in H0. split.
      * intros Hn _. rewrite Hn in H0. injection H0 as -> ->.
        split; [done|]. rewrite Nat.add_0_r. apply IHmono.
        by rewrite lookup_insert_eq.
      * intros [[h Hh]|(j' & ? & ? & _)]; [|lia].
        rewrite Hh in H0. by injection H0 as -> _.
    + destruct (IHfirst j r k Hj Hk) as [IH1 IH2]. split.
      * intros Hn Hnone.
        replace (i + S j) with (S (i + j)) by lia. apply IH1.
        -- apply Hfree0; [|done]. apply (Hnone 0 r0); [lia|done].
        -- intros j' r'' Hlt Hj'. apply (Hnone (S j') r''); [lia|done].
      * intros [Hs|(j' & r'' & Hlt & Hj' & Hk')]; apply IH2.
        -- left. destruct Hs as [h Hh]. eauto.
        -- destruct j' as [|j']; simpl in Hj'.
           ++ injection Hj' as <-. left. by apply Hheld0.
           ++ right. exists j', r''. split; [lia|done].
Qed.


Lemma claimed_lane_set_log l r :
  claimed_lane (Robot.set_log l r) = claimed_lane r.
Proof. done. Qed.

Lemma reachable_ids_increasing g ops :
  ids_increasing (robots (fleet (run (init_world g) ops))).
Proof.
  pose proof (run_ok ops _ (init_world_ok g)) as (_ & Hids & _).
  intros i j ri rj Hi Hj Hlt.
  assert (∀ k r, robots (fleet (run (init_world g) ops)) !! k = Some r →
                 Robot.id r = S k) as Hid.
  { intros k r Hk.
    assert ((Robot.id <$> robots (fleet (run (init_world g) ops))) !! k
            = Some (Robot.id r)) as Hl by (by rewrite list_lookup_fmap, Hk).
    rewrite Hids in Hl. apply lookup_seq in Hl as [-> _]. done. }
  rewrite (Hid _ _ Hi), (Hid _ _ Hj). lia.
Qed.

Lemma update_positions_ids_increasing g rs i occ :
  ids_increasing rs → ids_increasing (update_positions g i rs occ).1.2.
Proof.
  intros Hinc a b ra rb Ha Hb Hlt.
  pose proof (update_positions_ids g rs i occ) as Hids.
  assert (∀ k r, (update_positions g i rs occ).1.2 !! k = Some r →
                 ∃ r0, rs !! k = Some r0 ∧ Robot.id r0 = Robot.id r) as Hback.
  { intros k r Hk.
    assert ((Robot.id <$> rs) !! k = Some (Robot.id r)) as Hl
      by (by rewrite <- Hids, list_lookup_fmap, Hk).
    rewrite list_lookup_fmap in Hl.
    destruct (rs !! k) as [r0|]; [|done]. injection Hl as Hl. eauto. }
  destruct (Hback _ _ Ha) as (ra0 & Ha0 & <-).
  destruct (Hback _ _ Hb) as (rb0 & Hb0 & <-).
  by eapply Hinc.
Qed.

(** C1: after a tick that returns, from any fleet, no two robots are
    [MOVING] on the same lane key.  When the ids grow along [robots], as
    they do in every fleet the host can reach, then among the [MOVING]
    robots that come out of the first pass on lane key [k] the one with
    the lowest id keeps its status and is entered in the lane table for
    [k], and every contender with a higher id than another contender is
    set to [WAITING]. *)
Theorem update_lane_arbitration (g : NavGraph.t) (fm fm' : FleetManager.t) :
  update g fm = (Returned (), fm') →
  (∀ i j ri rj k,
     robots fm' !! i = Some ri → robots fm' !! j = Some rj →
     claimed_lane ri = Some k → claimed_lane rj = Some k → i = j)
  ∧ ∃ rs1 occ1,
      update_positions g 0 (robots fm)
        (empty_occupancy (length (NavGraph.vertices g)))
      = (Returned (), rs1, occ1)
      ∧ (ids_increasing (robots fm) →
         ∀ i ri k, rs1 !! i = Some ri → claimed_lane ri = Some k →
          ((∀ j rj, rs1 !! j = Some rj → claimed_lane rj = Some k →
              Robot.id ri ≤ Robot.id rj) →
           robots fm' !! i = Some (Robot.set_log [] ri)
           ∧ occupied_lanes fm' !! k = Some i)
          ∧ ((∃ j rj, rs1 !! j = Some rj ∧ claimed_lane rj = Some k
                      ∧ Robot.id rj < Robot.id ri) →
             robots fm' !! i = Some (Robot.set_log [] (waiting ri k))
             ∧ Robot.status (Robot.set_log [] (waiting ri k)) = WAITING)).
Proof.
  intros Hu. unfold update in Hu.
  pose proof (update_positions_ids_increasing g (robots fm) 0
                (empty_occupancy (length (NavGraph.vertices g)))) as Hinc1.
  destruct (update_positions _ _ _ _) as [[o rs1] occ1] eqn:E1.
  destruct o as [[]| |]; [|done..]. simpl in Hinc1.
  destruct (reserve_lanes_spec rs1 0 ∅) as (_ & Hkeep & Hfirst).
  { intros k h Hk. by rewrite lookup_empty in Hk. }
  destruct (reserve_lanes 0 rs1 ∅) as [rs2 lanes2] eqn:E2.
  injection Hu as <-. simpl in *. split.
  - intros i j ri rj k Hi Hj Hki Hkj.
    rewrite list_lookup_fmap in Hi, Hj.
    destruct (rs2 !! i) as [ri2|] eqn:Ei; [|done].
    destruct (rs2 !! j) as [rj2|] eqn:Ej; [|done].
    injection Hi as <-. injection Hj as <-.
    rewrite claimed_lane_set_log in Hki, Hkj.
    pose proof (Hkeep _ _ _ Ei Hki) as H1.
    pose proof (Hkeep _ _ _ Ej Hkj) as H2. congruence.
  - exists rs1, occ1. split; [done|]. intros Hinc i ri k Hi Hk.
    specialize (Hinc1 Hinc).
    destruct (Hfirst i ri k Hi Hk) as [Hwin Hlose]. split.
    + intros Hleast. destruct Hwin as [Hr Hl]; [apply lookup_empty| |].
      * intros j' r'' Hlt Hj' Hk'.
        specialize (Hleast j' r'' Hj' Hk').
        specialize (Hinc1 j' i r'' ri Hj' Hi Hlt). lia.
      * by rewrite list_lookup_fmap, Hr.
    + intros (j & rj & Hj & Hkj & Hlt).
      rewrite list_lookup_fmap, Hlose; [done|].
      right. exists j, rj. split; [|done].
      destruct (Nat.lt_trichotomy j i) as [?|[->|Hgt]]; [done|..].
      * rewrite Hi in Hj. injection Hj as ->. lia.
      * specialize (Hinc1 i j ri rj Hi Hj Hgt). lia.
Qed.

(** C1 on [line4]: robots 1 and 2 enter lane (0, 1) from its two ends,
    and robot 2 is the one made to wait. *)
Lemma update_lane_arbitration_witness :
  Robot.status <$> robots (head_on_after 1) !! 1 = Some WAITING.
Proof.
  destruct (update_lane_arbitration line4 (head_on_after 0) (head_on_after 1))
    as [_ (rs1 & occ1 & E & Harb)].
  - vm_compute. reflexivity.
  - vm_compute in E. injection E as <- _.
    destruct (Harb (reachable_ids_increasing line4
                      [OpSpawn 0; OpSpawn 1; OpAssign 1 3; OpAssign 2 2])
                1 _ (0, 1) eq_refl eq_refl) as [_ Hlose].
    destruct Hlose as [-> _]; [|reflexivity].
    eexists 0, _. split; [reflexivity|]. split; [reflexivity|]. simpl. lia.
Defined.

End Arbitration.

(** * Invariants of the coordinator *)

Module Coordinator.
Import FleetManager.
Import RobotFacts.
Import RobotInv.
Import FleetFacts.
Import WorldInv.

(** ** Robot ids *)

Lemma spawn_robot_counter g v fm :
  robot_id_counter (spawn_robot g v fm).2
  = match spawn_robot g v fm with
    | (Returned true, _) => S (robot_id_counter fm)
    | _ => robot_id_counter fm
    end.
Proof.
  unfold spawn_robot. destruct (negb _); [done|].
  destruct (is_vertex_occupied g v fm) as [[|]| |]; try done.
  by destruct (NavGraph.vertices g !! v).
Qed.

Lemma assign_task_counter g robot_id d fm :
  robot_id_counter (assign_task g robot_id d fm).2 = robot_id_counter fm.
Proof.
  unfold assign_task.
  destruct (find_robot 0 (robots fm) robot_id) as [[i r]|]; [|done].
  destruct (Robot.current_vertex_idx r); [|done].
  destruct (NavGraph.vertices g !! d) as [dv|]; [|done].
  destruct (if NavGraph.is_charger dv then _ else _) as [[|]| |]; try done.
  by destruct (Robot.assign_task d g r) as [[[|]| |] r'].
Qed.

Lemma update_counter g fm :
  robot_id_counter (update g fm).2 = robot_id_counter fm.
Proof.
  unfold update.
  destruct (update_positions g 0 (robots fm) _) as [[[[]| |] rs] occ];
    try done.
  by destruct (reserve_lanes 0 rs ∅).
Qed.

(** Without a level change the ids handed out continue the counter. *)
Lemma spawned_ids_seq : ∀ ops w,
  forallb (λ op, negb (is_load op)) ops = true →
  spawned_ids w ops
  = seq (robot_id_counter (fleet w)) (length (spawned_ids w ops)).
Proof.
  induction ops as [|op ops IH]; intros w Hops; [done|].
  simpl in Hops. apply andb_true_iff in Hops as [Hop Hops].
  specialize (IH (exec w op) Hops). simpl.
  destruct op as [v|robot_id d| |level]; simpl in *; try done.
  - rewrite spawn_robot_counter in IH.
    destruct (spawn_robot (graph w) v (fleet w)) as [[[|]| |] fm'];
      simpl in *; by rewrite IH at 1.
  - by rewrite assign_task_counter in IH.
  - by rewrite update_counter in IH.
Qed.

(** C8, refuted: a level change between two spawns hands out id 1
    twice. *)
Lemma ids_reused_after_reset :
  spawned_ids (init_world line3) [OpSpawn 0; OpLoadLevel line3; OpSpawn 0]
  = [1; 1]
  ∧ ¬ NoDup (spawned_ids (init_world line3)
               [OpSpawn 0; OpLoadLevel line3; OpSpawn 0]).
Proof.
  split; [reflexivity|]. intros Hnd.
  change (NoDup [1; 1]) in Hnd. apply NoDup_cons in Hnd as [Hin _].
  apply Hin. by left.
Qed.

(** C8, as amended: in every reachable fleet the robots carry the ids
    1, 2, ..., in spawn order, and as long as no level is loaded the ids
    handed out next continue that sequence, so they are increasing,
    pairwise distinct and new. *)
Theorem ids_unique_within_level (g : NavGraph.t) (ops0 ops : list Op) :
  let w := run (init_world g) ops0 in
  Robot.id <$> robots (fleet w) = seq 1 (length (robots (fleet w)))
  ∧ (forallb (λ op, negb (is_load op)) ops = true →
     spawned_ids w ops
     = seq (S (length (robots (fleet w)))) (length (spawned_ids w ops))
     ∧ NoDup ((Robot.id <$> robots (fleet w)) ++ spawned_ids w ops)).
Proof.
  intros w.
  pose proof (run_ok ops0 _ (init_world_ok g)) as (_ & Hids & Hcnt & _).
  fold w in Hids, Hcnt. split; [done|]. intros Hops.
  pose proof (spawned_ids_seq ops w Hops) as Hseq. rewrite Hcnt in Hseq.
  split; [done|]. rewrite Hids, Hseq.
  rewrite <- (seq_app (length (robots (fleet w)))). apply NoDup_seq.
Qed.

Lemma ids_unique_within_level_witness :
  spawned_ids (run (init_world line3) [OpSpawn 0])
    [OpSpawn 1; OpTick; OpSpawn 2]
  = seq 2 (length (spawned_ids (run (init_world line3) [OpSpawn 0])
                     [OpSpawn 1; OpTick; OpSpawn 2])).
Proof.
  apply (ids_unique_within_level line3 [OpSpawn 0]
           [OpSpawn 1; OpTick; OpSpawn 2]).
  reflexivity.
Defined.


(** ** Battery *)

Lemma spawn_robot_robots g v fm :
  ∃ extra, robots (spawn_robot g v fm).2 = robots fm ++ extra.
Proof.
  unfold spawn_robot. destruct (negb _); [exists []; by rewrite app_nil_r|].
  destruct (is_vertex_occupied g v fm) as [[|]| |];
    try (exists []; by rewrite app_nil_r).
  destruct (NavGraph.vertices g !! v);
    [by eexists|exists []; by rewrite app_nil_r].
Qed.

Lemma assign_task_robots g robot_id d fm :
  robots (assign_task g robot_id d fm).2 = robots fm
  ∨ ∃ k r0 r1, robots fm !! k = Some r0
               ∧ robots (assign_task g robot_id d fm).2
                 = <[k := r1]> (robots fm)
               ∧ Robot.battery r1 = Robot.battery r0.
Proof.
  unfold assign_task.
  destruct (find_robot 0 (robots fm) robot_id) as [[i r]|] eqn:Ef;
    [|by left].
  apply find_robot_lookup in Ef as (k & -> & Hk). simpl.
  destruct (Robot.current_vertex_idx r); [|by left].
  destruct (NavGraph.vertices g !! d) as [dv|]; [|by left].
  destruct (if NavGraph.is_charger dv then _ else _) as [[|]| |];
    try by left.
  right. pose proof (assign_task_battery d g r) as [Hb _].
  destruct (Robot.assign_task d g r) as [[[|]| |] r']; simpl in *;
    eexists k, r, _; (split; [done|]); (split; [done|]); done.
Qed.

(** The battery of the robot at one position across one operation of the
    host. *)
Lemma exec_battery w op j r r' :
  world_ok w →
  robots (fleet w) !! j = Some r →
  robots (fleet (exec w op)) !! j = Some r' →
  Robot.battery r' = Robot.battery r
  ∨ (op = OpTick ∧ Robot.status r = MOVING
     ∧ Robot.battery r' = py_max 0 (Robot.battery r - 0.1))
  ∨ (op = OpTick ∧ Robot.status r = CHARGING
     ∧ Robot.battery r' = py_min 100 (Robot.battery r + 1)).
Proof.
  intros Hok Hj Hj'. destruct op as [v|robot_id d| |level]; simpl in Hj'.
  - destruct (spawn_robot_robots (graph w) v (fleet w)) as [extra He].
    rewrite He, lookup_app_l in Hj' by (by eapply lookup_lt_Some).
    left. congruence.
  - destruct (assign_task_robots (graph w) robot_id d (fleet w))
      as [He|(k & r0 & r1 & Hk & He & Hb)]; rewrite He in Hj'.
    + left. congruence.
    + left. destruct (decide (k = j)) as [->|Hne].
      * rewrite list_lookup_insert_eq in Hj' by (by eapply lookup_lt_Some).
        congruence.
      * rewrite list_lookup_insert_ne in Hj' by done. congruence.
  - destruct (update_ok w Hok) as (fm' & Hu & _). rewrite Hu in Hj'.
    destruct (update_returned_lookup _ _ _ _ _ Hu Hj)
      as (r1 & oj & oj' & lj & Hr1 & Hl).
    simpl in Hj'. rewrite Hl in Hj'. injection Hj' as <-. simpl.
    destruct (reserve_lane_fields j r1 lj) as (_ & -> & _).
    pose proof (update_robot_fields (graph w) j r oj) as [_ Hb].
    rewrite Hr1 in Hb. simpl in Hb.
    destruct Hb as [->|[[? ->]|[? ->]]]; auto.
  - done.
Qed.

(** C7: in every reachable fleet every battery lies in [0, 100]; and
    across any one operation of the host the battery of a robot goes down
    only in a tick that found the robot [MOVING], and up only in a tick
    that found it [CHARGING]. *)
Theorem battery_within_bounds (g : NavGraph.t) (ops : list Op) :
  let w := run (init_world g) ops in
  (∀ r, r ∈ robots (fleet w) → (0 <= Robot.battery r <= 100)%Q)
  ∧ ∀ op j r r',
      robots (fleet w) !! j = Some r →
      robots (fleet (exec w op)) !! j = Some r' →
      ((Robot.battery r' < Robot.battery r)%Q →
       op = OpTick ∧ Robot.status r = MOVING)
      ∧ ((Robot.battery r < Robot.battery r')%Q →
         op = OpTick ∧ Robot.status r = CHARGING).
Proof.
  intros w. pose proof (run_ok ops _ (init_world_ok g)) as Hok. fold w in Hok.
  pose proof Hok as (Hall & _). split.
  - intros r Hr. rewrite Forall_forall in Hall. by apply Hall in Hr as [? _].
  - intros op j r r' Hj Hj'.
    assert (0 <= Robot.battery r <= 100)%Q as Hb.
    { eapply Forall_lookup in Hall as [? _]; done. }
    destruct (exec_battery w op j r r' Hok Hj Hj')
      as [->|[(-> & Hs & ->)|(-> & Hs & ->)]].
    + split; intros ?%Qlt_irrefl; done.
    + pose proof (py_max_bounds _ Hb) as [_ ?]. split; [done|]. lra.
    + pose proof (py_min_bounds _ Hb) as [_ ?]. split; [lra|done].
Qed.

(** C7 on [line3]: the robot sent from 0 to 2, after the first tick. *)
Lemma battery_within_bounds_witness :
  Forall (λ r, (0 <= Robot.battery r <= 100)%Q)
    (robots (fleet (run (init_world line3)
                      [OpSpawn 0; OpAssign 1 2; OpTick]))).
Proof.
  apply Forall_forall.
  exact (proj1 (battery_within_bounds line3
                  [OpSpawn 0; OpAssign 1 2; OpTick])).
Defined.

(** ** Vertex occupancy *)

(** C2, refuted on [line3]: robots spawned at 0 and 2 and both sent to
    vertex 1, which is no charger, stand on it together after tick 20. *)
Lemma two_robots_on_one_vertex :
  NavGraph.is_charger <$> NavGraph.vertices line3 !! 1 = Some false
  ∧ length (occupants (meet_after 20) 1) = 2.
Proof. split; vm_compute; reflexivity. Qed.

(** On [chargers2] three robots are spawned on the charger 0. *)
Example chargers_host_many :
  length (occupants
            (fleet (run (init_world chargers2)
                      [OpSpawn 0; OpSpawn 0; OpSpawn 0])) 0) = 3.
Proof. vm_compute. reflexivity. Qed.

(** C2, as amended: in every reachable fleet, spawning at a vertex that is
    no charger and on which some robot stands returns [False] and leaves
    the fleet as it is, and spawning at a charger vertex returns [True] and
    adds a robot standing on it, however many are there already. *)
Theorem spawn_respects_occupancy (g : NavGraph.t) (ops : list Op)
    (v : nat) (vertex : NavGraph.Vertex) :
  let w := run (init_world g) ops in
  NavGraph.vertices (graph w) !! v = Some vertex →
  (NavGraph.is_charger vertex = false →
   occupants (fleet w) v ≠ [] →
   spawn_robot (graph w) v (fleet w) = (Returned false, fleet w))
  ∧ (NavGraph.is_charger vertex = true →
     (spawn_robot (graph w) v (fleet w)).1 = Returned true
     ∧ length (occupants (spawn_robot (graph w) v (fleet w)).2 v)
       = S (length (occupants (fleet w) v))).
Proof.
  intros w Hv.
  pose proof (run_ok ops _ (init_world_ok g)) as (_ & _ & _ & Hrec).
  fold w in Hrec.
  assert (v < length (NavGraph.vertices (graph w))) as Hlt.
  { apply lookup_lt_is_Some. eauto. }
  apply Nat.ltb_lt in Hlt.
  unfold spawn_robot, is_vertex_occupied. rewrite Hlt, Hv. simpl. split.
  - intros Hch Hocc. rewrite Hch.
    destruct (occupants (fleet w) v) as [|r rest] eqn:E; [done|].
    assert (r ∈ occupants (fleet w) v) as Hr by (rewrite E; by left).
    apply list_elem_of_filter in Hr as [Hc Hr].
    rewrite Forall_forall in Hrec.
    destruct (Hrec r Hr v Hc) as (here & -> & Hne).
    by destruct here.
  - intros Hch. rewrite Hch.
    assert (∀ o : outcome bool,
      o = Returned false →
      (match o with
       | Returned true => (Returned false, fleet w)
       | Returned false =>
           (Returned true,
            mk (robots (fleet w)
                ++ [Robot.set_current_vertex_idx (Some v)
                      (Robot.init (robot_id_counter (fleet w))
                         (NavGraph.x vertex) (NavGraph.y vertex))])
               (S (robot_id_counter (fleet w)))
               (<[v := default [] (occupied_vertices (fleet w) !! v)
                       ++ [length (robots (fleet w))]]>
                  (occupied_vertices (fleet w)))
               (occupied_lanes (fleet w)))
       | Raised e => (Raised e, fleet w)
       | Diverged => (Diverged, fleet w)
       end).1 = Returned true
      ∧ length (occupants
          (match o with
           | Returned true => (Returned false, fleet w)
           | Returned false =>
               (Returned true,
                mk (robots (fleet w)
                    ++ [Robot.set_current_vertex_idx (Some v)
                          (Robot.init (robot_id_counter (fleet w))
                             (NavGraph.x vertex) (NavGraph.y vertex))])
                   (S (robot_id_counter (fleet w)))
                   (<[v := default [] (occupied_vertices (fleet w) !! v)
                           ++ [length (robots (fleet w))]]>
                      (occupied_vertices (fleet w)))
                   (occupied_lanes (fleet w)))
           | Raised e => (Raised e, fleet w)
           | Diverged => (Diverged, fleet w)
           end).2 v) = S (length (occupants (fleet w) v))) as Hgo.
    { intros o ->. split; [done|]. unfold occupants. simpl.
      rewrite filter_app, length_app. simpl.
      rewrite filter_cons_True by done. simpl. lia. }
    apply Hgo. by destruct (occupied_vertices (fleet w) !! v).
Qed.

(** C2 on [line3] with a robot parked at vertex 0. *)
Lemma spawn_respects_occupancy_witness :
  spawn_robot line3 0 (fleet (run (init_world line3) [OpSpawn 0]))
  = (Returned false, fleet (run (init_world line3) [OpSpawn 0])).
Proof.
  refine (proj1 (spawn_respects_occupancy line3 [OpSpawn 0] 0
                   (NavGraph.mkVertex 0 0 false) eq_refl) eq_refl _).
  vm_compute. discriminate.
Defined.

End Coordinator.

(** * Invariants of every robot of a reachable fleet *)

Module FleetInv.
Import FleetManager.
Import RobotFacts.
Import RobotInv.
Import FleetFacts.
Import WorldInv.

(** On a robot that fits the graph the body of the first loop is the
    dispatch on its status. *)
Lemma update_robot_dispatch g i r occ o r1 occ' :
  robot_ok g r →
  update_robot g i r occ = (o, r1, occ') →
  r1 = (dispatch g r).2.
Proof.
  intros Hok. pose proof Hok as (_ & (c & Hc & Hcn) & _).
  unfold update_robot. rewrite Hc.
  destruct (Nat.leb_spec (length (NavGraph.vertices g)) c); [lia|].
  destruct (dispatch g r) as [[[]|e|] r'] eqn:E; simpl.
  - intros Hr. pose proof (register_robot i r' occ) as Hreg.
    rewrite Hr in Hreg. done.
  - by intros [= _ <- _].
  - by intros [= _ <- _].
Qed.

(** Every robot after a tick on a well-formed fleet, traced back. *)
Lemma update_lookup_back w fm' j r' :
  world_ok w →
  update (graph w) (fleet w) = (Returned (), fm') →
  robots fm' !! j = Some r' →
  ∃ r lanes,
    robots (fleet w) !! j = Some r
    ∧ robot_ok (graph w) r
    ∧ r' = Robot.set_log [] (reserve_lane j (dispatch (graph w) r).2 lanes).1.
Proof.
  intros Hok Hu Hj'. pose proof Hok as (Hall & _).
  assert (length (robots fm') = length (robots (fleet w))) as Hlen.
  { unfold update in Hu.
    pose proof (update_positions_length (graph w) (robots (fleet w)) 0
      (empty_occupancy (length (NavGraph.vertices (graph w))))) as Hl1.
    destruct (update_positions _ _ _ _) as [[[[]| |] rs1] occ1]; try done.
    pose proof (reserve_lanes_length rs1 0 ∅) as Hl2.
    destruct (reserve_lanes 0 rs1 ∅) as [rs2 lanes2].
    injection Hu as <-. simpl in *. by rewrite length_fmap, Hl2, Hl1. }
  assert (is_Some (robots (fleet w) !! j)) as [r Hj].
  { apply lookup_lt_is_Some. rewrite <- Hlen. apply lookup_lt_is_Some. eauto. }
  destruct (update_returned_lookup _ _ _ _ _ Hu Hj)
    as (r1 & oj & oj' & lj & Hr1 & Hl).
  assert (robot_ok (graph w) r) as Hr by (by eapply Forall_lookup in Hall).
  apply update_robot_dispatch in Hr1; [|done]. subst r1.
  exists r, lj. rewrite Hl in Hj'. by injection Hj' as <-.
Qed.

(** The robots after a task assignment by the fleet manager. *)
Lemma assign_task_robots_cases g robot_id d fm :
  robots (assign_task g robot_id d fm).2 = robots fm
  ∨ ∃ k r0,
      robots fm !! k = Some r0
      ∧ d < length (NavGraph.vertices g)
      ∧ (robots (assign_task g robot_id d fm).2
         = <[k := (Robot.assign_task d g r0).2]> (robots fm)
         ∨ (Robot.assign_task d g r0).1 = Returned true
           ∧ robots (assign_task g robot_id d fm).2
             = <[k := Robot.set_status MOVING (Robot.assign_task d g r0).2]>
                 (robots fm)).
Proof.
  unfold assign_task.
  destruct (find_robot 0 (robots fm) robot_id) as [[i r]|] eqn:Ef;
    [|by left].
  apply find_robot_lookup in Ef as (k & -> & Hk). simpl.
  destruct (Robot.current_vertex_idx r); [|by left].
  destruct (NavGraph.vertices g !! d) as [dv|] eqn:Ed; [|by left].
  assert (d < length (NavGraph.vertices g)) as Hd.
  { apply lookup_lt_is_Some. eauto. }
  destruct (if NavGraph.is_charger dv then _ else _) as [[|]| |];
    try by left.
  right. exists k, r. split; [done|]. split; [done|].
  destruct (Robot.assign_task d g r) as [[[|]| |] r']; simpl; auto.
Qed.

Section RobotInvariant.

Variable P : NavGraph.t → Robot.t → Prop.

Hypothesis P_spawn : ∀ g v vertex robot_id,
  NavGraph.vertices g !! v = Some vertex →
  P g (Robot.set_current_vertex_idx (Some v)
         (Robot.init robot_id (NavGraph.x vertex) (NavGraph.y vertex))).
Hypothesis P_assign : ∀ g d r,
  robot_ok g r → d < length (NavGraph.vertices g) → P g r →
  P g (Robot.assign_task d g r).2.
Hypothesis P_moving : ∀ g d r,
  (Robot.assign_task d g r).1 = Returned true →
  P g (Robot.assign_task d g r).2 →
  P g (Robot.set_status MOVING (Robot.assign_task d g r).2).
Hypothesis P_dispatch : ∀ g r, robot_ok g r → P g r → P g (dispatch g r).2.
Hypothesis P_reserve : ∀ g i r lanes,
  P g r → P g (Robot.set_log [] (reserve_lane i r lanes).1).

Lemma exec_robots_inv w op :
  world_ok w →
  Forall (P (graph w)) (robots (fleet w)) →
  Forall (P (graph (exec w op))) (robots (fleet (exec w op))).
Proof.
  intros Hok HP. pose proof Hok as (Hall & _).
  destruct op as [v|robot_id d| |level]; simpl.
  - unfold spawn_robot. destruct (negb _); [done|].
    destruct (is_vertex_occupied _ _ _) as [[|]| |]; try done.
    destruct (NavGraph.vertices (graph w) !! v) as [vertex|] eqn:Ev; [|done].
    simpl. apply Forall_app. split; [done|].
    constructor; [|constructor]. by eapply P_spawn.
  - destruct (assign_task_robots_cases (graph w) robot_id d (fleet w))
      as [->|(k & r0 & Hk & Hd & [->|[Ht ->]])]; [done|..].
    + apply Forall_insert; [done|]. apply P_assign; [|done|].
      * by eapply Forall_lookup in Hall.
      * by eapply Forall_lookup in HP.
    + apply Forall_insert; [done|]. apply P_moving; [done|].
      apply P_assign; [|done|].
      * by eapply Forall_lookup in Hall.
      * by eapply Forall_lookup in HP.
  - destruct (update_ok w Hok) as (fm' & Hu & _). rewrite Hu. simpl.
    apply Forall_lookup. intros j r' Hj'.
    destruct (update_lookup_back w fm' j r' Hok Hu Hj')
      as (r & lanes & Hj & Hr & ->).
    apply P_reserve, P_dispatch; [done|]. by eapply Forall_lookup in HP.
  - constructor.
Qed.

Lemma run_robots_inv g ops :
  Forall (P (graph (run (init_world g) ops)))
    (robots (fleet (run (init_world g) ops))).
Proof.
  assert (∀ ops w, world_ok w → Forall (P (graph w)) (robots (fleet w)) →
            Forall (P (graph (run w ops))) (robots (fleet (run w ops))))
    as Hrun.
  { clear ops. induction ops as [|op ops IH]; intros w Hok HP; [done|].
    simpl. apply IH; [by apply exec_ok|by apply exec_robots_inv]. }
  apply Hrun; [apply init_world_ok|constructor].
Qed.

End RobotInvariant.


(** ** Lane, progress and charging *)

Lemma _move_to_next_vertex_steady g r :
  Robot.status r ≠ CHARGING → lane_real g r → progress_ok r →
  Robot.status (Robot._move_to_next_vertex g r) ≠ CHARGING
  ∧ lane_real g (Robot._move_to_next_vertex g r)
  ∧ progress_ok (Robot._move_to_next_vertex g r).
Proof.
  intros Hs Hl (Hp0 & Hp1 & Hsp). unfold Robot._move_to_next_vertex.
  destruct (Robot.path r) as [|s [|e rest]]; try done.
  destruct (NavGraph.connected g s e) eqn:Ec; simpl.
  - split; [done|]. split; [by intros a b [= <- <-]|].
    unfold progress_ok. simpl. split_and!; [lra|lra|done].
  - split; [done|]. split; [done|].
    unfold progress_ok. simpl. split_and!; [lra|lra|done].
Qed.

Lemma assign_task_steady d g r :
  steady g r → steady g (Robot.assign_task d g r).2.
Proof.
  intros (Hl & Hp & Hc). unfold Robot.assign_task.
  case_decide as Hs; [done|].
  destruct (Robot.current_vertex_idx r) as [c|]; [|done].
  destruct (NavGraph.find_shortest_path g c d) as [[|a p]| |]; try done.
  simpl.
  match goal with
  | |- steady g (Robot.log_append _ (Robot._move_to_next_vertex g ?r1)) =>
      destruct (_move_to_next_vertex_steady g r1) as (Hs' & Hl' & Hp');
        [done..|]
  end.
  split; [done|]. split; [done|]. intros Hch. done.
Qed.

Lemma assign_task_moving_steady d g r :
  steady g (Robot.assign_task d g r).2 →
  steady g (Robot.set_status MOVING (Robot.assign_task d g r).2).
Proof. intros (Hl & Hp & Hc). split; [done|]. split; [done|]. done. Qed.

Lemma Qle_bool_false a b : Qle_bool a b = false → (b < a)%Q.
Proof.
  intros H. apply Qnot_le_lt. intros Hle%Qle_bool_iff. congruence.
Qed.

Lemma advance_steady g e va vb r :
  NavGraph.vertices g !! e = Some vb →
  Robot.status r = MOVING → lane_real g r → progress_ok r →
  steady g (Robot.advance g e va vb r).
Proof.
  intros Hvb Hs Hl (Hp0 & Hp1 & Hsp). unfold Robot.advance. simpl.
  destruct (Qle_bool 1 (Robot.progress r + Robot.speed r)) eqn:Ep.
  - destruct (NavGraph.is_charger vb && Qltb (Robot.battery r) 50) eqn:Ech.
    + apply andb_true_iff in Ech as [Hch Hb]. apply Qltb_lt in Hb.
      split; [done|]. split.
      * unfold progress_ok. simpl. split_and!; [lra|lra|done].
      * intros _. simpl. split; [lra|]. eauto.
    + destruct (Robot.path r) eqn:Epath.
      * split; [done|]. split; [|done].
        unfold progress_ok. simpl. split_and!; [lra|lra|done].
      * match goal with
        | |- steady g (Robot._move_to_next_vertex g ?r1) =>
            destruct (_move_to_next_vertex_steady g r1) as (Hs' & Hl' & Hp')
        end.
        -- simpl. congruence.
        -- done.
        -- unfold progress_ok. simpl. split_and!; [lra|lra|done].
        -- split; [done|]. split; [done|]. intros ?. done.
  - apply Qle_bool_false in Ep. split; [done|]. split.
    + unfold progress_ok. simpl. rewrite Hsp in *. split_and!; [lra|lra|done].
    + intros Hch. simpl in Hch. congruence.
Qed.

Lemma consume_battery_steady g r :
  Robot.status r = MOVING → steady g r →
  steady g (Robot.consume_battery g r).2.
Proof.
  intros Hs (Hl & Hp & Hc). unfold Robot.consume_battery.
  set (r1 := Robot.set_battery _ r).
  assert (steady g r1) as Hr1.
  { split; [done|]. split; [done|]. intros Hch. simpl in Hch. congruence. }
  destruct (Qltb (Robot.battery r1) 20); [|done].
  destruct (Robot.chargers_from 0 (NavGraph.vertices g)) as [|c rest];
    [done|].
  set (nearest := Robot.nearest_of _ c rest).
  pose proof (assign_task_steady nearest g r1 Hr1) as Ha.
  by destruct (Robot.assign_task nearest g r1) as [[b|e|] r'].
Qed.

Lemma update_position_steady g r :
  steady g r → steady g (Robot.update_position g r).2.
Proof.
  intros Hst. pose proof Hst as (Hl & Hp & Hc). unfold Robot.update_position.
  case_decide as Hs; [done|].
  assert (Robot.status r = MOVING) as Hm by (by destruct (Robot.status r)).
  destruct (Robot.current_lane r) as [[a b]|] eqn:El.
  2:{ simpl.
      destruct (_move_to_next_vertex_steady g r) as (Hs' & Hl' & Hp');
        [congruence|done..|].
      unfold steady. split_and!; try done; by intros ?. }
  destruct (NavGraph.vertices g !! a) as [va|]; [|done].
  destruct (NavGraph.vertices g !! b) as [vb|] eqn:Eb; [|done].
  cbv zeta.
  assert (steady g (Robot.advance g b va vb r)) as Hadv.
  { by apply advance_steady. }
  case_decide; [|done]. by apply consume_battery_steady.
Qed.

Lemma update_charging_steady g r :
  steady g r → steady g (Robot.update_charging r).
Proof.
  intros (Hl & Hp & Hc). unfold Robot.update_charging.
  case_decide as Hs; [|done]. simpl.
  destruct (Qle_bool 95 _) eqn:E.
  - split; [done|]. split; [done|]. intros ?. done.
  - apply Qle_bool_false in E. split; [done|]. split; [done|].
    intros _. simpl. split; [done|]. by apply Hc.
Qed.

Lemma dispatch_steady g r : steady g r → steady g (dispatch g r).2.
Proof.
  intros Hst. unfold dispatch. case_decide.
  - by apply update_charging_steady.
  - case_decide; [|done]. by apply update_position_steady.
Qed.

Lemma reserve_lane_steady g i r lanes :
  steady g r → steady g (Robot.set_log [] (reserve_lane i r lanes).1).
Proof.
  intros (Hl & Hp & Hc). unfold reserve_lane.
  destruct (claimed_lane r) as [k|] eqn:Ek; [|done].
  assert (Robot.status r = MOVING) as Hm.
  { unfold claimed_lane in Ek. by case_decide. }
  destruct (lanes !! k); [|done]. case_decide; [|done].
  split; [done|]. split; [done|]. intros ?. done.
Qed.

Lemma reachable_steady g ops :
  Forall (steady (graph (run (init_world g) ops)))
    (robots (fleet (run (init_world g) ops))).
Proof.
  apply (run_robots_inv steady).
  - intros g0 v vertex robot_id Hv. split; [done|]. split; [|done].
    unfold progress_ok. simpl. split_and!; [lra|lra|done].
  - intros g0 d r _ _. apply assign_task_steady.
  - intros g0 d r _. apply assign_task_moving_steady.
  - intros g0 r _. apply dispatch_steady.
  - intros g0 i r lanes. apply reserve_lane_steady.
Qed.

End FleetInv.

(** * Further properties of the fleet manager *)

Module FleetMore.
Import FleetManager.
Import RobotFacts.
Import RobotInv.
Import FleetFacts.
Import WorldInv.
Import FleetInv.

Lemma spawn_robot_returns w v :
  world_ok w → ∃ b, (spawn_robot (graph w) v (fleet w)).1 = Returned b.
Proof.
  intros _. unfold spawn_robot.
  destruct (Nat.ltb_spec v (length (NavGraph.vertices (graph w))))
    as [Hv|Hv]; [|by eauto].
  destruct (lookup_lt_is_Some_2 _ _ Hv) as [vertex Hvertex].
  unfold is_vertex_occupied. rewrite Hvertex. simpl.
  destruct (occupied_vertices (fleet w) !! v) as [here|];
    [destruct (NavGraph.is_charger vertex);
     [|destruct (0 <? length here)]|]; simpl; eauto.
Qed.

Lemma assign_task_returns w robot_id d :
  world_ok w →
  ∃ b, (assign_task (graph w) robot_id d (fleet w)).1 = Returned b.
Proof.
  intros (Hall & _). unfold assign_task.
  destruct (find_robot 0 (robots (fleet w)) robot_id) as [[i r]|] eqn:Ef;
    [|by eauto].
  apply find_robot_lookup in Ef as (k & -> & Hk). simpl.
  destruct (Robot.current_vertex_idx r) eqn:Ec; [|by eauto].
  destruct (NavGraph.vertices (graph w) !! d) as [dv|] eqn:Ed; [|by eauto].
  assert (d < length (NavGraph.vertices (graph w))) as Hd.
  { apply lookup_lt_is_Some. eauto. }
  assert (∃ b, (if NavGraph.is_charger dv then Returned false
                else is_vertex_occupied (graph w) d (fleet w)) = Returned b)
    as [b ->].
  { destruct (NavGraph.is_charger dv) eqn:Ech; [by eauto|].
    unfold is_vertex_occupied. rewrite Ed, Ech.
    destruct (occupied_vertices (fleet w) !! d); eauto. }
  destruct b; [by eauto|].
  assert (robot_ok (graph w) r) as Hr by (by eapply Forall_lookup in Hall).
  destruct (assign_task_ok d (graph w) r Hr Hd) as (b & r' & -> & _).
  destruct b; simpl; eauto.
Qed.

(** No operation raises on a fleet the host can reach: the tick returns,
    and spawning and task assignment return [True] or [False]. *)
Theorem reachable_operations_return (g : NavGraph.t) (ops : list Op) :
  (update (graph (run (init_world g) ops))
     (fleet (run (init_world g) ops))).1 = Returned ()
  ∧ (∀ v, ∃ b,
       (spawn_robot (graph (run (init_world g) ops)) v
          (fleet (run (init_world g) ops))).1 = Returned b)
  ∧ (∀ robot_id d, ∃ b,
       (assign_task (graph (run (init_world g) ops)) robot_id d
          (fleet (run (init_world g) ops))).1 = Returned b).
Proof.
  pose proof (run_ok ops _ (init_world_ok g)) as Hok. split; [|split].
  - by destruct (update_ok _ Hok) as (fm' & -> & _).
  - intros v. by apply spawn_robot_returns.
  - intros robot_id d. by apply assign_task_returns.
Qed.

(** In a reachable fleet every robot stands on a vertex of the current
    graph, the lane it is on is a lane of that graph, and its remaining
    path stays inside the graph. *)
Theorem reachable_robots_positioned (g : NavGraph.t) (ops : list Op)
    (r : Robot.t) :
  r ∈ robots (fleet (run (init_world g) ops)) →
  (∃ c, Robot.current_vertex_idx r = Some c
        ∧ c < length (NavGraph.vertices (graph (run (init_world g) ops))))
  ∧ (∀ a b, Robot.current_lane r = Some (a, b) →
       a < length (NavGraph.vertices (graph (run (init_world g) ops)))
       ∧ b < length (NavGraph.vertices (graph (run (init_world g) ops)))
       ∧ NavGraph.connected (graph (run (init_world g) ops)) a b = true)
  ∧ Forall (λ v, v < length (NavGraph.vertices
                               (graph (run (init_world g) ops))))
      (Robot.path r).
Proof.
  intros Hr.
  pose proof (run_ok ops _ (init_world_ok g)) as (Hall & _).
  pose proof (reachable_steady g ops) as Hst.
  rewrite Forall_forall in Hall, Hst.
  destruct (Hall r Hr) as (_ & Hc & Hl & Hp).
  destruct (Hst r Hr) as (Hreal & _).
  split; [done|]. split; [|done].
  intros a b Hab. destruct (Hl a b Hab). split_and!; try done.
  by apply Hreal.
Qed.

Lemma reachable_robots_positioned_witness :
  ∃ c, Robot.current_vertex_idx
         (Robot.set_current_vertex_idx (Some 2) (Robot.init 1 2 0)) = Some c
       ∧ c < length (NavGraph.vertices
                       (graph (run (init_world line3) [OpSpawn 2]))).
Proof.
  refine (proj1 (reachable_robots_positioned line3 [OpSpawn 2] _ _)).
  vm_compute. constructor.
Defined.

(** In a reachable fleet the progress of every robot lies in [0, 1) and
    its speed is the 0.05 it was created with. *)
Theorem reachable_progress_bounds (g : NavGraph.t) (ops : list Op)
    (r : Robot.t) :
  r ∈ robots (fleet (run (init_world g) ops)) →
  (0 <= Robot.progress r)%Q ∧ (Robot.progress r < 1)%Q
  ∧ Robot.speed r = 0.05%Q.
Proof.
  intros Hr. pose proof (reachable_steady g ops) as Hst.
  rewrite Forall_forall in Hst. by destruct (Hst r Hr) as (_ & ? & _).
Qed.

Lemma reachable_progress_bounds_witness :
  Forall (λ r, (0 <= Robot.progress r)%Q ∧ (Robot.progress r < 1)%Q
               ∧ Robot.speed r = 0.05%Q)
    (robots (head_on_after 3)).
Proof.
  apply Forall_forall.
  exact (reachable_progress_bounds line4
           ([OpSpawn 0; OpSpawn 1; OpAssign 1 3; OpAssign 2 2] ++ ticks 3)).
Defined.

(** In a reachable fleet a robot is [CHARGING] only while it stands on a
    charger vertex and its battery is below 95. *)
Theorem reachable_charging_at_charger (g : NavGraph.t) (ops : list Op)
    (r : Robot.t) :
  r ∈ robots (fleet (run (init_world g) ops)) →
  Robot.status r = CHARGING →
  (Robot.battery r < 95)%Q
  ∧ ∃ c v, Robot.current_vertex_idx r = Some c
           ∧ NavGraph.vertices (graph (run (init_world g) ops)) !! c = Some v
           ∧ NavGraph.is_charger v = true.
Proof.
  intros Hr Hs. pose proof (reachable_steady g ops) as Hst.
  rewrite Forall_forall in Hst. destruct (Hst r Hr) as (_ & _ & Hc).
  by apply Hc.
Qed.

Lemma worn_out_charging :
  ∃ r, robots (fleet (run (init_world chargers2) worn_out_ops)) !! 0 = Some r
       ∧ Robot.status r = CHARGING.
Proof. vm_compute. eexists. split; reflexivity. Qed.

Lemma reachable_charging_at_charger_witness :
  ∃ r, robots (fleet (run (init_world chargers2) worn_out_ops)) !! 0 = Some r
       ∧ Robot.status r = CHARGING
       ∧ (Robot.battery r < 95)%Q.
Proof.
  destruct worn_out_charging as (r & Hr & Hs).
  exists r. split; [exact Hr|]. split; [exact Hs|].
  exact (proj1 (reachable_charging_at_charger chargers2 worn_out_ops r
                  (list_elem_of_lookup_2 _ _ _ Hr) Hs)).
Defined.

(** A tick neither adds nor removes a robot and changes no id, on any
    fleet and whether it returns or raises; no other operation than a
    level change removes a robot or changes an id. *)
Theorem robots_persist (w : World) (op : Op) :
  (op = OpTick →
   Robot.id <$> robots (fleet (exec w op)) = Robot.id <$> robots (fleet w)
   ∧ robot_id_counter (fleet (exec w op)) = robot_id_counter (fleet w))
  ∧ (is_load op = false →
     ∃ extra,
       Robot.id <$> robots (fleet (exec w op))
       = (Robot.id <$> robots (fleet w)) ++ extra).
Proof.
  assert (Robot.id <$> robots (update (graph w) (fleet w)).2
          = Robot.id <$> robots (fleet w)) as Htick.
  { unfold update.
    pose proof (update_positions_ids (graph w) (robots (fleet w)) 0
      (empty_occupancy (length (NavGraph.vertices (graph w))))) as H1.
    destruct (update_positions _ _ _ _) as [[o rs1] occ1]. simpl in H1.
    destruct o as [[]| |]; try done.
    pose proof (reserve_lanes_ids rs1 0 ∅) as H2.
    destruct (reserve_lanes 0 rs1 ∅) as [rs2 lanes2]. simpl in *.
    by rewrite H2. }
  split.
  - intros ->. simpl. split; [done|]. apply Coordinator.update_counter.
  - intros Hop. destruct op as [v|robot_id d| |level]; simpl; [..|done].
    + destruct (Coordinator.spawn_robot_robots (graph w) v (fleet w))
        as [extra ->].
      exists (Robot.id <$> extra). by rewrite fmap_app.
    + exists []. rewrite app_nil_r.
      destruct (assign_task_robots_cases (graph w) robot_id d (fleet w))
        as [->|(k & r0 & Hk & _ & [->|[_ ->]])]; [done|..];
        rewrite list_fmap_insert; simpl;
        destruct (assign_task_battery d (graph w) r0) as [_ ->];
        apply list_insert_id; by rewrite list_lookup_fmap, Hk.
    + exists []. by rewrite app_nil_r.
Qed.

End FleetMore.

(** * Further properties of the navigation graph *)

Module NavGraphMore.
Import NavGraph.
Import NavGraphFacts.

Lemma lane_connects_sym lane u v :
  lane_connects lane u v = lane_connects lane v u.
Proof.
  unfold lane_connects.
  destruct (start_idx lane =? u), (end_idx lane =? v),
    (end_idx lane =? u), (start_idx lane =? v); done.
Qed.

Lemma connected_sym g u v : connected g u v = connected g v u.
Proof.
  unfold connected. induction (lanes g) as [|lane ls IH]; [done|].
  simpl. by rewrite IH, lane_connects_sym.
Qed.

(** Lanes are two-way: [v] is listed among the neighbours of [u] exactly
    when some lane joins the two, in either direction, and then [u] is
    listed among the neighbours of [v]. *)
Theorem adjacency_symmetric (g : t) (u v : nat) :
  (v ∈ get_adjacent_vertices g u
   ↔ ∃ lane, lane ∈ lanes g
             ∧ (start_idx lane = u ∧ end_idx lane = v
                ∨ start_idx lane = v ∧ end_idx lane = u))
  ∧ (v ∈ get_adjacent_vertices g u ↔ u ∈ get_adjacent_vertices g v).
Proof.
  split.
  - rewrite adjacent_connected. unfold connected.
    rewrite existsb_exists. split.
    + intros (lane & Hin & Hc). exists lane.
      split; [by apply list_elem_of_In|].
      unfold lane_connects in Hc.
      apply orb_true_iff in Hc as [Hc|Hc];
        apply andb_true_iff in Hc as [H1 H2];
        apply Nat.eqb_eq in H1, H2; auto.
    + intros (lane & Hin & Hc). exists lane.
      split; [by apply list_elem_of_In|].
      unfold lane_connects. apply orb_true_iff.
      destruct Hc as [[<- <-]|[<- <-]]; rewrite !Nat.eqb_refl; auto.
  - by rewrite !adjacent_connected, connected_sym.
Qed.

Lemma lane_path_app_cons g l1 v l2 :
  lane_path g (l1 ++ v :: l2)
  ↔ lane_path g (l1 ++ [v]) ∧ lane_path g (v :: l2).
Proof.
  induction l1 as [|a l1 IH].
  - simpl. destruct l2; tauto.
  - destruct l1 as [|b l1].
    + simpl in *. destruct l2; tauto.
    + rewrite <- !app_comm_cons, !lane_path_cons_cons.
      rewrite !app_comm_cons, IH. tauto.
Qed.

(** A lane-path read backwards is a lane-path. *)
Lemma path_from_to_reverse g a b p :
  path_from_to g a b p → path_from_to g b a (reverse p).
Proof.
  intros (Hh & Hl & Hp). split; [|split].
  - by rewrite head_reverse.
  - by rewrite last_reverse.
  - clear Hh Hl. induction p as [|u p IH]; [done|].
    rewrite reverse_cons. apply lane_path_snoc.
    rewrite last_reverse. destruct p as [|w p].
    + simpl in *. tauto.
    + apply lane_path_cons_cons in Hp as (? & ? & ?).
      split; [done|]. simpl. split; [by rewrite connected_sym|by apply IH].
Qed.

(** The search finds routes of the same length in both directions: on
    in-range vertices [find_shortest_path a b] and [find_shortest_path b a]
    both return, and the two lists have the same length (both empty when
    no lane-path joins [a] and [b]). *)
Theorem find_shortest_path_symmetric (g : t) (a b : nat) :
  a < length (vertices g) → b < length (vertices g) →
  ∃ p q, find_shortest_path g a b = Returned p
         ∧ find_shortest_path g b a = Returned q
         ∧ length p = length q.
Proof.
  intros Ha Hb.
  destruct (find_shortest_path_result g a b Ha Hb)
    as [[-> Hnone]|(p & -> & Hp & Hmin)];
    destruct (find_shortest_path_result g b a Hb Ha)
      as [[-> Hnone']|(q & -> & Hq & Hmin')].
  - by exists [], [].
  - by apply path_from_to_reverse, Hnone in Hq.
  - by apply path_from_to_reverse, Hnone' in Hp.
  - exists p, q. split; [done|]. split; [done|].
    apply path_from_to_reverse in Hp as Hp'.
    apply path_from_to_reverse in Hq as Hq'.
    apply Hmin in Hq'. apply Hmin' in Hp'.
    rewrite length_reverse in Hp', Hq'. lia.
Qed.

Lemma find_shortest_path_symmetric_witness :
  ∃ p q, find_shortest_path line4 2 3 = Returned p
         ∧ find_shortest_path line4 3 2 = Returned q
         ∧ length p = length q.
Proof.
  apply (find_shortest_path_symmetric line4 2 3); simpl; lia.
Defined.

(** [find_shortest_path] raises exactly when the two indices differ and
    one of them is out of range, and then it is [IndexError]; with equal
    indices it returns the one-vertex list even for an index outside the
    graph. *)
Theorem find_shortest_path_raises (g : t) (a b : nat) :
  (a = b → find_shortest_path g a b = Returned [a])
  ∧ (a ≠ b →
     length (vertices g) ≤ a ∨ length (vertices g) ≤ b →
     find_shortest_path g a b = Raised IndexError)
  ∧ ((∃ e, find_shortest_path g a b = Raised e) →
     a ≠ b ∧ (length (vertices g) ≤ a ∨ length (vertices g) ≤ b)).
Proof.
  split; [|split].
  - intros ->. unfold find_shortest_path. by rewrite Nat.eqb_refl.
  - intros Hne Hout. unfold find_shortest_path.
    apply Nat.eqb_neq in Hne. rewrite Hne.
    destruct (Nat.ltb_spec a (length (vertices g))) as [Ha|Ha]; [|done].
    simpl. destruct (dijkstra_loop _ _ _ _ _ _) as [d p].
    destruct Hout as [?|Hb]; [lia|]. apply Nat.ltb_ge in Hb.
    by rewrite Hb.
  - intros [e He].
    destruct (Nat.lt_ge_cases a (length (vertices g))) as [Ha|Ha];
      destruct (Nat.lt_ge_cases b (length (vertices g))) as [Hb|Hb].
    + destruct (find_shortest_path_result g a b Ha Hb)
        as [[E _]|(p & E & _)]; congruence.
    + split; [lia|auto].
    + split; [|auto]. intros ->. unfold find_shortest_path in He.
      by rewrite Nat.eqb_refl in He.
    + split; [|auto]. intros ->. unfold find_shortest_path in He.
      by rewrite Nat.eqb_refl in He.
Qed.

Lemma find_shortest_path_raises_witness :
  find_shortest_path line3 0 7 = Raised IndexError.
Proof.
  apply (find_shortest_path_raises line3 0 7); [lia|]. right. simpl. lia.
Defined.

(** A list with a repeated element splits around the repetition. *)
Lemma dup_split (p : list nat) :
  ¬ NoDup p → ∃ p1 v p2 p3, p = p1 ++ v :: p2 ++ v :: p3.
Proof.
  induction p as [|x p IH]; intros Hnd.
  - destruct Hnd. constructor.
  - destruct (decide (x ∈ p)) as [Hin|Hin].
    + apply list_elem_of_split in Hin as (l1 & l2 & ->).
      by exists [], x, l1, l2.
    + destruct IH as (p1 & v & p2 & p3 & ->).
      { intros Hp. apply Hnd. by constructor. }
      by exists (x :: p1), v, p2, p3.
Qed.

(** Cutting the loop out of a lane-path leaves a lane-path with the same
    ends. *)
Lemma path_from_to_cut g a b p1 v p2 p3 :
  path_from_to g a b (p1 ++ v :: p2 ++ v :: p3) →
  path_from_to g a b (p1 ++ v :: p3).
Proof.
  intros (Hh & Hl & Hp). split; [|split].
  - by destruct p1.
  - rewrite last_app_cons in Hl. rewrite last_app_cons.
    change (v :: p2 ++ v :: p3) with ((v :: p2) ++ v :: p3) in Hl.
    by rewrite last_app_cons in Hl.
  - apply lane_path_app_cons in Hp as [H1 H2].
    change (v :: p2 ++ v :: p3) with ((v :: p2) ++ v :: p3) in H2.
    apply lane_path_app_cons in H2 as [_ H2].
    by apply lane_path_app_cons.
Qed.

(** The route returned on in-range vertices visits no vertex twice and
    has at most as many vertices as the graph. *)
Theorem find_shortest_path_simple (g : t) (a b : nat) (p : list nat) :
  a < length (vertices g) → b < length (vertices g) →
  find_shortest_path g a b = Returned p →
  NoDup p ∧ length p ≤ length (vertices g).
Proof.
  intros Ha Hb Hf.
  assert (NoDup p ∧ Forall (λ v, v < length (vertices g)) p) as [Hnd Hall].
  { destruct (find_shortest_path_result g a b Ha Hb)
      as [[E _]|(p' & E & Hp & Hmin)]; rewrite Hf in E; injection E as ->.
    { split; constructor. }
    split; [|by apply RobotInv.lane_path_in_range, Hp].
    destruct (decide (NoDup p')) as [|Hdup]; [done|].
    apply dup_split in Hdup as (p1 & v & p2 & p3 & ->).
    apply path_from_to_cut, Hmin in Hp.
    rewrite !length_app in Hp. simpl in Hp. rewrite length_app in Hp.
    simpl in Hp. lia. }
  split; [done|].
  transitivity (length (seq 0 (length (vertices g))));
    [|by rewrite length_seq].
  apply submseteq_length, NoDup_submseteq; [done|].
  intros x Hx. rewrite Forall_forall in Hall. apply elem_of_seq.
  specialize (Hall x Hx). lia.
Qed.

Lemma find_shortest_path_simple_witness :
  NoDup [2; 0; 1; 3] ∧ length [2; 0; 1; 3] ≤ length (vertices line4).
Proof.
  apply (find_shortest_path_simple line4 2 3); [simpl; lia..|reflexivity].
Defined.

End NavGraphMore.

(** * Releasing reserved paths *)

Module TrafficManagerMore.
Import TrafficManager.
Import TrafficManagerFacts.

Lemma lane_keys_cons a b more :
  lane_keys (a :: b :: more) = lane_key a b :: lane_keys (b :: more).
Proof. done. Qed.

Lemma release_step_reservations robot tm a b last_step k :
  reservations (release_step robot tm a b last_step) !! k
  = if decide (k = lane_key a b ∧ reservations tm !! k = Some robot)
    then None else reservations tm !! k.
Proof.
  assert (reservations (release_step robot tm a b last_step)
          = match reservations tm !! lane_key a b with
            | Some holder =>
                if decide (holder = robot)
                then delete (lane_key a b) (reservations tm)
                else reservations tm
            | None => reservations tm
            end) as ->.
  { unfold release_step. destruct last_step; [done|].
    destruct (intersection_queues tm !! b); [|done]. by case_decide. }
  destruct (reservations tm !! lane_key a b) as [holder|] eqn:E.
  - destruct (decide (holder = robot)) as [->|Hne].
    + rewrite lookup_delete.
      destruct (decide (lane_key a b = k)) as [<-|Hne].
      * by rewrite decide_True.
      * rewrite decide_False; [done|]. intros [-> _]. done.
    + case_decide as H; [|done]. destruct H as [-> H]. congruence.
  - case_decide as H; [|done]. destruct H as [-> H]. congruence.
Qed.

Lemma release_path_reservations robot : ∀ path tm k,
  reservations (release_path robot path tm) !! k
  = if decide (k ∈ lane_keys path ∧ reservations tm !! k = Some robot)
    then None else reservations tm !! k.
Proof.
  induction path as [|a path IH]; intros tm k.
  { destruct (decide _) as [[H _]|_]; [by apply elem_of_nil in H|done]. }
  destruct path as [|b more].
  { destruct (decide _) as [[H _]|_]; [by apply elem_of_nil in H|done]. }
  change (release_path robot (a :: b :: more) tm)
    with (release_path robot (b :: more)
            (release_step robot tm a b (bool_decide (more = [])))).
  rewrite IH, release_step_reservations, lane_keys_cons.
  repeat case_decide; try done; rewrite ?elem_of_cons in *;
    exfalso; intuition congruence.
Qed.

Lemma remove_first_others robot q :
  filter (λ r, r ≠ robot) (remove_first robot q)
  = filter (λ r, r ≠ robot) q.
Proof.
  induction q as [|r q IH]; [done|]. simpl.
  destruct (decide (r = robot)) as [->|Hne].
  - by rewrite filter_cons_False by (intros ?; done).
  - by rewrite !filter_cons_True, IH by done.
Qed.

Lemma remove_first_absent robot q : robot ∉ q → remove_first robot q = q.
Proof.
  induction q as [|r q IH]; [done|]. intros Hin. simpl.
  rewrite not_elem_of_cons in Hin. destruct Hin as [Hne Hin].
  rewrite decide_False by done. by rewrite IH.
Qed.

(** The queue of a vertex after one step of the release loop. *)
Lemma release_step_queue robot tm a b last_step v :
  default [] (intersection_queues (release_step robot tm a b last_step) !! v)
  = if decide (v = b ∧ last_step = false)
    then remove_first robot (default [] (intersection_queues tm !! v))
    else default [] (intersection_queues tm !! v).
Proof.
  unfold release_step. destruct last_step.
  { simpl. case_decide as H; [by destruct H|done]. }
  destruct (intersection_queues tm !! b) as [q|] eqn:E.
  - destruct (decide (robot ∈ q)) as [Hin|Hin]; simpl.
    + rewrite lookup_insert. case_decide as Hv.
      * subst v. rewrite decide_True by done. by rewrite E.
      * rewrite decide_False; [done|]. intros [-> _]. done.
    + case_decide as Hv; [|done]. destruct Hv as [-> _]. rewrite E. simpl.
      by rewrite remove_first_absent.
  - simpl. case_decide as Hv; [|done]. destruct Hv as [-> _]. by rewrite E.
Qed.

Lemma inner_count_cons v a b c more :
  inner_count v (a :: b :: c :: more)
  = (if decide (b = v) then 1 else 0) + inner_count v (b :: c :: more).
Proof.
  unfold inner_count. rewrite intermediate_cons, filter_cons.
  by case_decide.
Qed.

Lemma release_path_queue robot : ∀ path tm v,
  default [] (intersection_queues (release_path robot path tm) !! v)
  = Nat.iter (inner_count v path) (remove_first robot)
      (default [] (intersection_queues tm !! v)).
Proof.
  induction path as [|a path IH]; intros tm v; [done|].
  destruct path as [|b more]; [done|].
  change (release_path robot (a :: b :: more) tm)
    with (release_path robot (b :: more)
            (release_step robot tm a b (bool_decide (more = [])))).
  rewrite IH, release_step_queue. destruct more as [|c more].
  - rewrite bool_decide_true by done.
    rewrite decide_False by (intros [_ ?]; done). done.
  - rewrite bool_decide_false by done. rewrite inner_count_cons.
    destruct (decide (b = v)) as [->|Hne].
    + rewrite decide_True by done. simpl.
      by rewrite <- Nat.iter_succ_r.
    + rewrite decide_False by (intros [? _]; done). done.
Qed.

Lemma reserve_step_queue robot tm a b last_step v :
  default [] (intersection_queues (reserve_step robot tm a b last_step) !! v)
  = default [] (intersection_queues tm !! v)
    ++ (if decide (v = b ∧ last_step = false) then [robot] else []).
Proof.
  unfold reserve_step. destruct last_step; simpl.
  { rewrite decide_False by (intros [_ ?]; done). by rewrite app_nil_r. }
  rewrite lookup_insert. case_decide as Hv.
  - subst v. by rewrite decide_True.
  - rewrite decide_False by (intros [? _]; done). by rewrite app_nil_r.
Qed.

Lemma reserve_path_queue robot : ∀ path tm v,
  default [] (intersection_queues (reserve_path robot tm path) !! v)
  = default [] (intersection_queues tm !! v)
    ++ replicate (inner_count v path) robot.
Proof.
  induction path as [|a path IH]; intros tm v.
  { simpl. by rewrite app_nil_r. }
  destruct path as [|b more].
  { simpl. by rewrite app_nil_r. }
  change (reserve_path robot tm (a :: b :: more))
    with (reserve_path robot
            (reserve_step robot tm a b (bool_decide (more = [])))
            (b :: more)).
  rewrite IH, reserve_step_queue. destruct more as [|c more].
  - rewrite bool_decide_true by done.
    rewrite decide_False by (intros [_ ?]; done). by rewrite app_nil_r.
  - rewrite bool_decide_false by done. rewrite inner_count_cons.
    destruct (decide (b = v)) as [->|Hne].
    + rewrite decide_True by done. by rewrite <- app_assoc.
    + rewrite decide_False by (intros [? _]; done). by rewrite app_nil_r.
Qed.

Lemma reserve_step_other robot tm a b last_step k :
  k ≠ lane_key a b →
  reservations (reserve_step robot tm a b last_step) !! k
  = reservations tm !! k.
Proof.
  intros Hk. unfold reserve_step.
  destruct last_step; simpl; by rewrite lookup_insert_ne.
Qed.

Lemma reserve_path_other robot : ∀ path tm k,
  k ∉ lane_keys path →
  reservations (reserve_path robot tm path) !! k = reservations tm !! k.
Proof.
  induction path as [|a path IH]; intros tm k Hk; [done|].
  destruct path as [|b more]; [done|].
  change (reserve_path robot tm (a :: b :: more))
    with (reserve_path robot
            (reserve_step robot tm a b (bool_decide (more = [])))
            (b :: more)).
  rewrite lane_keys_cons, not_elem_of_cons in Hk. destruct Hk as [Hne Hk].
  rewrite IH by done. by apply reserve_step_other.
Qed.

Lemma remove_first_app robot q l :
  robot ∉ q → remove_first robot (q ++ robot :: l) = q ++ l.
Proof.
  induction q as [|r q IH]; intros Hq; simpl.
  - by rewrite decide_True.
  - rewrite not_elem_of_cons in Hq. destruct Hq as [Hne Hq].
    rewrite decide_False by done. by rewrite IH.
Qed.

Lemma remove_first_replicate robot c q :
  robot ∉ q →
  Nat.iter c (remove_first robot) (q ++ replicate c robot) = q.
Proof.
  intros Hq. induction c as [|c IH]; [by rewrite app_nil_r|].
  rewrite Nat.iter_succ_r.
  change (replicate (S c) robot) with (robot :: replicate c robot).
  by rewrite remove_first_app.
Qed.


(** [release_path] removes exactly the robot's own reservations along the
    path: a lane key of the path held by the robot is freed, every other
    reservation is kept and none is added; and in every queue the other
    robots stay, in their order. *)
Theorem release_path_frame (robot : nat) (path : list nat) (tm : t) :
  (∀ k, reservations (release_path robot path tm) !! k
        = if decide (k ∈ lane_keys path ∧ reservations tm !! k = Some robot)
          then None else reservations tm !! k)
  ∧ (∀ v, filter (λ r, r ≠ robot)
            (default [] (intersection_queues
                           (release_path robot path tm) !! v))
          = filter (λ r, r ≠ robot)
              (default [] (intersection_queues tm !! v))).
Proof.
  split; [apply release_path_reservations|].
  intros v. rewrite release_path_queue.
  induction (inner_count v path) as [|c IH]; [done|].
  simpl. by rewrite remove_first_others.
Qed.

(** Shared by the next theorems: a granted request, unfolded. *)
Lemma request_path_granted robot path tm :
  (request_path robot path tm).1 = true →
  path_free robot tm path = true
  ∧ (request_path robot path tm).2 = reserve_path robot tm path.
Proof.
  unfold request_path. destruct path; [done|].
  by destruct (path_free robot tm _).
Qed.

Lemma request_path_refused robot path tm :
  path ≠ [] → path_free robot tm path = false →
  request_path robot path tm = (false, tm).
Proof.
  unfold request_path. destruct path; [done|]. by intros _ ->.
Qed.

(** Request then release is a round trip: after a granted
    [request_path] and the matching [release_path], every queue has the
    members it had before, the same request is granted again, and if no
    lane key of the path was reserved beforehand the reservation table is
    the one from before. *)
Theorem request_release_round_trip (robot : nat) (path : list nat) (tm : t) :
  (request_path robot path tm).1 = true →
  (∀ v, default [] (intersection_queues
                      (release_path robot path
                         (request_path robot path tm).2) !! v)
        = default [] (intersection_queues tm !! v))
  ∧ (request_path robot path
       (release_path robot path (request_path robot path tm).2)).1 = true
  ∧ ((∀ k, k ∈ lane_keys path → reservations tm !! k = None) →
     reservations (release_path robot path (request_path robot path tm).2)
     = reservations tm).
Proof.
  intros Hreq. assert (path ≠ []) as Hne by (by intros ->).
  apply request_path_granted in Hreq as [Hfree ->].
  apply path_free_spec in Hfree as Hspec. destruct Hspec as [Hks Hvs].
  destruct (reserve_path_spec robot path tm) as (Hres & _).
  assert (∀ v, default [] (intersection_queues
                 (release_path robot path (reserve_path robot tm path)) !! v)
               = default [] (intersection_queues tm !! v)) as Hq.
  { intros v. rewrite release_path_queue, reserve_path_queue.
    destruct (inner_count v path) as [|c] eqn:Ec.
    { simpl. by rewrite app_nil_r. }
    assert (v ∈ intermediate_vertices path) as Hv.
    { unfold inner_count in Ec.
      destruct (filter _ _) as [|u l] eqn:Ef; [done|].
      assert (u ∈ filter (λ u, u = v) (intermediate_vertices path)) as Hu
        by (rewrite Ef; by left).
      apply list_elem_of_filter in Hu as [Huv Hu]. by subst u. }
    assert (default [] (intersection_queues tm !! v) = []) as ->.
    { destruct (intersection_queues tm !! v) as [q|] eqn:E; [|done].
      simpl. by eapply Hvs. }
    apply (remove_first_replicate robot (S c) []), not_elem_of_nil. }
  assert (∀ k, k ∈ lane_keys path →
            reservations (release_path robot path
                            (reserve_path robot tm path)) !! k = None)
    as Hfreed.
  { intros k Hk. rewrite release_path_reservations.
    rewrite decide_True; [done|]. split; [done|by apply Hres]. }
  split; [done|]. split.
  - unfold request_path. destruct path as [|a path]; [done|].
    assert (path_free robot
              (release_path robot (a :: path)
                 (reserve_path robot tm (a :: path))) (a :: path) = true)
      as ->; [|done].
    apply path_free_spec. split.
    + intros k holder Hk Hh. by rewrite Hfreed in Hh.
    + intros v q Hv Hvq. specialize (Hq v). rewrite Hvq in Hq. simpl in Hq.
      rewrite Hq. destruct (intersection_queues tm !! v) eqn:E; [|done].
      simpl. by eapply Hvs.
  - intros Hnone. apply map_eq. intros k.
    destruct (decide (k ∈ lane_keys path)) as [Hk|Hk].
    + by rewrite Hfreed, Hnone.
    + rewrite release_path_reservations.
      rewrite decide_False by (intros [? _]; done).
      by apply reserve_path_other.
Qed.

Lemma request_release_round_trip_witness :
  (request_path 3 [0; 1; 2]
     (release_path 3 [0; 1; 2] (request_path 3 [0; 1; 2] (mk ∅ ∅)).2)).1
  = true.
Proof.
  apply (request_release_round_trip 3 [0; 1; 2] (mk ∅ ∅)). reflexivity.
Defined.

(** A granted path locks out the others: once [request_path] has been
    granted to a robot, a request by a different robot for any path that
    shares a lane key with it is refused and changes nothing. *)
Theorem request_path_excludes (r1 r2 : nat) (p q : list nat) (tm : t)
    (k : nat * nat) :
  (request_path r1 p tm).1 = true →
  r2 ≠ r1 → k ∈ lane_keys p → k ∈ lane_keys q →
  request_path r2 q (request_path r1 p tm).2
  = (false, (request_path r1 p tm).2).
Proof.
  intros Hreq Hne Hp Hq. apply request_path_granted in Hreq as [_ ->].
  destruct (reserve_path_spec r1 p tm) as (Hres & _).
  apply request_path_refused; [intros ->; by apply elem_of_nil in Hq|].
  apply not_true_is_false. intros [Hks _]%path_free_spec.
  specialize (Hks k r1 Hq (Hres k Hp)). congruence.
Qed.

Lemma request_path_excludes_witness :
  request_path 4 [2; 1; 0] (request_path 3 [0; 1; 5] (mk ∅ ∅)).2
  = (false, (request_path 3 [0; 1; 5] (mk ∅ ∅)).2).
Proof.
  apply (request_path_excludes 3 4 [0; 1; 5] [2; 1; 0] (mk ∅ ∅) (0, 1)).
  - reflexivity.
  - lia.
  - cbv. constructor.
  - cbv. constructor. constructor.
Defined.

(** A robot cannot be granted the same path twice in a row when the path
    has a vertex strictly inside it: its own queue entry from the first
    grant makes the second request fail, with nothing changed. *)
Theorem request_path_twice_refused (robot : nat) (path : list nat) (tm : t) :
  (request_path robot path tm).1 = true →
  intermediate_vertices path ≠ [] →
  request_path robot path (request_path robot path tm).2
  = (false, (request_path robot path tm).2).
Proof.
  intros Hreq Hinner. apply request_path_granted in Hreq as [_ ->].
  destruct (reserve_path_spec robot path tm) as (_ & Hqueued & _).
  apply request_path_refused; [by intros ->|].
  apply not_true_is_false. intros [_ Hvs]%path_free_spec.
  destruct (intermediate_vertices path) as [|v l] eqn:E; [done|].
  destruct (Hqueued v) as (q & Hq & Hin); [by left|].
  specialize (Hvs v q ltac:(by left) Hq). subst q.
  by apply elem_of_nil in Hin.
Qed.

Lemma request_path_twice_refused_witness :
  request_path 3 [0; 1; 2] (request_path 3 [0; 1; 2] (mk ∅ ∅)).2
  = (false, (request_path 3 [0; 1; 2] (mk ∅ ∅)).2).
Proof.
  apply (request_path_twice_refused 3 [0; 1; 2] (mk ∅ ∅)).
  - reflexivity.
  - discriminate.
Defined.

End TrafficManagerMore.

(** * The occupancy tables *)

Module Tables.
Import FleetManager.
Import RobotFacts.
Import RobotInv.
Import FleetFacts.
Import WorldInv.
Import Arbitration.

Lemma standing_elem v : ∀ rs i j,
  j ∈ standing v i rs
  ↔ ∃ k r, j = i + k ∧ rs !! k = Some r
           ∧ Robot.current_vertex_idx r = Some v.
Proof.
  induction rs as [|r rs IH]; intros i j; simpl.
  - split; [by intros ?%elem_of_nil|by intros (k & r & _ & ? & _)].
  - assert (j ∈ standing v (S i) rs
            ↔ ∃ k r0, j = i + S k ∧ rs !! k = Some r0
                      ∧ Robot.current_vertex_idx r0 = Some v) as IH'.
    { rewrite IH. split; intros (k & r0 & -> & ? & ?); exists k, r0;
        (split; [lia|done]). }
    case_decide as Hc.
    + rewrite elem_of_cons, IH'. split.
      * intros [->|(k & r0 & -> & ? & ?)].
        -- exists 0, r. split; [lia|done].
        -- by exists (S k), r0.
      * intros ([|k] & r0 & -> & Hk & ?).
        -- left. lia.
        -- right. by exists k, r0.
    + rewrite IH'. split.
      * intros (k & r0 & -> & ? & ?). by exists (S k), r0.
      * intros ([|k] & r0 & -> & Hk & ?).
        -- simpl in Hk. injection Hk as ->. done.
        -- by exists k, r0.
Qed.

Lemma standing_ext v : ∀ rs rs' i,
  Robot.current_vertex_idx <$> rs = Robot.current_vertex_idx <$> rs' →
  standing v i rs = standing v i rs'.
Proof.
  induction rs as [|r rs IH]; intros [|r' rs'] i H; try done.
  simpl in *. injection H as H1 H2. rewrite H1, (IH rs' (S i) H2). done.
Qed.

Lemma standing_app v r : ∀ rs i,
  standing v i (rs ++ [r])
  = standing v i rs
    ++ (if decide (Robot.current_vertex_idx r = Some v)
        then [i + length rs] else []).
Proof.
  induction rs as [|r0 rs IH]; intros i; simpl.
  - rewrite Nat.add_0_r. by case_decide.
  - rewrite IH. replace (S i + length rs) with (i + S (length rs)) by lia.
    by destruct (decide (Robot.current_vertex_idx r0 = Some v)).
Qed.

Lemma standing_length v : ∀ rs i,
  length (standing v i rs)
  = length (filter (λ r, Robot.current_vertex_idx r = Some v) rs).
Proof.
  induction rs as [|r rs IH]; intros i; [done|]. simpl.
  rewrite filter_cons. case_decide; simpl; by rewrite IH.
Qed.

Lemma standing_occupants v fm :
  standing v 0 (robots fm) = [] ↔ occupants fm v = [].
Proof.
  unfold occupants. pose proof (standing_length v (robots fm) 0) as H.
  split; intros E; rewrite E in H; simpl in H.
  - by apply nil_length_inv.
  - by apply nil_length_inv.
Qed.

Lemma empty_occupancy_lookup n v :
  empty_occupancy n !! v = if decide (v < n) then Some [] else None.
Proof.
  unfold empty_occupancy. case_decide as Hv.
  - apply elem_of_list_to_map.
    + rewrite <- list_fmap_compose. simpl.
      rewrite list_fmap_id. apply NoDup_seq.
    + apply list_elem_of_fmap. exists v. split; [done|].
      apply elem_of_seq. lia.
  - apply not_elem_of_list_to_map.
    rewrite <- list_fmap_compose, list_elem_of_fmap.
    intros (u & -> & Hu). simpl in *. apply elem_of_seq in Hu. lia.
Qed.

(** One robot of the first loop: its position is appended to the entry of
    the vertex it stands on afterwards. *)
Lemma update_robot_table g i r occ r' occ' :
  update_robot g i r occ = (Returned (), r', occ') →
  ∀ v, occ' !! v
       = (λ here, here ++ standing v i [r']) <$> occ !! v.
Proof.
  intros Hu v. unfold update_robot in Hu.
  assert (∀ r0 : Robot.t, Robot.current_vertex_idx r0 = None →
            occ !! v = (λ here, here ++ standing v i [r0]) <$> occ !! v)
    as Hnone.
  { intros r0 Hr0. simpl. rewrite Hr0. rewrite decide_False by done.
    destruct (occ !! v); simpl; by rewrite ?app_nil_r. }
  destruct (Robot.current_vertex_idx r) as [cur|]; [|done].
  destruct (_ <=? cur).
  { injection Hu as <- <-. by apply Hnone. }
  destruct (dispatch g r) as [[[]|e|] r1]; [|done..].
  unfold register in Hu.
  destruct (Robot.current_vertex_idx r1) as [c|] eqn:Hc.
  - destruct (occ !! c) as [here|] eqn:Hh; [|done].
    injection Hu as <- <-. simpl. rewrite Hc.
    destruct (decide (v = c)) as [->|Hne].
    + rewrite lookup_insert_eq, Hh. simpl. by rewrite decide_True.
    + rewrite lookup_insert_ne by done.
      rewrite decide_False by congruence.
      destruct (occ !! v); simpl; by rewrite ?app_nil_r.
  - injection Hu as <- <-. by apply Hnone.
Qed.

Lemma update_positions_table g : ∀ todo i occ rs' occ',
  update_positions g i todo occ = (Returned (), rs', occ') →
  ∀ v, occ' !! v = (λ here, here ++ standing v i rs') <$> occ !! v.
Proof.
  induction todo as [|r todo IH]; intros i occ rs' occ' Hu v; simpl in Hu.
  - injection Hu as <- <-. simpl.
    destruct (occ !! v); simpl; by rewrite ?app_nil_r.
  - destruct (update_robot g i r occ) as [[o r1] occ1] eqn:E.
    destruct o as [[]| |]; [|done..].
    destruct (update_positions g (S i) todo occ1) as [[o' rest'] occ2] eqn:E'.
    injection Hu as -> <- <-.
    rewrite (IH _ _ _ _ E' v), (update_robot_table _ _ _ _ _ _ E v).
    destruct (occ !! v) as [here|]; [|done]. simpl.
    case_decide; simpl; by rewrite <- ?app_assoc, ?app_nil_r.
Qed.

Lemma reserve_lanes_vertices rs i lanes :
  Robot.current_vertex_idx
    <$> (Robot.set_log [] <$> (reserve_lanes i rs lanes).1)
  = Robot.current_vertex_idx <$> rs.
Proof.
  apply list_eq. intros j. rewrite !list_lookup_fmap.
  destruct (rs !! j) as [r|] eqn:Hr.
  - destruct (reserve_lanes_lookup rs i lanes j r Hr) as [lj ->]. simpl.
    by destruct (reserve_lane_fields (i + j) r lj) as (_ & _ & -> & _).
  - apply lookup_ge_None in Hr.
    rewrite (proj2 (lookup_ge_None _ _)); [done|].
    by rewrite reserve_lanes_length.
Qed.

(** Every entry the second loop makes names a robot that claims the lane
    at the end of the loop. *)
Lemma reserve_lanes_holder : ∀ todo i lanes k h,
  (∀ k h, lanes !! k = Some h → h < i) →
  (reserve_lanes i todo lanes).2 !! k = Some h →
  lanes !! k = Some h
  ∨ ∃ j r', h = i + j ∧ (reserve_lanes i todo lanes).1 !! j = Some r'
            ∧ claimed_lane r' = Some k.
Proof.
  induction todo as [|r todo IH]; intros i lanes k h Hold Hk; simpl in *.
  { by left. }
  pose proof (reserve_lane_spec i r lanes Hold) as Hsp.
  destruct (reserve_lane i r lanes) as [r1 lanes1] eqn:E1.
  assert (∀ k h, lanes1 !! k = Some h → h < S i) as Hold1.
  { intros k' h' Hk'. destruct (claimed_lane r) as [kr|].
    - destruct (lanes !! kr) eqn:El.
      + injection Hsp as _ ->. apply Hold in Hk'. lia.
      + injection Hsp as _ ->.
        destruct (decide (k' = kr)) as [->|Hne].
        * rewrite lookup_insert_eq in Hk'. injection Hk' as <-. lia.
        * rewrite lookup_insert_ne in Hk' by done. apply Hold in Hk'. lia.
    - injection Hsp as _ ->. apply Hold in Hk'. lia. }
  specialize (IH (S i) lanes1 k h Hold1).
  destruct (reserve_lanes (S i) todo lanes1) as [rest' lanes2] eqn:E2.
  simpl in *. destruct (IH Hk) as [Hin|(j & r' & -> & Hj & Hc)].
  - destruct (claimed_lane r) as [kr|] eqn:Hkr.
    + destruct (lanes !! kr) eqn:El.
      * injection Hsp as _ ->. by left.
      * injection Hsp as -> ->.
        destruct (decide (k = kr)) as [->|Hne].
        -- rewrite lookup_insert_eq in Hin. injection Hin as <-.
           right. exists 0, r. split; [lia|done].
        -- rewrite lookup_insert_ne in Hin by done. by left.
    + injection Hsp as _ ->. by left.
  - right. exists (S j), r'. split; [lia|done].
Qed.

(** The tables a returning tick leaves behind. *)
Lemma update_tables (g : NavGraph.t) (fm fm' : FleetManager.t) :
  update g fm = (Returned (), fm') →
  (∀ v, occupied_vertices fm' !! v
        = if decide (v < length (NavGraph.vertices g))
          then Some (standing v 0 (robots fm')) else None)
  ∧ (∀ v i, i ∈ standing v 0 (robots fm')
            ↔ ∃ r, robots fm' !! i = Some r
                   ∧ Robot.current_vertex_idx r = Some v)
  ∧ (∀ k i, occupied_lanes fm' !! k = Some i
            ↔ ∃ r, robots fm' !! i = Some r ∧ claimed_lane r = Some k).
Proof.
  intros Hu. unfold update in Hu.
  destruct (update_positions g 0 (robots fm) _) as [[o rs1] occ1] eqn:E1.
  destruct o as [[]| |]; [|done..].
  pose proof (update_positions_table _ _ _ _ _ _ E1) as Htab.
  pose proof (reserve_lanes_vertices rs1 0 ∅) as Hcvi.
  destruct (reserve_lanes_spec rs1 0 ∅) as (_ & Hkeep & _).
  { intros k h Hk. by rewrite lookup_empty in Hk. }
  pose proof (reserve_lanes_holder rs1 0 ∅) as Hhold.
  destruct (reserve_lanes 0 rs1 ∅) as [rs2 lanes2] eqn:E2.
  injection Hu as <-. simpl in *. split; [|split].
  - intros v. rewrite Htab, empty_occupancy_lookup.
    case_decide; [|done]. simpl. f_equal. symmetry.
    by apply standing_ext.
  - intros v i. rewrite standing_elem. split.
    + intros (k & r & -> & ? & ?). by exists r.
    + intros (r & ? & ?). by exists i, r.
  - intros k i. split.
    + intros Hk. destruct (Hhold k i) as [Hin|(j & r' & -> & Hj & Hc)];
        [by intros ? ? ?%lookup_empty_Some|done| |].
      * by rewrite lookup_empty in Hin.
      * exists (Robot.set_log [] r'). simpl.
        rewrite list_lookup_fmap, Hj. split; [done|].
        by rewrite claimed_lane_set_log.
    + intros (r & Hi & Hc). rewrite list_lookup_fmap in Hi.
      destruct (rs2 !! i) as [r2|] eqn:Ei; [|done]. injection Hi as <-.
      rewrite claimed_lane_set_log in Hc.
      by apply (Hkeep _ _ _ Ei Hc).
Qed.

(** After a tick that returns, from any fleet: the vertex table has one
    entry for each vertex of the graph and none else, the entry of a
    vertex lists the positions of exactly the robots that stand on it, in
    fleet order; the lane table maps a lane key to a robot exactly when
    that robot is [MOVING] on a lane with that key. *)
Theorem update_rebuilds_tables (g : NavGraph.t) (fm fm' : FleetManager.t) :
  update g fm = (Returned (), fm') →
  (∀ v, occupied_vertices fm' !! v
        = if decide (v < length (NavGraph.vertices g))
          then Some (standing v 0 (robots fm')) else None)
  ∧ (∀ v i, i ∈ standing v 0 (robots fm')
            ↔ ∃ r, robots fm' !! i = Some r
                   ∧ Robot.current_vertex_idx r = Some v)
  ∧ (∀ k i, occupied_lanes fm' !! k = Some i
            ↔ ∃ r, robots fm' !! i = Some r ∧ claimed_lane r = Some k).
Proof. apply update_tables. Qed.

Lemma update_rebuilds_tables_witness :
  occupied_vertices (head_on_after 1) !! 0
  = if decide (0 < length (NavGraph.vertices line4))
    then Some (standing 0 0 (robots (head_on_after 1))) else None.
Proof.
  refine (proj1 (update_rebuilds_tables line4 (head_on_after 0)
                   (head_on_after 1) _) 0).
  vm_compute. reflexivity.
Defined.

(** The table invariant of reachable fleets. *)
Lemma exec_table w op :
  world_ok w →
  (∀ v, default [] (occupied_vertices (fleet w) !! v)
        = standing v 0 (robots (fleet w))) →
  ∀ v, default [] (occupied_vertices (fleet (exec w op)) !! v)
       = standing v 0 (robots (fleet (exec w op))).
Proof.
  intros Hok Htab v. destruct op as [u|robot_id d| |level]; simpl.
  - unfold spawn_robot.
    destruct (negb _); [by apply Htab|].
    destruct (is_vertex_occupied _ _ _) as [[]| |]; try by apply Htab.
    destruct (NavGraph.vertices (graph w) !! u); [|by apply Htab].
    simpl. rewrite standing_app. simpl.
    destruct (decide (u = v)) as [->|Hne].
    + rewrite lookup_insert_eq. simpl. rewrite decide_True by done.
      by rewrite Htab.
    + rewrite lookup_insert_ne by done. rewrite decide_False by congruence.
      by rewrite app_nil_r.
  - assert (Robot.current_vertex_idx
              <$> robots (assign_task (graph w) robot_id d (fleet w)).2
            = Robot.current_vertex_idx <$> robots (fleet w)) as Hc.
    { destruct Hok as (Hall & _).
      unfold assign_task.
      destruct (find_robot 0 (robots (fleet w)) robot_id)
        as [[i r]|] eqn:Ef; [|done].
      apply find_robot_lookup in Ef as (k & -> & Hk). simpl.
      destruct (Robot.current_vertex_idx r) eqn:Ec; [|done].
      destruct (NavGraph.vertices (graph w) !! d) as [dv|] eqn:Ed; [|done].
      assert (d < length (NavGraph.vertices (graph w))) as Hd.
      { apply lookup_lt_is_Some. eauto. }
      destruct (if NavGraph.is_charger dv then Returned false
                else is_vertex_occupied (graph w) d (fleet w))
        as [[]| |]; try done.
      assert (robot_ok (graph w) r) as Hr by (by eapply Forall_lookup in Hall).
      destruct (assign_task_ok d (graph w) r Hr Hd) as (b & r' & -> & _ & Hc).
      destruct b; simpl; rewrite list_fmap_insert; simpl; rewrite Hc;
        apply list_insert_id; by rewrite list_lookup_fmap, Hk. }
    rewrite (standing_ext v _ _ 0 Hc).
    assert (occupied_vertices (assign_task (graph w) robot_id d (fleet w)).2
            = occupied_vertices (fleet w)) as ->; [|by apply Htab].
    unfold assign_task.
    destruct (find_robot 0 (robots (fleet w)) robot_id) as [[i r]|]; [|done].
    destruct (Robot.current_vertex_idx r); [|done].
    destruct (NavGraph.vertices (graph w) !! d) as [dv|]; [|done].
    destruct (if NavGraph.is_charger dv then Returned false
              else is_vertex_occupied (graph w) d (fleet w))
      as [[]| |]; try done.
    by destruct (Robot.assign_task d (graph w) r) as [[[]| |] r'].
  - destruct (update_ok w Hok) as (fm' & Hu & Hok').
    rewrite Hu. simpl.
    destruct (update_tables _ _ _ Hu) as (Hv & _).
    rewrite Hv. case_decide as Hlt; [done|]. simpl. symmetry.
    destruct (standing v 0 (robots fm')) as [|j rest] eqn:Es; [done|].
    assert (j ∈ standing v 0 (robots fm')) as Hj by (rewrite Es; by left).
    apply standing_elem in Hj as (k & r & _ & Hk & Hc).
    destruct Hok' as (Hall & _). simpl in Hall.
    eapply Forall_lookup in Hall; [|exact Hk].
    destruct Hall as (_ & (c & Hc' & ?) & _). exfalso.
    rewrite Hc in Hc'. injection Hc' as <-. lia.
  - done.
Qed.

Lemma run_table ops : ∀ w,
  world_ok w →
  (∀ v, default [] (occupied_vertices (fleet w) !! v)
        = standing v 0 (robots (fleet w))) →
  ∀ v, default [] (occupied_vertices (fleet (run w ops)) !! v)
       = standing v 0 (robots (fleet (run w ops))).
Proof.
  induction ops as [|op ops IH]; intros w Hok Htab; [done|].
  apply IH; [by apply exec_ok|by apply exec_table].
Qed.

(** In every reachable fleet the vertex table agrees with the robots: the
    entry of a vertex (the empty list when it has none) lists exactly the
    positions of the robots standing on it. *)
Theorem reachable_vertex_table (g : NavGraph.t) (ops : list Op) (v : nat) :
  default [] (occupied_vertices (fleet (run (init_world g) ops)) !! v)
  = standing v 0 (robots (fleet (run (init_world g) ops)))
  ∧ (standing v 0 (robots (fleet (run (init_world g) ops))) = []
     ↔ occupants (fleet (run (init_world g) ops)) v = []).
Proof.
  split; [|apply standing_occupants].
  apply run_table; [apply init_world_ok|done].
Qed.

End Tables.

(** * Which spawns and assignments succeed *)

Module Admission.
Import FleetManager.
Import RobotFacts.
Import RobotInv.
Import FleetFacts.
Import WorldInv.
Import Tables.

Lemma is_vertex_occupied_table g fm v vertex :
  (default [] (occupied_vertices fm !! v) = standing v 0 (robots fm)) →
  NavGraph.vertices g !! v = Some vertex →
  ∃ b, is_vertex_occupied g v fm = Returned b
       ∧ (b = false
          ↔ NavGraph.is_charger vertex = true ∨ occupants fm v = []).
Proof.
  intros Htab Hv. unfold is_vertex_occupied. rewrite Hv.
  assert (occupants fm v = [] ↔ default [] (occupied_vertices fm !! v) = [])
    as Hiff by (by rewrite <- standing_occupants, Htab).
  destruct (occupied_vertices fm !! v) as [here|]; simpl in Hiff.
  - destruct (NavGraph.is_charger vertex).
    + exists false. split; [done|]. by split; [left|].
    + exists (0 <? length here). split; [done|]. rewrite Hiff.
      destruct here; simpl; split; try done; [by right|by intros [|]].
  - exists false. split; [done|]. split; [|done]. intros _. right.
    by apply Hiff.
Qed.

Lemma find_robot_id : ∀ rs i robot_id j r,
  find_robot i rs robot_id = Some (j, r) → Robot.id r = robot_id.
Proof.
  induction rs as [|r0 rs IH]; intros i robot_id j r; [done|]. simpl.
  destruct (Nat.eqb_spec (Robot.id r0) robot_id) as [He|_].
  - by intros [= _ <-].
  - apply IH.
Qed.

Lemma find_robot_unique : ∀ rs i k r,
  NoDup (Robot.id <$> rs) → rs !! k = Some r →
  find_robot i rs (Robot.id r) = Some (i + k, r).
Proof.
  induction rs as [|r0 rs IH]; intros i k r Hnd Hk; [done|].
  rewrite fmap_cons in Hnd. apply NoDup_cons in Hnd as [Hnot Hnd].
  simpl. destruct k as [|k]; simpl in Hk.
  - injection Hk as ->. by rewrite Nat.eqb_refl, Nat.add_0_r.
  - destruct (Nat.eqb_spec (Robot.id r0) (Robot.id r)) as [He|_].
    + exfalso. apply Hnot. rewrite He. apply list_elem_of_fmap.
      exists r. split; [done|]. by eapply list_elem_of_lookup_2.
    + rewrite (IH (S i) k r Hnd Hk). do 2 f_equal. lia.
Qed.

(** In every reachable fleet [spawn_robot] returns [True] exactly for a
    vertex of the graph that is a charger or has no robot standing on it;
    it then appends one robot, which carries the next id, stands [IDLE] on
    that vertex at the vertex's coordinates with a full battery and no
    task; otherwise it returns [False] and changes nothing. *)
Theorem spawn_robot_decides (g : NavGraph.t) (ops : list Op) (v : nat) :
  ((spawn_robot (graph (run (init_world g) ops)) v
      (fleet (run (init_world g) ops))).1 = Returned true
   ↔ ∃ vertex,
       NavGraph.vertices (graph (run (init_world g) ops)) !! v = Some vertex
       ∧ (NavGraph.is_charger vertex = true
          ∨ occupants (fleet (run (init_world g) ops)) v = []))
  ∧ ((spawn_robot (graph (run (init_world g) ops)) v
        (fleet (run (init_world g) ops))).1 = Returned true →
     ∃ vertex,
       NavGraph.vertices (graph (run (init_world g) ops)) !! v = Some vertex
       ∧ robots (spawn_robot (graph (run (init_world g) ops)) v
                   (fleet (run (init_world g) ops))).2
         = robots (fleet (run (init_world g) ops))
           ++ [Robot.mk
                 (robot_id_counter (fleet (run (init_world g) ops)))
                 (NavGraph.x vertex) (NavGraph.y vertex) IDLE (Some v)
                 None [] 0 None [] 100 0.05])
  ∧ ((spawn_robot (graph (run (init_world g) ops)) v
        (fleet (run (init_world g) ops))).1 ≠ Returned true →
     spawn_robot (graph (run (init_world g) ops)) v
       (fleet (run (init_world g) ops))
     = (Returned false, fleet (run (init_world g) ops))).
Proof.
  pose proof (run_table ops _ (init_world_ok g) (λ _, eq_refl) v) as Htab.
  set (w := run (init_world g) ops) in *.
  unfold spawn_robot.
  destruct (Nat.ltb_spec v (length (NavGraph.vertices (graph w))))
    as [Hv|Hv]; simpl.
  - destruct (lookup_lt_is_Some_2 _ _ Hv) as [vertex Hvertex].
    destruct (is_vertex_occupied_table _ _ _ _ Htab Hvertex)
      as (b & -> & Hb).
    rewrite Hvertex. destruct b; simpl.
    + split; [|split]; try done. split; [done|].
      intros (vertex' & Hv' & Hfree). injection Hv' as <-. by apply Hb in Hfree.
    + split; [|split]; try done.
      * split; [|done]. intros _. exists vertex. split; [done|].
        by apply Hb.
      * intros _. by exists vertex.
  - split; [|split]; try done. split; [done|].
    intros (vertex & Hvertex & _).
    apply lookup_lt_Some in Hvertex. lia.
Qed.

(** In every reachable fleet [FleetManager.assign_task] returns [True]
    exactly when a robot carries the id, is not [CHARGING], the
    destination is a vertex of the graph that is a charger or has no robot
    standing on it, and a lane-path leads from the robot's vertex to the
    destination; the robot is then [MOVING], on the vertex and with the
    battery it had, and no other robot is touched. *)
Theorem assign_task_decides (g : NavGraph.t) (ops : list Op)
    (robot_id d : nat) :
  ((assign_task (graph (run (init_world g) ops)) robot_id d
      (fleet (run (init_world g) ops))).1 = Returned true
   ↔ ∃ k r c dv,
       robots (fleet (run (init_world g) ops)) !! k = Some r
       ∧ Robot.id r = robot_id
       ∧ Robot.status r ≠ CHARGING
       ∧ Robot.current_vertex_idx r = Some c
       ∧ NavGraph.vertices (graph (run (init_world g) ops)) !! d = Some dv
       ∧ (NavGraph.is_charger dv = true
          ∨ occupants (fleet (run (init_world g) ops)) d = [])
       ∧ ∃ p, NavGraph.path_from_to (graph (run (init_world g) ops)) c d p)
  ∧ ((assign_task (graph (run (init_world g) ops)) robot_id d
        (fleet (run (init_world g) ops))).1 = Returned true →
     ∃ k r r',
       robots (fleet (run (init_world g) ops)) !! k = Some r
       ∧ Robot.id r = robot_id
       ∧ robots (assign_task (graph (run (init_world g) ops)) robot_id d
                   (fleet (run (init_world g) ops))).2
         = <[k := r']> (robots (fleet (run (init_world g) ops)))
       ∧ Robot.status r' = MOVING
       ∧ Robot.current_vertex_idx r' = Robot.current_vertex_idx r
       ∧ Robot.battery r' = Robot.battery r).
Proof.
  pose proof (run_table ops _ (init_world_ok g) (λ _, eq_refl) d) as Htab.
  pose proof (run_ok ops _ (init_world_ok g)) as (Hall & Hids & _).
  set (w := run (init_world g) ops) in *.
  assert (∀ dv, NavGraph.vertices (graph w) !! d = Some dv →
            ∃ b, (if NavGraph.is_charger dv then Returned false
                  else is_vertex_occupied (graph w) d (fleet w)) = Returned b
                 ∧ (b = false
                    ↔ NavGraph.is_charger dv = true
                      ∨ occupants (fleet w) d = [])) as Hocc.
  { intros dv Hd.
    destruct (is_vertex_occupied_table _ _ _ _ Htab Hd) as (b & Hb & Hiff).
    destruct (NavGraph.is_charger dv); [|by eauto].
    exists false. split; [done|]. by split; [left|]. }
  assert (∀ r c, robot_ok (graph w) r →
            Robot.current_vertex_idx r = Some c →
            d < length (NavGraph.vertices (graph w)) →
            ∃ b r', Robot.assign_task d (graph w) r = (Returned b, r')
                    ∧ Robot.current_vertex_idx r' = Robot.current_vertex_idx r
                    ∧ Robot.battery r' = Robot.battery r
                    ∧ (b = true
                       ↔ Robot.status r ≠ CHARGING
                         ∧ ∃ p, NavGraph.path_from_to (graph w) c d p))
    as Hrobot.
  { intros r c Hok Hc Hd.
    destruct (assign_task_ok d (graph w) r Hok Hd) as (b & r' & E & _ & Hc').
    exists b, r'. split; [done|]. split; [done|].
    pose proof (assign_task_battery d (graph w) r) as [Hb _].
    rewrite E in Hb. split; [done|].
    destruct Hok as (_ & (c' & Hc'' & Hcn) & _).
    rewrite Hc in Hc''. injection Hc'' as <-.
    unfold Robot.assign_task in E.
    destruct (decide (Robot.status r = CHARGING)) as [Hs|Hs].
    { injection E as <- _. split; [done|]. by intros [? _]. }
    rewrite Hc in E.
    destruct (NavGraphFacts.find_shortest_path_result (graph w) c d Hcn Hd)
      as [[Hp Hnone]|(p & Hp & Hpath & _)]; rewrite Hp in E.
    - injection E as <- _. split; [done|].
      intros (_ & p & Hpath). by apply Hnone in Hpath.
    - destruct p as [|a p]; [by destruct Hpath|].
      injection E as <- _. split; [|done]. intros _. split; [done|].
      by exists (a :: p). }
  unfold assign_task. split.
  - split.
    + destruct (find_robot 0 (robots (fleet w)) robot_id)
        as [[i r]|] eqn:Ef; [|done].
      apply find_robot_id in Ef as Hid.
      apply find_robot_lookup in Ef as (k & -> & Hk). simpl.
      destruct (Robot.current_vertex_idx r) as [c|] eqn:Ec; [|done].
      destruct (NavGraph.vertices (graph w) !! d) as [dv|] eqn:Ed; [|done].
      destruct (Hocc dv eq_refl) as (b & -> & Hb).
      destruct b; [done|].
      assert (robot_ok (graph w) r) as Hr by (by eapply Forall_lookup in Hall).
      destruct (Hrobot r c Hr Ec) as (b & r' & -> & _ & _ & Hiff).
      { apply lookup_lt_is_Some. eauto. }
      destruct b; [|done]. intros _.
      destruct (proj1 Hiff eq_refl) as [Hs Hp].
      exists k, r, c, dv. split_and!; try done. by apply Hb.
    + intros (k & r & c & dv & Hk & Hid & Hs & Hc & Hd & Hfree & Hp).
      assert (NoDup (Robot.id <$> robots (fleet w))) as Hnd.
      { rewrite Hids. apply NoDup_seq. }
      pose proof (find_robot_unique _ 0 k r Hnd Hk) as Hf.
      rewrite Hid in Hf. rewrite Hf, Hc, Hd.
      destruct (Hocc dv Hd) as (b & -> & Hb).
      apply Hb in Hfree as ->.
      assert (robot_ok (graph w) r) as Hr by (by eapply Forall_lookup in Hall).
      destruct (Hrobot r c Hr Hc) as (b & r' & -> & _ & _ & Hiff).
      { apply lookup_lt_is_Some. eauto. }
      rewrite (proj2 Hiff); done.
  - destruct (find_robot 0 (robots (fleet w)) robot_id)
      as [[i r]|] eqn:Ef; [|done].
    apply find_robot_id in Ef as Hid.
    apply find_robot_lookup in Ef as (k & -> & Hk). simpl.
    destruct (Robot.current_vertex_idx r) as [c|] eqn:Ec; [|done].
    destruct (NavGraph.vertices (graph w) !! d) as [dv|] eqn:Ed; [|done].
    destruct (Hocc dv eq_refl) as (b & -> & Hb).
    destruct b; [done|].
    assert (robot_ok (graph w) r) as Hr by (by eapply Forall_lookup in Hall).
    destruct (Hrobot r c Hr Ec) as (b & r' & -> & Hc' & Hb' & _).
    { apply lookup_lt_is_Some. eauto. }
    destruct b; [|done]. intros _.
    exists k, r, (Robot.set_status MOVING r'). by split_and!.
Qed.

End Admission.

(** * Lane changes, charging and the low-battery reroute *)

Module RobotMore.
Import Robot.
Import RobotFacts.
Import RobotInv.

(** Each method either resets the progress or keeps lane and progress. *)
Lemma _move_to_next_vertex_resets g r :
  progress (_move_to_next_vertex g r) = 0%Q
  ∨ (current_lane (_move_to_next_vertex g r) = current_lane r
     ∧ progress (_move_to_next_vertex g r) = progress r).
Proof.
  unfold _move_to_next_vertex.
  destruct (path r) as [|s [|e rest]]; [by right..|]. by left.
Qed.

Lemma assign_task_resets d g r :
  progress (assign_task d g r).2 = 0%Q
  ∨ (current_lane (assign_task d g r).2 = current_lane r
     ∧ progress (assign_task d g r).2 = progress r).
Proof.
  unfold assign_task. case_decide; [by right|].
  destruct (current_vertex_idx r) as [c|]; [|by right].
  destruct (NavGraph.find_shortest_path g c d) as [[|a p]| |];
    [by right| |by right..].
  simpl.
  match goal with
  | |- context [_move_to_next_vertex g ?r1] =>
      destruct (_move_to_next_vertex_resets g r1) as [H0|[Hl Hp]]
  end; [by left|by right].
Qed.

Lemma consume_battery_resets g r :
  progress (consume_battery g r).2 = 0%Q
  ∨ (current_lane (consume_battery g r).2 = current_lane r
     ∧ progress (consume_battery g r).2 = progress r).
Proof.
  unfold consume_battery.
  set (r1 := set_battery (py_max 0 (battery r - 0.1)) r).
  destruct (Qltb (battery r1) 20); [|by right].
  destruct (chargers_from 0 (NavGraph.vertices g)) as [|c rest]; [by right|].
  set (nearest := nearest_of (charger_key g r1) c rest).
  pose proof (assign_task_resets nearest g r1) as H.
  destruct (assign_task nearest g r1) as [[b|e|] r']; exact H.
Qed.

Lemma advance_resets g e va vb r :
  progress (advance g e va vb r) = 0%Q
  ∨ current_lane (advance g e va vb r) = current_lane r.
Proof.
  unfold advance. simpl. destruct (Qle_bool 1 _); [|by right].
  destruct (_ && _); [by left|]. destruct (path r) eqn:E; [by left|].
  match goal with
  | |- context [_move_to_next_vertex g ?r1] =>
      destruct (_move_to_next_vertex_resets g r1) as [H0|[Hl Hp]]
  end; [by left|]. left. by rewrite Hp.
Qed.

(** Whenever [update_position] or [assign_task] leaves the robot on
    another lane than before, the progress along the lane is 0. *)
Theorem lane_change_resets_progress (g : NavGraph.t) (r : t) (d : nat) :
  (current_lane (update_position g r).2 ≠ current_lane r →
   progress (update_position g r).2 = 0%Q)
  ∧ (current_lane (assign_task d g r).2 ≠ current_lane r →
     progress (assign_task d g r).2 = 0%Q).
Proof.
  split.
  - unfold update_position. case_decide; [done|].
    destruct (current_lane r) as [[a b]|] eqn:El.
    2:{ simpl. destruct (_move_to_next_vertex_resets g r) as [|[Hl _]];
          [done|]. intros Hne. exfalso. apply Hne. congruence. }
    destruct (NavGraph.vertices g !! a) as [va|]; [|simpl; congruence].
    destruct (NavGraph.vertices g !! b) as [vb|]; [|simpl; congruence].
    cbv zeta. pose proof (advance_resets g b va vb r) as Ha.
    case_decide.
    + destruct (consume_battery_resets g (advance g b va vb r))
        as [|[Hl Hp]]; [done|].
      rewrite Hl, Hp. destruct Ha as [|Ha]; [done|]. congruence.
    + simpl. destruct Ha as [|Ha]; [done|]. congruence.
  - destruct (assign_task_resets d g r) as [|[Hl _]]; [done|]. congruence.
Qed.

(** ** Charging *)

Lemma update_charging_step r :
  status r = CHARGING →
  battery (update_charging r) = py_min 100 (battery r + 1)
  ∧ ((95 <= py_min 100 (battery r + 1))%Q →
     status (update_charging r) = IDLE)
  ∧ (¬ (95 <= py_min 100 (battery r + 1))%Q →
     status (update_charging r) = CHARGING).
Proof.
  intros Hs. unfold update_charging. rewrite decide_True by done. simpl.
  destruct (Qle_bool 95 (py_min 100 (battery r + 1))) eqn:E; simpl.
  - apply Qle_bool_iff in E. by split_and!.
  - split_and!; [done| |done]. intros H. apply Qle_bool_iff in H.
    congruence.
Qed.

Lemma charging_completes_within : ∀ n r,
  status r = CHARGING →
  (94 - inject_Z (Z.of_nat n) <= battery r)%Q →
  ∃ k, 1 ≤ k ≤ S n
       ∧ status (Nat.iter k update_charging r) = IDLE
       ∧ (95 <= battery (Nat.iter k update_charging r))%Q
       ∧ ∀ j, j < k → status (Nat.iter j update_charging r) = CHARGING.
Proof.
  induction n as [|n IH]; intros r Hs Hb.
  - destruct (update_charging_step r Hs) as (Hb' & Hidle & _).
    assert (95 <= py_min 100 (battery r + 1))%Q as H95.
    { unfold py_min. change (inject_Z (Z.of_nat 0)) with 0%Q in Hb.
      destruct (Qltb (battery r + 1) 100); lra. }
    exists 1. simpl. split_and!; try lia; [by apply Hidle|by rewrite Hb'|].
    intros j Hj. by replace j with 0 by lia.
  - destruct (update_charging_step r Hs) as (Hb' & Hidle & Hstay).
    destruct (Qlt_le_dec (py_min 100 (battery r + 1)) 95) as [Hlt|H95].
    + assert (status (update_charging r) = CHARGING) as Hs1.
      { apply Hstay. lra. }
      destruct (IH (update_charging r) Hs1) as (k & Hk & Hi & Hbk & Hbefore).
      { rewrite Hb'. rewrite Nat2Z.inj_succ, <- Z.add_1_r, inject_Z_plus in Hb.
        change (inject_Z 1) with 1%Q in Hb.
        assert (0 <= inject_Z (Z.of_nat n))%Q as Hq.
        { change 0%Q with (inject_Z 0). rewrite <- Zle_Qle. lia. }
        clear IH. revert Hb Hq. generalize (inject_Z (Z.of_nat n)).
        intros q Hb Hq. unfold py_min.
        destruct (Qltb (battery r + 1) 100); lra. }
      exists (S k). rewrite !Nat.iter_succ_r. split_and!; try lia; try done.
      intros [|j] Hj; [done|]. rewrite Nat.iter_succ_r. apply Hbefore. lia.
    + exists 1. simpl. split_and!; try lia; [by apply Hidle|by rewrite Hb'|].
      intros j Hj. by replace j with 0 by lia.
Qed.

(** A [CHARGING] robot whose battery is not negative is [IDLE] with a
    battery of at least 95 after at most 95 calls of [update_charging],
    and it is [CHARGING] until then. *)
Theorem charging_completes (r : t) :
  status r = CHARGING → (0 <= battery r)%Q →
  ∃ k, 1 ≤ k ≤ 95
       ∧ status (Nat.iter k update_charging r) = IDLE
       ∧ (95 <= battery (Nat.iter k update_charging r))%Q
       ∧ ∀ j, j < k → status (Nat.iter j update_charging r) = CHARGING.
Proof.
  intros Hs Hb. apply (charging_completes_within 94); [done|].
  assert (inject_Z (Z.of_nat 94) = 94%Q) as -> by reflexivity. lra.
Qed.

Lemma charging_completes_witness :
  ∃ k, 1 ≤ k ≤ 95
       ∧ status (Nat.iter k update_charging charging) = IDLE
       ∧ (95 <= battery (Nat.iter k update_charging charging))%Q
       ∧ ∀ j, j < k → status (Nat.iter j update_charging charging) = CHARGING.
Proof.
  apply (charging_completes charging); [reflexivity|].
  vm_compute. discriminate.
Defined.

(** ** The low-battery reroute *)









End RobotMore.

(** * Reports and untouched robots *)

Module Reports.
Import FleetManager.
Import RobotFacts.
Import RobotInv.
Import FleetFacts.
Import WorldInv.
Import Admission.

Lemma find_robot_none : ∀ rs i robot_id,
  find_robot i rs robot_id = None
  ↔ ∀ r, r ∈ rs → Robot.id r ≠ robot_id.
Proof.
  induction rs as [|r0 rs IH]; intros i robot_id; simpl.
  - split; [by intros _ r ?%elem_of_nil|done].
  - destruct (Nat.eqb_spec (Robot.id r0) robot_id) as [He|Hne].
    + split; [done|]. intros H. exfalso. apply (H r0); [by left|done].
    + rewrite IH. split.
      * intros H r [->|Hr]%elem_of_cons; [done|by apply H].
      * intros H r Hr. apply H. by right.
Qed.

(** [get_robot_info] returns the empty dictionary exactly for an id that
    no robot carries, and otherwise describes a robot with that id;
    [get_all_robots_info] has one entry for each robot, and in every
    reachable fleet the entry at each position describes the robot at
    that position. *)
Theorem robot_info_describes (g : NavGraph.t) (ops : list Op)
    (fm : FleetManager.t) (robot_id : nat) :
  (get_robot_info fm robot_id = None
   ↔ ∀ r, r ∈ robots fm → Robot.id r ≠ robot_id)
  ∧ (∀ info, get_robot_info fm robot_id = Some info →
       info_id info = robot_id
       ∧ ∃ r, r ∈ robots fm
              ∧ Robot.id r = robot_id
              ∧ info_status info = Robot.status r
              ∧ info_battery info = Robot.battery r
              ∧ info_current_vertex info = Robot.current_vertex_idx r)
  ∧ length (get_all_robots_info fm) = length (robots fm)
  ∧ (∀ j r, robots (fleet (run (init_world g) ops)) !! j = Some r →
       get_all_robots_info (fleet (run (init_world g) ops)) !! j
       = Some (Some (mkRobotInfo (Robot.id r) (Robot.x r) (Robot.y r)
                       (Robot.status r) (Robot.battery r)
                       (Robot.destination_vertex_idx r)
                       (Robot.current_vertex_idx r)))).
Proof.
  split_and!.
  - unfold get_robot_info. rewrite <- (find_robot_none (robots fm) 0).
    by destruct (find_robot 0 (robots fm) robot_id) as [[i r]|].
  - intros info. unfold get_robot_info.
    destruct (find_robot 0 (robots fm) robot_id) as [[i r]|] eqn:Ef;
      [|done].
    intros [= <-]. apply find_robot_id in Ef as Hid.
    apply find_robot_lookup in Ef as (k & _ & Hk). simpl.
    split; [done|]. exists r. split_and!; try done.
    by eapply list_elem_of_lookup_2.
  - unfold get_all_robots_info. by rewrite length_fmap.
  - intros j r Hj.
    pose proof (run_ok ops _ (init_world_ok g)) as (_ & Hids & _).
    unfold get_all_robots_info, get_robot_info.
    rewrite list_lookup_fmap, Hj. simpl.
    rewrite (find_robot_unique _ 0 j r); [done| |done].
    rewrite Hids. apply NoDup_seq.
Qed.

(** A tick that returns leaves alone every robot that is neither
    [MOVING] nor [CHARGING] and stands on a vertex of the graph: only
    its log is cleared.  A [CHARGING] robot on a vertex of the graph is
    passed through [update_charging] and nothing else. *)
Theorem update_by_status (g : NavGraph.t) (fm fm' : FleetManager.t)
    (j c : nat) (r : Robot.t) :
  update g fm = (Returned (), fm') →
  robots fm !! j = Some r →
  Robot.current_vertex_idx r = Some c →
  c < length (NavGraph.vertices g) →
  (Robot.status r ≠ MOVING → Robot.status r ≠ CHARGING →
   robots fm' !! j = Some (Robot.set_log [] r))
  ∧ (Robot.status r = CHARGING →
     robots fm' !! j = Some (Robot.set_log [] (Robot.update_charging r))).
Proof.
  intros Hu Hj Hc Hcn.
  destruct (update_returned_lookup _ _ _ _ _ Hu Hj)
    as (r1 & oj & oj' & lj & Hr1 & ->).
  unfold update_robot in Hr1. rewrite Hc in Hr1.
  destruct (Nat.leb_spec (length (NavGraph.vertices g)) c); [lia|].
  unfold dispatch in Hr1. split.
  - intros Hm Hch. rewrite decide_False in Hr1 by done.
    assert (dispatched :
      (if decide (Robot.status r = MOVING ∨ Robot.status r = WAITING)
       then Robot.update_position g r else (Returned (), r))
      = (Returned (), r)).
    { case_decide; [|done]. unfold Robot.update_position.
      by rewrite decide_True. }
    rewrite dispatched in Hr1.
    pose proof (register_robot j r oj) as Hreg. rewrite Hr1 in Hreg.
    simpl in Hreg. subst r1.
    unfold reserve_lane, claimed_lane. by rewrite decide_False.
  - intros Hch. rewrite decide_True in Hr1 by done.
    pose proof (register_robot j (Robot.update_charging r) oj) as Hreg.
    rewrite Hr1 in Hreg. simpl in Hreg. subst r1.
    unfold reserve_lane, claimed_lane. rewrite decide_False; [done|].
    unfold Robot.update_charging. rewrite decide_True by done. simpl.
    destruct (Qle_bool 95 _); simpl; congruence.
Qed.

Lemma update_by_status_witness :
  robots (fleet (run (init_world line3) [OpSpawn 0; OpTick])) !! 0
  = Some (Robot.set_log [] parked).
Proof.
  refine (proj1 (update_by_status line3
                   (fleet (run (init_world line3) [OpSpawn 0]))
                   (fleet (run (init_world line3) [OpSpawn 0; OpTick]))
                   0 0 parked _ _ _ _) _ _).
  - vm_compute. reflexivity.
  - reflexivity.
  - reflexivity.
  - simpl. lia.
  - discriminate.
  - discriminate.
Defined.

(** The two lane keys agree: [TrafficManager]'s conditional and
    [FleetManager.get_lane_key]'s sort give the same pair, which does not
    depend on the direction of travel and has its smaller end first. *)
Theorem lane_keys_agree (a b : nat) :
  TrafficManager.lane_key a b = get_lane_key (a, b)
  ∧ TrafficManager.lane_key a b = TrafficManager.lane_key b a
  ∧ get_lane_key (a, b) = get_lane_key (b, a)
  ∧ (get_lane_key (a, b)).1 ≤ (get_lane_key (a, b)).2.
Proof.
  unfold TrafficManager.lane_key, get_lane_key. simpl.
  destruct (Nat.ltb_spec a b), (Nat.ltb_spec b a);
    split_and!; try f_equal; lia.
Qed.

End Reports.
